(** * git-fleet: the conflict-aware parallel sync engine

  A shallow embedding of [git_fleet/core.py] (status classification,
  conflict-risk resolution, the fan-out engine, bulk pull and push) and of
  the display-name disambiguation of [git_fleet/formatters.py], followed by
  the properties the specification states about them.

  Python values are rendered as follows.
  - [str] is [string]; one [ascii] stands for one code point below 256.
  - [int] is [Z].
  - [pathlib.Path] is the tuple [Path.parts], a [list string].
  - [set[str]] is [gset string]; [dict[Path, str]] is [gmap Path string].
  - Code that calls the external tool, raises, or mutates a local object
    runs in the monad [Py S]: local state [S], a result or a raised
    exception, and the trace of the subprocess and worker-pool calls made. *)

From Stdlib Require Import ZArith Ascii String List Bool Lia.
From stdpp Require Import base tactics option list sorting gmap strings.

Open Scope string_scope.
Open Scope Z_scope.
Open Scope list_scope.

(** ** Text primitives of the Python runtime *)

Module Str.

Definition code (c : ascii) : nat := nat_of_ascii c.

(** [str.isspace] on one character. *)
Definition isspace (c : ascii) : bool :=
  let n := code c in
  ((9 <=? n) && (n <=? 13) || (28 <=? n) && (n <=? 32)
   || (n =? 133) || (n =? 160))%nat.

(** The line boundaries [str.splitlines] recognises below code point 256. *)
Definition islinebreak (c : ascii) : bool :=
  let n := code c in
  ((10 <=? n) && (n <=? 13) || (28 <=? n) && (n <=? 30) || (n =? 133))%nat.

Definition isdigit (c : ascii) : bool :=
  let n := code c in ((48 <=? n) && (n <=? 57))%nat.

Definition CR : ascii := "013"%char.
Definition LF : ascii := "010"%char.

Fixpoint lstrip (s : string) : string :=
  match s with
  | EmptyString => EmptyString
  | String c s' => if isspace c then lstrip s' else s
  end.

Fixpoint rstrip (s : string) : string :=
  match s with
  | EmptyString => EmptyString
  | String c s' =>
      match rstrip s' with
      | EmptyString => if isspace c then EmptyString else String c EmptyString
      | r => String c r
      end
  end.

(** [s.strip()] *)
Definition strip (s : string) : string := lstrip (rstrip s).

(** [s.splitlines()]: a carriage return followed by a line feed is one
    boundary; no empty last line is produced for a final boundary. *)
Fixpoint splitlines (s : string) : list string :=
  match s with
  | EmptyString => []
  | String c s' =>
      if islinebreak c then
        EmptyString ::
          match s' with
          | String c' s'' =>
              if Ascii.eqb c CR && Ascii.eqb c' LF then splitlines s''
              else splitlines s'
          | EmptyString => []
          end
      else
        match splitlines s' with
        | [] => [String c EmptyString]
        | l :: ls => String c l :: ls
        end
  end.

(** [s.split()]: the maximal runs of non-whitespace characters. *)
Fixpoint split (s : string) : list string :=
  match s with
  | EmptyString => []
  | String c s' =>
      if isspace c then split s'
      else
        match s' with
        | EmptyString => [String c EmptyString]
        | String c' _ =>
            if isspace c' then String c EmptyString :: split s'
            else
              match split s' with
              | [] => [String c EmptyString]
              | w :: ws => String c w :: ws
              end
        end
  end.

(** [s.startswith(p)] *)
Definition startswith (s p : string) : bool := String.prefix p s.

(** [s[n:]] *)
Fixpoint slice_from (n : nat) (s : string) : string :=
  match n, s with
  | O, _ => s
  | S n', String _ s' => slice_from n' s'
  | S _, EmptyString => EmptyString
  end.

(** [s[i:j]] for [0 <= i <= j] *)
Definition slice (i j : nat) (s : string) : string :=
  String.substring i (j - i) s.

(** [s[i]]; [None] stands for [IndexError]. *)
Definition index (s : string) (i : nat) : option ascii := String.get i s.

(** [bool(s)] *)
Definition truthy (s : string) : bool :=
  match s with EmptyString => false | _ => true end.

(** [a or b] on strings *)
Definition or_else (a b : string) : string := if truthy a then a else b.

(** The digits of a decimal literal, with single underscores allowed
    between digits; [seen] tells whether the previous character was a
    digit. *)
Fixpoint digits (acc : Z) (seen : bool) (s : string) : option Z :=
  match s with
  | EmptyString => if seen then Some acc else None
  | String c s' =>
      if isdigit c then digits (10 * acc + Z.of_nat (code c - 48)) true s'
      else if Ascii.eqb c "_" && seen then digits acc false s'
      else None
  end.

Fixpoint count_digits (s : string) : nat :=
  match s with
  | EmptyString => O
  | String c s' => ((if isdigit c then 1 else 0) + count_digits s')%nat
  end.

(** CPython refuses decimal literals of more than this many digits. *)
Definition max_str_digits : nat := 4300.

(** [int(s)] in base ten; [None] stands for [ValueError]. *)
Definition int (s : string) : option Z :=
  let t := strip s in
  if (max_str_digits <? count_digits t)%nat then None
  else
    match t with
    | String "+" r => digits 0 false r
    | String "-" r => Z.opp <$> digits 0 false r
    | _ => digits 0 false t
    end.

(** [sep.join(parts)] *)
Definition join (sep : string) (parts : list string) : string :=
  String.concat sep parts.

Definition TAB : ascii := "009"%char.

(** [sub in s] *)
Fixpoint contains (sub s : string) : bool :=
  String.prefix sub s
  || match s with
     | EmptyString => false
     | String _ s' => contains sub s'
     end.

(** [s.endswith(suffix)] *)
Definition endswith (s suffix : string) : bool :=
  (String.length suffix <=? String.length s)%nat
  && String.eqb
       (String.substring (String.length s - String.length suffix)
          (String.length suffix) s)
       suffix.

(** [s.split(sep)] for a separator of one character: every occurrence
    cuts, and the empty string yields one empty field. *)
Fixpoint split_on (sep : ascii) (s : string) : list string :=
  match s with
  | EmptyString => [EmptyString]
  | String c s' =>
      if Ascii.eqb c sep then EmptyString :: split_on sep s'
      else
        match split_on sep s' with
        | [] => [String c EmptyString]
        | w :: ws => String c w :: ws
        end
  end.

(** [s.split(sep, 1)] for a separator of one character: only its first
    occurrence cuts. *)
Fixpoint split_once (sep : ascii) (s : string) : list string :=
  match s with
  | EmptyString => [EmptyString]
  | String c s' =>
      if Ascii.eqb c sep then [EmptyString; s']
      else
        match split_once sep s' with
        | [] => [String c EmptyString]
        | w :: ws => String c w :: ws
        end
  end.

(** [s.replace(old, new, 1)]: the leftmost occurrence only. *)
Fixpoint replace_first (old new s : string) : string :=
  if String.prefix old s then new +:+ slice_from (String.length old) s
  else
    match s with
    | EmptyString => EmptyString
    | String c s' => String c (replace_first old new s')
    end.

End Str.

(** Other built-ins. *)
Module Builtins.

(** [sum(xs)] *)
Definition sum (xs : list Z) : Z := fold_left Z.add xs 0.

(** [len(xs)] *)
Definition len {A} (xs : list A) : Z := Z.of_nat (length xs).

End Builtins.

(** ** Paths *)

(** A path is its [parts] tuple: ["/usr/lib"] is [["/"; "usr"; "lib"]]. *)
Definition Path : Type := list string.

Module PurePath.

(** [PurePosixPath.anchor] parts: the root, single or doubled. *)
Definition is_anchor (s : string) : bool :=
  String.eqb s "/" || String.eqb s "//".

(** [p.name]: the final component, empty for a bare anchor. *)
Definition name (p : Path) : string :=
  match List.rev p with
  | [] => ""
  | s :: _ => if is_anchor s && (Nat.eqb (length p) 1) then "" else s
  end.

(** Paths order as their part tuples do: lexicographically, each part by
    code points. *)
Definition compare (p q : Path) : comparison :=
  list_compare String.compare p q.

Definition leb (p q : Path) : bool :=
  match compare p q with Gt => false | _ => true end.

Definition le (p q : Path) : Prop := leb p q = true.

End PurePath.

(** [list.sort(key=...)]: ascending in the key and stable. Insertion from
  the right end keeps equal keys in their input order. *)
Section Sort.
Context {A : Type} (key : A -> Path).

Fixpoint sort_insert (x : A) (l : list A) : list A :=
  match l with
  | [] => [x]
  | y :: l' =>
      if PurePath.leb (key x) (key y) then x :: l
      else y :: sort_insert x l'
  end.

Fixpoint list_sort (l : list A) : list A :=
  match l with
  | [] => []
  | x :: l' => sort_insert x (list_sort l')
  end.

(** Ascending in the key. *)
Definition key_le (a b : A) : Prop := PurePath.le (key a) (key b).
End Sort.

(** ** Domain models *)

Module SyncStatus.
Inductive t : Set :=
| CLEAN | AHEAD | BEHIND | DIVERGED | NO_UPSTREAM | DETACHED | NO_REMOTE
| ERROR.

Definition eqb (a b : t) : bool :=
  match a, b with
  | CLEAN, CLEAN | AHEAD, AHEAD | BEHIND, BEHIND | DIVERGED, DIVERGED
  | NO_UPSTREAM, NO_UPSTREAM | DETACHED, DETACHED | NO_REMOTE, NO_REMOTE
  | ERROR, ERROR => true
  | _, _ => false
  end.
End SyncStatus.

Module WorkingTreeStatus.
Inductive t : Set := CLEAN | DIRTY.

Definition eqb (a b : t) : bool :=
  match a, b with
  | CLEAN, CLEAN | DIRTY, DIRTY => true
  | _, _ => false
  end.
End WorkingTreeStatus.

Module PullMode.
Inductive t : Set := SMART | SAFE | FORCE.
End PullMode.

(** The parsed commit instant is kept as the text git printed. *)
Definition datetime : Type := string.

Module RepositoryStatus.
Record t : Type := mk {
  path : Path;
  name : string;
  branch : string;
  remote_branch : string;
  sync_status : SyncStatus.t;
  ahead_count : Z;
  behind_count : Z;
  staged_count : Z;
  unstaged_count : Z;
  untracked_count : Z;
  last_commit_date : option datetime;
  error_message : string;
}.

(** [RepositoryStatus(path=..., name=...)] with the dataclass defaults. *)
Definition new (p : Path) (n : string) : t :=
  mk p n "" "" SyncStatus.CLEAN 0 0 0 0 0 None "".

Definition working_tree_status (self : t) : WorkingTreeStatus.t :=
  if (0 <? staged_count self) || (0 <? unstaged_count self)
     || (0 <? untracked_count self)
  then WorkingTreeStatus.DIRTY
  else WorkingTreeStatus.CLEAN.

Definition needs_push (self : t) : bool :=
  SyncStatus.eqb (sync_status self) SyncStatus.AHEAD
  || SyncStatus.eqb (sync_status self) SyncStatus.DIVERGED.

Definition needs_pull (self : t) : bool :=
  SyncStatus.eqb (sync_status self) SyncStatus.BEHIND
  || SyncStatus.eqb (sync_status self) SyncStatus.DIVERGED.

Definition is_diverged (self : t) : bool :=
  SyncStatus.eqb (sync_status self) SyncStatus.DIVERGED.

Definition has_conflict_risk (self : t) : bool :=
  if is_diverged self then true
  else if needs_pull self
          && WorkingTreeStatus.eqb (working_tree_status self)
               WorkingTreeStatus.DIRTY
  then true
  else false.

(** Field assignments, [status.f = v]. *)
Definition set_sync_status (v : SyncStatus.t) (s : t) : t :=
  mk (path s) (name s) (branch s) (remote_branch s) v (ahead_count s)
     (behind_count s) (staged_count s) (unstaged_count s)
     (untracked_count s) (last_commit_date s) (error_message s).

Definition set_error_message (v : string) (s : t) : t :=
  mk (path s) (name s) (branch s) (remote_branch s) (sync_status s)
     (ahead_count s) (behind_count s) (staged_count s) (unstaged_count s)
     (untracked_count s) (last_commit_date s) v.

Definition set_last_commit_date (v : option datetime) (s : t) : t :=
  mk (path s) (name s) (branch s) (remote_branch s) (sync_status s)
     (ahead_count s) (behind_count s) (staged_count s) (unstaged_count s)
     (untracked_count s) v (error_message s).
End RepositoryStatus.

Module OperationResult.
Record t : Type := mk {
  path : Path;
  name : string;
  success : bool;
  operation : string;
  message : string;
  error : string;
}.
End OperationResult.

Module FleetSummary.
Record t : Type := mk {
  total : Z;
  clean : Z;
  need_push : Z;
  need_pull : Z;
  diverged : Z;
  dirty : Z;
  conflict_risk : Z;
  errors : Z;
}.

(** [FleetSummary(total=n)] with the dataclass defaults. *)
Definition new (n : Z) : t := mk n 0 0 0 0 0 0 0.

(** The increments [summary.f += 1]. *)
Definition incr_clean (s : t) : t :=
  mk (total s) (clean s + 1) (need_push s) (need_pull s) (diverged s)
     (dirty s) (conflict_risk s) (errors s).
Definition incr_need_push (s : t) : t :=
  mk (total s) (clean s) (need_push s + 1) (need_pull s) (diverged s)
     (dirty s) (conflict_risk s) (errors s).
Definition incr_need_pull (s : t) : t :=
  mk (total s) (clean s) (need_push s) (need_pull s + 1) (diverged s)
     (dirty s) (conflict_risk s) (errors s).
Definition incr_diverged (s : t) : t :=
  mk (total s) (clean s) (need_push s) (need_pull s) (diverged s + 1)
     (dirty s) (conflict_risk s) (errors s).
Definition incr_dirty (s : t) : t :=
  mk (total s) (clean s) (need_push s) (need_pull s) (diverged s)
     (dirty s + 1) (conflict_risk s) (errors s).
Definition incr_conflict_risk (s : t) : t :=
  mk (total s) (clean s) (need_push s) (need_pull s) (diverged s)
     (dirty s) (conflict_risk s + 1) (errors s).
Definition incr_errors (s : t) : t :=
  mk (total s) (clean s) (need_push s) (need_pull s) (diverged s)
     (dirty s) (conflict_risk s) (errors s + 1).
End FleetSummary.

Module SyncOperationSummary.
Record t : Type := mk {
  fetched : Z;
  fetched_failed : Z;
  pulled : Z;
  pulled_failed : Z;
  pushed : Z;
  pushed_failed : Z;
}.

Definition from_results
  (fetch_results pull_results push_results : list OperationResult.t) : t :=
  mk (Builtins.sum (map (fun _ => 1)
        (List.filter (fun r => OperationResult.success r) fetch_results)))
     (Builtins.sum (map (fun _ => 1)
        (List.filter (fun r => negb (OperationResult.success r)) fetch_results)))
     (Builtins.sum (map (fun _ => 1)
        (List.filter (fun r => OperationResult.success r) pull_results)))
     (Builtins.sum (map (fun _ => 1)
        (List.filter (fun r => negb (OperationResult.success r)) pull_results)))
     (Builtins.sum (map (fun _ => 1)
        (List.filter (fun r => OperationResult.success r) push_results)))
     (Builtins.sum (map (fun _ => 1)
        (List.filter (fun r => negb (OperationResult.success r)) push_results))).

(** [[r for _, results in per_root for r in results]] *)
Definition flatten {K A} (per_root : list (K * list A)) : list A :=
  flat_map (fun kr => kr.2) per_root.

Definition from_multi_root_results
  (fetch_results pull_results push_results
     : list (Path * list OperationResult.t)) : t :=
  let flat_fetch := flatten fetch_results in
  let flat_pull := flatten pull_results in
  let flat_push := flatten push_results in
  from_results flat_fetch flat_pull flat_push.
End SyncOperationSummary.

Module RepositoryIdentity.
Record t : Type := mk {
  path : Path;
  name : string;
  user_name : string;
  user_email : string;
  is_local_override : bool;
  source : string;
  source_file : string;
}.
End RepositoryIdentity.

Module RemoteInfo.
Record t : Type := mk {
  name : string;
  fetch_url : string;
  push_url : string;
  protocol : string;
}.
End RemoteInfo.

Module RepositoryRemotes.
Record t : Type := mk {
  path : Path;
  name : string;
  remotes : list RemoteInfo.t;
}.
End RepositoryRemotes.

Module RepositoryDiff.
Record t : Type := mk {
  path : Path;
  name : string;
  branch : string;
  staged_files : list (string * string);
  unstaged_files : list (string * string);
  untracked_files : list string;
}.

(** [bool(xs)] on a list *)
Definition nonempty {A} (xs : list A) : bool :=
  match xs with [] => false | _ => true end.

Definition is_dirty (self : t) : bool :=
  nonempty (staged_files self) || nonempty (unstaged_files self)
  || nonempty (untracked_files self).
End RepositoryDiff.

Module CompletedProcess.
Record t : Type := mk {
  returncode : Z;
  stdout : string;
  stderr : string;
}.
End CompletedProcess.

(** ** Effects *)

(** What a run leaves behind outside the program: the subprocesses started
    (working directory and the arguments after [git]) and the worker pools
    created. *)
Inductive Event : Type :=
| Run (cwd : Path) (args : list string)
| Pool (max_workers : Z).

(** A computation returns a value or raises; an exception is its text,
    [str(e)]. *)
Inductive Exc (A : Type) : Type :=
| Return (a : A)
| Raise (e : string).
Arguments Return {A} a.
Arguments Raise {A} e.

(** [Py S A]: a computation over mutable locals [S]. The locals survive an
    exception as they were when it was raised. *)
Definition Py (S A : Type) : Type := S -> Exc A * S * list Event.

Definition ret {S A} (a : A) : Py S A := fun s => (Return a, s, []).

Definition raise {S A} (e : string) : Py S A := fun s => (Raise e, s, []).

Definition bind {S A B} (m : Py S A) (k : A -> Py S B) : Py S B :=
  fun s =>
    match m s with
    | (Return a, s1, t1) =>
        match k a s1 with (r, s2, t2) => (r, s2, t1 ++ t2) end
    | (Raise e, s1, t1) => (Raise e, s1, t1)
    end.

(** [try: m  except Exception as e: handler e] *)
Definition try_ {S A} (m : Py S A) (handler : string -> Py S A) : Py S A :=
  fun s =>
    match m s with
    | (Return a, s1, t1) => (Return a, s1, t1)
    | (Raise e, s1, t1) =>
        match handler e s1 with (r, s2, t2) => (r, s2, t1 ++ t2) end
    end.

Definition get {S} : Py S S := fun s => (Return s, s, []).

Definition modify {S} (f : S -> S) : Py S unit := fun s => (Return tt, f s, []).

Definition emit {S} (ev : Event) : Py S unit := fun s => (Return tt, s, [ev]).

(** A call: the callee runs on locals of its own, which are dropped when it
    returns or raises. *)
Definition call {S S' A} (locals : S') (m : Py S' A) : Py S A :=
  fun s => match m locals with (r, _, t) => (r, s, t) end.

Declare Scope py_scope.
Delimit Scope py_scope with py.
Notation "x <- m ;; k" := (bind m (fun x => k))
  (at level 100, m at next level, right associativity) : py_scope.
Notation "m ;; k" := (bind m (fun _ => k))
  (at level 100, right associativity) : py_scope.
Open Scope py_scope.

(** [for x in xs: body x] *)
Fixpoint for_ {S A} (xs : list A) (body : A -> Py S unit) : Py S unit :=
  match xs with
  | [] => ret tt
  | x :: xs' => body x ;; for_ xs' body
  end.

(** [[f(x) for x in xs]] with an effectful [f]. *)
Fixpoint map_ {S A B} (f : A -> Py S B) (xs : list A) : Py S (list B) :=
  match xs with
  | [] => ret []
  | x :: xs' => y <- f x ;; ys <- map_ f xs' ;; ret (y :: ys)
  end.

(** [[x for x in xs if p(x)]] with an effectful [p]. *)
Fixpoint filter_ {S A} (p : A -> Py S bool) (xs : list A) : Py S (list A) :=
  match xs with
  | [] => ret []
  | x :: xs' =>
      b <- p x ;; ys <- filter_ p xs' ;; ret (if b then x :: ys else ys)
  end.

Definition value {S A} (r : Exc A * S * list Event) : Exc A := r.1.1.
Definition locals {S A} (r : Exc A * S * list Event) : S := r.1.2.
Definition trace {S A} (r : Exc A * S * list Event) : list Event := r.2.

(** ** The world outside *)

Record World : Type := {
  (** [subprocess.run(["git", *args], cwd=cwd, capture_output=True,
      text=True, check=False)]: the completed process, or the exception
      raised when the tool cannot be started. *)
  git : Path -> list string -> Exc CompletedProcess.t;
  (** For a root, the parent of every directory named [.git] below it, in
      the order [Path.rglob] yields them. *)
  rglob : Path -> list Path;
  (** [datetime.fromisoformat]; [None] stands for [ValueError]. *)
  fromisoformat : string -> option datetime;
}.

(** ** Worker pools *)

(** The order in which submitted tasks complete. A pool of [width] workers
    runs the first [width] unfinished tasks in submission order; entry [k]
    of the schedule picks which of them finishes next. Once the schedule is
    used up the rest finish in submission order. *)
Definition Schedule : Type := list nat.

Fixpoint as_completed {A} (width : nat) (sched : Schedule) (pending : list A)
  : list A :=
  match sched with
  | [] => pending
  | k :: sched' =>
      let running := Nat.min width (length pending) in
      match pending !! (k mod running)%nat with
      | Some x => x :: as_completed width sched' (delete (k mod running)%nat pending)
      | None => pending
      end
  end.

(** The results of the completed futures up to the first that raised. *)
Fixpoint results_ {X R} (done : list (X * (Exc R * unit * list Event)))
  : Exc (list (X * R)) :=
  match done with
  | [] => Return []
  | (x, (Return r, _, _)) :: done' =>
      match results_ done' with
      | Return rs => Return ((x, r) :: rs)
      | Raise e => Raise e
      end
  | (_, (Raise e, _, _)) :: _ => Raise e
  end.

(** [with ThreadPoolExecutor(max_workers) as executor:] submit [task x] for
    every [x], then take [future.result()] in completion order. Leaving the
    [with] block waits for every submitted task, so each task's subprocess
    calls are in the trace whether or not an earlier result raised. *)
Definition ThreadPoolExecutor {S X R} (max_workers : Z) (sched : Schedule)
  (task : X -> Py unit R) (xs : list X) : Py S (list (X * R)) :=
  if max_workers <=? 0 then raise "max_workers must be greater than 0"
  else
    fun s =>
      let futures := map (fun x => (x, task x tt)) xs in
      let done := as_completed (Z.to_nat max_workers) sched futures in
      (results_ done, s, Pool max_workers :: concat (map (fun f => trace f.2) done)).

(** ** Git operations (low level) *)

(** The [info] dictionary of [get_status_porcelain]: its keys are fixed. *)
Module Info.
Record t : Type := mk {
  branch : string;
  remote_branch : string;
  ahead : Z;
  behind : Z;
  staged_count : Z;
  unstaged_count : Z;
  untracked_count : Z;
}.

Definition initial : t := mk "" "" 0 0 0 0 0.

Definition set_branch (v : string) (i : t) : t :=
  mk v (remote_branch i) (ahead i) (behind i) (staged_count i)
     (unstaged_count i) (untracked_count i).
Definition set_remote_branch (v : string) (i : t) : t :=
  mk (branch i) v (ahead i) (behind i) (staged_count i) (unstaged_count i)
     (untracked_count i).
Definition set_ahead (v : Z) (i : t) : t :=
  mk (branch i) (remote_branch i) v (behind i) (staged_count i)
     (unstaged_count i) (untracked_count i).
Definition set_behind (v : Z) (i : t) : t :=
  mk (branch i) (remote_branch i) (ahead i) v (staged_count i)
     (unstaged_count i) (untracked_count i).
Definition incr_staged_count (i : t) : t :=
  mk (branch i) (remote_branch i) (ahead i) (behind i) (staged_count i + 1)
     (unstaged_count i) (untracked_count i).
Definition incr_unstaged_count (i : t) : t :=
  mk (branch i) (remote_branch i) (ahead i) (behind i) (staged_count i)
     (unstaged_count i + 1) (untracked_count i).
Definition incr_untracked_count (i : t) : t :=
  mk (branch i) (remote_branch i) (ahead i) (behind i) (staged_count i)
     (unstaged_count i) (untracked_count i + 1).
End Info.

Module GitOperations.

(** A static method: the protocol is read off the URL's text alone. *)
Definition _detect_protocol (url : string) : string :=
  if negb (Str.truthy url) then "unknown"
  else if Str.startswith url "https://" then "https"
  else if Str.startswith url "http://" then "http"
  else if Str.startswith url "git://" then "git"
  else if Str.startswith url "file://" || Str.startswith url "/" then "file"
  else if Str.startswith url "ssh://" || Str.contains "@" url then "ssh"
  else "unknown".

(** The source type [get_config_source] gives a configuration file. *)
Definition source_type_of (source_file : string) : string :=
  if Str.endswith source_file ".git/config" then "local"
  else if Str.endswith source_file "/etc/gitconfig" then "system"
  else if Str.endswith source_file "/.gitconfig"
          || Str.endswith source_file "/.config/git/config"
  then "global"
  else "included".

(** The loop of [get_staged_files] and [get_unstaged_files] over the lines
    of a name-status listing; [files] is the list built so far. *)
Definition name_status_entry (files : list (string * string)) (line : string)
  : list (string * string) :=
  let parts := Str.split_once Str.TAB line in
  if (length parts =? 2)%nat
  then files ++ [(nth 0 parts "", nth 1 parts "")]
  else files.

Section Methods.
Context (world : World) (repo_path : Path).

(** Every call in this file passes [check=False]. *)
Definition _run {S} (args : list string) : Py S CompletedProcess.t :=
  fun s => (git world repo_path args, s, [Run repo_path args]).

Definition fetch_all {S} : Py S (bool * string) :=
  try_
    (result <- _run ["fetch"; "--all"; "--prune"] ;;
     if negb (CompletedProcess.returncode result =? 0)
     then ret (false, Str.strip (CompletedProcess.stderr result))
     else ret (true, ""))
    (fun e => ret (false, e)).

(** [int(s)] as a computation. *)
Definition int_ {S} (s : string) : Py S Z :=
  match Str.int s with
  | Some z => ret z
  | None => raise ("invalid literal for int() with base 10: " +:+ s)
  end.

(** [s[i]] as a computation. *)
Definition getitem {S} (s : string) (i : nat) : Py S ascii :=
  match Str.index s i with
  | Some c => ret c
  | None => raise "string index out of range"
  end.

(** The body of the loop over the lines of the status stream. *)
Definition parse_line (line : string) : Py Info.t unit :=
  if Str.startswith line "# branch.head " then
    modify (Info.set_branch (Str.slice_from (String.length "# branch.head ") line))
  else if Str.startswith line "# branch.upstream " then
    modify (Info.set_remote_branch
              (Str.slice_from (String.length "# branch.upstream ") line))
  else if Str.startswith line "# branch.ab " then
    let parts := Str.split line in
    if (length parts =? 3)%nat then
      a <- int_ (nth 1 parts "") ;;
      modify (Info.set_ahead (Z.abs a)) ;;
      b <- int_ (nth 2 parts "") ;;
      modify (Info.set_behind (Z.abs b))
    else ret tt
  else if Str.startswith line "1 " || Str.startswith line "2 " then
    let xy := Str.slice 2 4 line in
    x <- getitem xy 0 ;;
    (if negb (Ascii.eqb x ".") then modify Info.incr_staged_count else ret tt) ;;
    y <- getitem xy 1 ;;
    (if negb (Ascii.eqb y ".") then modify Info.incr_unstaged_count else ret tt)
  else if Str.startswith line "u " then
    modify Info.incr_staged_count ;;
    modify Info.incr_unstaged_count
  else if Str.startswith line "? " then
    modify Info.incr_untracked_count
  else ret tt.

Definition get_status_porcelain {S} : Py S Info.t :=
  call Info.initial
    (try_
       (result <- _run ["status"; "--porcelain=v2"; "--branch"] ;;
        if negb (CompletedProcess.returncode result =? 0) then ret tt
        else for_ (Str.splitlines (CompletedProcess.stdout result)) parse_line)
       (fun _ => ret tt) ;;
     get).

Definition get_last_commit_date {S} : Py S (option datetime) :=
  try_
    (result <- _run ["log"; "-1"; "--format=%cI"] ;;
     if (CompletedProcess.returncode result =? 0)
        && Str.truthy (Str.strip (CompletedProcess.stdout result))
     then
       match fromisoformat world (Str.strip (CompletedProcess.stdout result)) with
       | Some d => ret (Some d)
       | None => raise "Invalid isoformat string"
       end
     else ret None)
    (fun _ => ret None).

Definition get_merge_base {S} : Py S (option string) :=
  try_
    (result <- _run ["merge-base"; "HEAD"; "@{u}"] ;;
     if CompletedProcess.returncode result =? 0
     then ret (Some (Str.strip (CompletedProcess.stdout result)))
     else ret None)
    (fun _ => ret None).

Definition get_changed_files_between {S} (ref1 ref2 : string)
  : Py S (gset string) :=
  try_
    (result <- _run ["diff"; "--name-only"; ref1; ref2] ;;
     if (CompletedProcess.returncode result =? 0)
        && Str.truthy (Str.strip (CompletedProcess.stdout result))
     then ret (list_to_set
                 (Str.splitlines (Str.strip (CompletedProcess.stdout result))))
     else ret ∅)
    (fun _ => ret ∅).

(** [files.update(result.stdout.strip().splitlines())] when the command
    succeeded with output. *)
Definition update_from (result : CompletedProcess.t) : Py (gset string) unit :=
  if (CompletedProcess.returncode result =? 0)
     && Str.truthy (Str.strip (CompletedProcess.stdout result))
  then modify (fun files : gset string =>
                 files ∪ list_to_set
                   (Str.splitlines (Str.strip (CompletedProcess.stdout result))))
  else ret tt.

Definition get_dirty_files {S} : Py S (gset string) :=
  call (∅ : gset string)
    (try_
       (result <- _run ["diff"; "--name-only"; "HEAD"] ;;
        update_from result ;;
        result <- _run ["ls-files"; "--others"; "--exclude-standard"] ;;
        update_from result)
       (fun _ => ret tt) ;;
     get).

Definition has_file_conflicts {S} : Py S bool :=
  merge_base <- get_merge_base ;;
  match merge_base with
  | None => ret true
  | Some merge_base =>
      remote_files <- get_changed_files_between merge_base "@{u}" ;;
      local_files <- get_changed_files_between merge_base "HEAD" ;;
      dirty <- get_dirty_files ;;
      let local_files := local_files ∪ dirty in
      ret (negb (bool_decide (local_files ∩ remote_files = ∅)))
  end.

Definition pull {S} : Py S (bool * string) :=
  try_
    (result <- _run ["pull"] ;;
     if negb (CompletedProcess.returncode result =? 0)
     then ret (false, Str.or_else (Str.strip (CompletedProcess.stderr result))
                                  (Str.strip (CompletedProcess.stdout result)))
     else ret (true, Str.strip (CompletedProcess.stdout result)))
    (fun e => ret (false, e)).

Definition push {S} : Py S (bool * string) :=
  try_
    (result <- _run ["push"] ;;
     if negb (CompletedProcess.returncode result =? 0)
     then ret (false, Str.or_else (Str.strip (CompletedProcess.stderr result))
                                  (Str.strip (CompletedProcess.stdout result)))
     else ret (true, Str.or_else (Str.strip (CompletedProcess.stderr result))
                                 (Str.strip (CompletedProcess.stdout result))))
    (fun e => ret (false, e)).

Definition has_remotes {S} : Py S bool :=
  try_
    (result <- _run ["remote"] ;;
     ret ((CompletedProcess.returncode result =? 0)
          && Str.truthy (Str.strip (CompletedProcess.stdout result))))
    (fun _ => ret false).

Definition is_detached {S} : Py S bool :=
  try_
    (result <- _run ["symbolic-ref"; "HEAD"] ;;
     ret (negb (CompletedProcess.returncode result =? 0)))
    (fun _ => ret true).

Definition get_current_branch {S} : Py S string :=
  try_
    (result <- _run ["rev-parse"; "--abbrev-ref"; "HEAD"] ;;
     if CompletedProcess.returncode result =? 0
     then ret (Str.strip (CompletedProcess.stdout result))
     else ret "")
    (fun _ => ret "").

Definition get_remote_branch {S} : Py S string :=
  try_
    (result <- _run ["rev-parse"; "--abbrev-ref"; "--symbolic-full-name";
                     "@{u}"] ;;
     if CompletedProcess.returncode result =? 0
     then ret (Str.strip (CompletedProcess.stdout result))
     else ret "")
    (fun _ => ret "").

(** The pair is [(ahead, behind)]; the tool prints the upstream side
    first. *)
Definition get_ahead_behind {S} : Py S (Z * Z) :=
  try_
    (result <- _run ["rev-list"; "--left-right"; "--count"; "@{u}...HEAD"] ;;
     if CompletedProcess.returncode result =? 0 then
       let parts := Str.split (Str.strip (CompletedProcess.stdout result)) in
       if (length parts =? 2)%nat then
         ahead <- int_ (nth 1 parts "") ;;
         behind <- int_ (nth 0 parts "") ;;
         ret (ahead, behind)
       else ret (0, 0)
     else ret (0, 0))
    (fun _ => ret (0, 0)).

(** [len([line for line in out.strip().split("\n") if line])] *)
Definition count_lines_of (out : string) : Z :=
  Builtins.len
    (List.filter Str.truthy (Str.split_on Str.LF (Str.strip out))).

Definition get_staged_count {S} : Py S Z :=
  try_
    (result <- _run ["diff"; "--cached"; "--numstat"] ;;
     if CompletedProcess.returncode result =? 0
     then ret (count_lines_of (CompletedProcess.stdout result))
     else ret 0)
    (fun _ => ret 0).

Definition get_unstaged_count {S} : Py S Z :=
  try_
    (result <- _run ["diff"; "--numstat"] ;;
     if CompletedProcess.returncode result =? 0
     then ret (count_lines_of (CompletedProcess.stdout result))
     else ret 0)
    (fun _ => ret 0).

Definition get_untracked_count {S} : Py S Z :=
  try_
    (result <- _run ["ls-files"; "--others"; "--exclude-standard"] ;;
     if CompletedProcess.returncode result =? 0
     then ret (count_lines_of (CompletedProcess.stdout result))
     else ret 0)
    (fun _ => ret 0).

Definition get_staged_files {S} : Py S (list (string * string)) :=
  try_
    (result <- _run ["diff"; "--cached"; "--name-status"] ;;
     if (CompletedProcess.returncode result =? 0)
        && Str.truthy (Str.strip (CompletedProcess.stdout result))
     then ret (fold_left name_status_entry
                 (Str.splitlines (Str.strip (CompletedProcess.stdout result)))
                 [])
     else ret [])
    (fun _ => ret []).

Definition get_unstaged_files {S} : Py S (list (string * string)) :=
  try_
    (result <- _run ["diff"; "--name-status"] ;;
     if (CompletedProcess.returncode result =? 0)
        && Str.truthy (Str.strip (CompletedProcess.stdout result))
     then ret (fold_left name_status_entry
                 (Str.splitlines (Str.strip (CompletedProcess.stdout result)))
                 [])
     else ret [])
    (fun _ => ret []).

Definition get_untracked_files {S} : Py S (list string) :=
  try_
    (result <- _run ["ls-files"; "--others"; "--exclude-standard"] ;;
     if (CompletedProcess.returncode result =? 0)
        && Str.truthy (Str.strip (CompletedProcess.stdout result))
     then ret (Str.splitlines (Str.strip (CompletedProcess.stdout result)))
     else ret [])
    (fun _ => ret []).

Definition get_user_name {S} (local_only : bool) : Py S string :=
  try_
    (let args := ["config"] in
     let args := if local_only then args ++ ["--local"] else args in
     let args := args ++ ["user.name"] in
     result <- _run args ;;
     if CompletedProcess.returncode result =? 0
     then ret (Str.strip (CompletedProcess.stdout result))
     else ret "")
    (fun _ => ret "").

Definition get_user_email {S} (local_only : bool) : Py S string :=
  try_
    (let args := ["config"] in
     let args := if local_only then args ++ ["--local"] else args in
     let args := args ++ ["user.email"] in
     result <- _run args ;;
     if CompletedProcess.returncode result =? 0
     then ret (Str.strip (CompletedProcess.stdout result))
     else ret "")
    (fun _ => ret "").

(** The triple is [(value, source_type, source_file)]. *)
Definition get_config_source {S} (key : string)
  : Py S (string * string * string) :=
  try_
    (result <- _run ["config"; "--show-origin"; key] ;;
     if CompletedProcess.returncode result =? 0 then
       let output := Str.strip (CompletedProcess.stdout result) in
       if Str.contains (String Str.TAB "") output then
         match Str.split_once Str.TAB output with
         | [origin; value] =>
             let source_file := Str.replace_first "file:" "" origin in
             ret (value, source_type_of source_file, source_file)
         | _ => raise "not enough values to unpack (expected 2, got 1)"
         end
       else ret ("", "unknown", "")
     else ret ("", "unknown", ""))
    (fun _ => ret ("", "unknown", "")).

(** [[n.strip() for n in out.strip().split("\n") if n.strip()]] *)
Definition remote_names (out : string) : list string :=
  map Str.strip
    (List.filter (fun n => Str.truthy (Str.strip n))
       (Str.split_on Str.LF (Str.strip out))).

(** The body of the loop over the remote names; the locals are the list
    [remotes]. *)
Definition query_remote (name : string) : Py (list RemoteInfo.t) unit :=
  fetch_result <- _run ["remote"; "get-url"; name] ;;
  let fetch_url :=
    if CompletedProcess.returncode fetch_result =? 0
    then Str.strip (CompletedProcess.stdout fetch_result) else "" in
  push_result <- _run ["remote"; "get-url"; "--push"; name] ;;
  let push_url :=
    if CompletedProcess.returncode push_result =? 0
    then Str.strip (CompletedProcess.stdout push_result) else fetch_url in
  let protocol := _detect_protocol fetch_url in
  modify (fun remotes =>
            remotes ++ [RemoteInfo.mk name fetch_url push_url protocol]).

(** When the listing of the remotes fails the method returns while
    [remotes] is still empty. *)
Definition get_remotes {S} : Py S (list RemoteInfo.t) :=
  call ([] : list RemoteInfo.t)
    (try_
       (result <- _run ["remote"] ;;
        if negb (CompletedProcess.returncode result =? 0) then ret tt
        else for_ (remote_names (CompletedProcess.stdout result)) query_remote)
       (fun _ => ret tt) ;;
     get).

End Methods.
End GitOperations.

(** ** Repository manager *)

(** Results of per-repository operations carry the repository's path in an
    attribute [path]; the engine sorts on it. *)
Class HasPath (R : Type) : Type := path_of : R -> Path.

Module GitRepository.

(** [GitRepository(path)]: [name] and [ops] are derived from [path]. *)
Record t : Type := mk { path : Path }.

Definition name (self : t) : string := PurePath.name (path self).

Section Methods.
Context (world : World) (self : t).

Definition has_remotes {S} : Py S bool :=
  GitOperations.has_remotes world (path self).

Definition is_detached {S} : Py S bool :=
  GitOperations.is_detached world (path self).

(** The classifier: the statements of [get_status] from the copy of the
    probe record into the status to the assignment of [sync_status]. *)
Definition classify (info : Info.t) : Py RepositoryStatus.t unit :=
  modify (fun status =>
    RepositoryStatus.mk
      (RepositoryStatus.path status) (RepositoryStatus.name status)
      (Info.branch info) (Info.remote_branch info)
      (RepositoryStatus.sync_status status)
      (Info.ahead info) (Info.behind info)
      (Info.staged_count info) (Info.unstaged_count info)
      (Info.untracked_count info)
      (RepositoryStatus.last_commit_date status)
      (RepositoryStatus.error_message status)) ;;
  status <- get ;;
  (if Str.truthy (RepositoryStatus.remote_branch status) then
     if (0 <? RepositoryStatus.ahead_count status)
        && (0 <? RepositoryStatus.behind_count status)
     then modify (RepositoryStatus.set_sync_status SyncStatus.DIVERGED)
     else if 0 <? RepositoryStatus.ahead_count status
     then modify (RepositoryStatus.set_sync_status SyncStatus.AHEAD)
     else if 0 <? RepositoryStatus.behind_count status
     then modify (RepositoryStatus.set_sync_status SyncStatus.BEHIND)
     else modify (RepositoryStatus.set_sync_status SyncStatus.CLEAN)
   else if String.eqb (RepositoryStatus.branch status) "(detached)"
   then modify (RepositoryStatus.set_sync_status SyncStatus.DETACHED)
   else
     remotes <- GitOperations.has_remotes world (path self) ;;
     if remotes
     then modify (RepositoryStatus.set_sync_status SyncStatus.NO_UPSTREAM)
     else modify (RepositoryStatus.set_sync_status SyncStatus.NO_REMOTE)).

(** The statements of [get_status] after the optional fetch. *)
Definition probe_and_classify : Py RepositoryStatus.t unit :=
  info <- GitOperations.get_status_porcelain world (path self) ;;
  classify info ;;
  date <- GitOperations.get_last_commit_date world (path self) ;;
  modify (RepositoryStatus.set_last_commit_date date).

Definition get_status {S} (fetch_first : bool) : Py S RepositoryStatus.t :=
  call (RepositoryStatus.new (path self) (name self))
    (try_
       (if fetch_first then
          fetched <- GitOperations.fetch_all world (path self) ;;
          let '(success, error) := fetched in
          if negb success then
            modify (RepositoryStatus.set_sync_status SyncStatus.ERROR) ;;
            modify (RepositoryStatus.set_error_message ("Fetch failed: " +:+ error))
          else probe_and_classify
        else probe_and_classify)
       (fun e =>
          modify (RepositoryStatus.set_sync_status SyncStatus.ERROR) ;;
          modify (RepositoryStatus.set_error_message e)) ;;
     get).

Definition fetch {S} : Py S OperationResult.t :=
  r <- GitOperations.fetch_all world (path self) ;;
  let '(success, message) := r in
  ret (OperationResult.mk (path self) (name self) success "fetch"
         (if success then "Fetched successfully" else "")
         (if negb success then message else "")).

Definition has_file_conflicts {S} : Py S bool :=
  GitOperations.has_file_conflicts world (path self).

Definition pull {S} : Py S OperationResult.t :=
  r <- GitOperations.pull world (path self) ;;
  let '(success, message) := r in
  ret (OperationResult.mk (path self) (name self) success "pull"
         (if success then message else "")
         (if negb success then message else "")).

Definition push {S} : Py S OperationResult.t :=
  r <- GitOperations.push world (path self) ;;
  let '(success, message) := r in
  ret (OperationResult.mk (path self) (name self) success "push"
         (if success then message else "")
         (if negb success then message else "")).

Definition get_identity {S} : Py S RepositoryIdentity.t :=
  r <- GitOperations.get_config_source world (path self) "user.email" ;;
  let '(email, source_type, source_file) := r in
  r <- GitOperations.get_config_source world (path self) "user.name" ;;
  let '(user_name, _, _) := r in
  local_name <- GitOperations.get_user_name world (path self) true ;;
  local_email <- GitOperations.get_user_email world (path self) true ;;
  let has_local_override := Str.truthy (Str.or_else local_name local_email) in
  ret (RepositoryIdentity.mk (path self) (name self) user_name email
         has_local_override source_type source_file).

Definition get_remotes {S} : Py S RepositoryRemotes.t :=
  remotes <- GitOperations.get_remotes world (path self) ;;
  ret (RepositoryRemotes.mk (path self) (name self) remotes).

Definition get_diff {S} : Py S RepositoryDiff.t :=
  branch <- GitOperations.get_current_branch world (path self) ;;
  staged_files <- GitOperations.get_staged_files world (path self) ;;
  unstaged_files <- GitOperations.get_unstaged_files world (path self) ;;
  untracked_files <- GitOperations.get_untracked_files world (path self) ;;
  ret (RepositoryDiff.mk (path self) (name self) branch staged_files
         unstaged_files untracked_files).

End Methods.
End GitRepository.

#[global] Instance GitRepository_path : HasPath GitRepository.t :=
  GitRepository.path.
#[global] Instance RepositoryStatus_path : HasPath RepositoryStatus.t :=
  RepositoryStatus.path.
#[global] Instance OperationResult_path : HasPath OperationResult.t :=
  OperationResult.path.
#[global] Instance RepositoryIdentity_path : HasPath RepositoryIdentity.t :=
  RepositoryIdentity.path.
#[global] Instance RepositoryRemotes_path : HasPath RepositoryRemotes.t :=
  RepositoryRemotes.path.
#[global] Instance RepositoryDiff_path : HasPath RepositoryDiff.t :=
  RepositoryDiff.path.

(** ** Fleet manager *)

Module FleetManager.

(** The manager's attributes; [_repositories] is the discovery cache. *)
Record t : Type := mk {
  root_path : Path;
  max_workers : Z;
  include_no_remote : bool;
  include_detached : bool;
  _repositories : option (list GitRepository.t);
}.

Definition set__repositories (v : option (list GitRepository.t)) (self : t) : t :=
  mk (root_path self) (max_workers self) (include_no_remote self)
     (include_detached self) v.

(** The completion orders of the pools one call may create: the status
    scan, the file-level conflict checks and the operation itself. *)
Record Schedules : Type := {
  status_order : Schedule;
  check_order : Schedule;
  operation_order : Schedule;
}.

Section Methods.
Context (world : World).

Definition discover_repositories : Py t (list GitRepository.t) :=
  self <- get ;;
  match _repositories self with
  | Some repos => ret repos
  | None =>
      let repos := map GitRepository.mk (rglob world (root_path self)) in
      let repos := list_sort GitRepository.path repos in
      repos <- (if negb (include_no_remote self)
                then filter_ (fun r => GitRepository.has_remotes world r) repos
                else ret repos) ;;
      repos <- (if negb (include_detached self)
                then filter_ (fun r => b <- GitRepository.is_detached world r ;;
                                       ret (negb b)) repos
                else ret repos) ;;
      modify (set__repositories (Some repos)) ;;
      ret repos
  end.

Definition _execute_parallel {R} `{HasPath R} (sched : Schedule)
  (operation : GitRepository.t -> Py unit R)
  (repos : option (list GitRepository.t)) (sequential : bool)
  : Py t (list R) :=
  repos <- match repos with
           | None => discover_repositories
           | Some repos => ret repos
           end ;;
  results <-
    (if sequential || (length repos <=? 1)%nat then
       map_ (fun repo => call tt (operation repo)) repos
     else
       self <- get ;;
       done <- ThreadPoolExecutor (max_workers self) sched operation repos ;;
       ret (map snd done)) ;;
  ret (list_sort path_of results).

Definition get_all_status (sched : Schedule) (fetch_first sequential : bool)
  : Py t (list RepositoryStatus.t) :=
  _execute_parallel sched
    (fun repo => GitRepository.get_status world repo fetch_first)
    None sequential.

Definition fetch_all (sched : Schedule) (sequential : bool)
  : Py t (list OperationResult.t) :=
  _execute_parallel sched (fun repo => GitRepository.fetch world repo)
    None sequential.

(** The [SMART] branch of [pull_all]: the loop that partitions the
    repositories needing a pull, then the file-level checks. *)
Fixpoint partition_smart (pairs : list (GitRepository.t * RepositoryStatus.t))
  : list GitRepository.t * list GitRepository.t :=
  match pairs with
  | [] => ([], [])
  | (repo, status) :: pairs' =>
      let '(safe, needs_check) := partition_smart pairs' in
      if negb (RepositoryStatus.needs_pull status) then (safe, needs_check)
      else if negb (RepositoryStatus.has_conflict_risk status)
      then (repo :: safe, needs_check)
      else (safe, repo :: needs_check)
  end.

Definition select_smart (sched : Schedule) (sequential : bool)
  (pairs : list (GitRepository.t * RepositoryStatus.t))
  : Py t (list GitRepository.t) :=
  let '(safe, needs_check) := partition_smart pairs in
  match needs_check with
  | [] => ret safe
  | _ =>
      if sequential || (length needs_check <=? 1)%nat then
        checked <- filter_
                     (fun repo =>
                        c <- GitRepository.has_file_conflicts world repo ;;
                        ret (negb c))
                     needs_check ;;
        ret (safe ++ checked)
      else
        self <- get ;;
        done <- ThreadPoolExecutor (max_workers self) sched
                  (fun repo => GitRepository.has_file_conflicts world repo)
                  needs_check ;;
        ret (safe ++ map fst (List.filter (fun f => negb f.2) done))
  end.

(** The repositories [pull_all] selects when [only_behind] is set. *)
Definition repos_to_pull (sched : Schedule) (sequential : bool)
  (mode : PullMode.t) (repos : list GitRepository.t)
  (statuses : list RepositoryStatus.t) : Py t (list GitRepository.t) :=
  match mode with
  | PullMode.FORCE =>
      ret (map fst (List.filter (fun p => RepositoryStatus.needs_pull p.2)
                      (zip repos statuses)))
  | PullMode.SAFE =>
      ret (map fst (List.filter (fun p => RepositoryStatus.needs_pull p.2
                                     && negb (RepositoryStatus.has_conflict_risk p.2))
                      (zip repos statuses)))
  | PullMode.SMART => select_smart sched sequential (zip repos statuses)
  end.

Definition pull_all (scheds : Schedules) (only_behind sequential dry_run : bool)
  (mode : PullMode.t) (statuses : option (list RepositoryStatus.t))
  : Py t (list OperationResult.t) :=
  repos <- discover_repositories ;;
  repos_to_pull <-
    (if only_behind then
       statuses <- match statuses with
                   | None => get_all_status (status_order scheds) true sequential
                   | Some statuses => ret statuses
                   end ;;
       repos_to_pull (check_order scheds) sequential mode repos statuses
     else ret repos) ;;
  if dry_run then
    ret (map (fun repo =>
                OperationResult.mk (GitRepository.path repo)
                  (GitRepository.name repo) true "pull"
                  "Would pull (dry-run)" "")
           repos_to_pull)
  else
    _execute_parallel (operation_order scheds)
      (fun repo => GitRepository.pull world repo)
      (Some repos_to_pull) sequential.

(** The repositories [push_all] selects when [only_ahead] is set. *)
Definition repos_to_push (repos : list GitRepository.t)
  (statuses : list RepositoryStatus.t) : list GitRepository.t :=
  map fst (List.filter (fun p => RepositoryStatus.needs_push p.2)
             (zip repos statuses)).

Definition push_all (scheds : Schedules) (only_ahead sequential dry_run : bool)
  (statuses : option (list RepositoryStatus.t))
  : Py t (list OperationResult.t) :=
  repos <- discover_repositories ;;
  repos_to_push <-
    (if only_ahead then
       statuses <- match statuses with
                   | None => get_all_status (status_order scheds) true sequential
                   | Some statuses => ret statuses
                   end ;;
       ret (repos_to_push repos statuses)
     else ret repos) ;;
  if dry_run then
    ret (map (fun repo =>
                OperationResult.mk (GitRepository.path repo)
                  (GitRepository.name repo) true "push"
                  "Would push (dry-run)" "")
           repos_to_push)
  else
    _execute_parallel (operation_order scheds)
      (fun repo => GitRepository.push world repo)
      (Some repos_to_push) sequential.

Definition get_all_identities (sched : Schedule) (sequential : bool)
  : Py t (list RepositoryIdentity.t) :=
  _execute_parallel sched (fun repo => GitRepository.get_identity world repo)
    None sequential.

Definition get_all_remotes (sched : Schedule) (sequential : bool)
  : Py t (list RepositoryRemotes.t) :=
  _execute_parallel sched (fun repo => GitRepository.get_remotes world repo)
    None sequential.

Definition get_all_diff (sched : Schedule) (sequential dirty_only : bool)
  : Py t (list RepositoryDiff.t) :=
  results <- _execute_parallel sched
               (fun repo => GitRepository.get_diff world repo)
               None sequential ;;
  if dirty_only then ret (List.filter RepositoryDiff.is_dirty results)
  else ret results.

End Methods.

(** [FleetManager(root_path, max_workers, include_no_remote=...,
    include_detached=...)]; [resolve] is [Path.resolve] on the file system
    at hand. *)
Definition new (resolve : Path -> Path) (root_path : Path) (max_workers : Z)
  (include_no_remote include_detached : bool) : t :=
  mk (resolve root_path) max_workers include_no_remote include_detached None.

(** The body of the loop of [get_summary] over the statuses; the locals
    are the summary. *)
Definition tally (status : RepositoryStatus.t) : Py FleetSummary.t unit :=
  (if SyncStatus.eqb (RepositoryStatus.sync_status status) SyncStatus.ERROR
   then modify FleetSummary.incr_errors
   else if SyncStatus.eqb (RepositoryStatus.sync_status status) SyncStatus.CLEAN
           && WorkingTreeStatus.eqb (RepositoryStatus.working_tree_status status)
                WorkingTreeStatus.CLEAN
   then modify FleetSummary.incr_clean
   else ret tt) ;;
  (if RepositoryStatus.needs_push status
   then modify FleetSummary.incr_need_push else ret tt) ;;
  (if RepositoryStatus.needs_pull status
   then modify FleetSummary.incr_need_pull else ret tt) ;;
  (if RepositoryStatus.is_diverged status
   then modify FleetSummary.incr_diverged else ret tt) ;;
  (if WorkingTreeStatus.eqb (RepositoryStatus.working_tree_status status)
        WorkingTreeStatus.DIRTY
   then modify FleetSummary.incr_dirty else ret tt) ;;
  (if RepositoryStatus.has_conflict_risk status
   then modify FleetSummary.incr_conflict_risk else ret tt).

Definition get_summary (statuses : list RepositoryStatus.t) : FleetSummary.t :=
  locals (for_ statuses tally (FleetSummary.new (Builtins.len statuses))).

End FleetManager.

(** ** Several roots *)

Module MultiRootFleetManager.

(** [d[k] = v] and [d.get(k)] on an insertion-ordered dictionary keyed by
    paths: a key that is already present keeps its place. *)
Fixpoint dict_set {V} (k : Path) (v : V) (d : list (Path * V))
  : list (Path * V) :=
  match d with
  | [] => [(k, v)]
  | (k', v') :: d' =>
      if decide (k' = k) then (k', v) :: d' else (k', v') :: dict_set k v d'
  end.

Fixpoint dict_get {V} (k : Path) (d : list (Path * V)) : option V :=
  match d with
  | [] => None
  | (k', v') :: d' => if decide (k' = k) then Some v' else dict_get k d'
  end.

Record t : Type := mk {
  roots : list Path;
  max_workers : Z;
  _fleet_managers : list (Path * FleetManager.t);
}.

Definition set__fleet_managers (v : list (Path * FleetManager.t)) (self : t)
  : t :=
  mk (roots self) (max_workers self) v.

Definition new (resolve : Path -> Path) (roots : list Path) (max_workers : Z)
  (include_no_remote include_detached : bool) : t :=
  let roots := map resolve roots in
  mk roots max_workers
    (fold_left
       (fun d root =>
          dict_set root
            (FleetManager.new resolve root max_workers include_no_remote
               include_detached)
            d)
       roots []).

(** [for root, fleet in self._fleet_managers.items(): results.append((root,
    body(root, fleet)))]: every manager keeps what the call did to it. *)
Fixpoint each_fleet {A} (body : Path -> Py FleetManager.t A)
  (fleets : list (Path * FleetManager.t))
  : Exc (list (Path * A)) * list (Path * FleetManager.t) * list Event :=
  match fleets with
  | [] => (Return [], [], [])
  | (root, fleet) :: rest =>
      match body root fleet with
      | (Return a, fleet', t1) =>
          match each_fleet body rest with
          | (Return results, rest', t2) =>
              (Return ((root, a) :: results), (root, fleet') :: rest', t1 ++ t2)
          | (Raise e, rest', t2) =>
              (Raise e, (root, fleet') :: rest', t1 ++ t2)
          end
      | (Raise e, fleet', t1) => (Raise e, (root, fleet') :: rest, t1)
      end
  end.

Definition over_fleets {A} (body : Path -> Py FleetManager.t A)
  : Py t (list (Path * A)) :=
  fun self =>
    match each_fleet body (_fleet_managers self) with
    | (r, fleets, tr) => (r, set__fleet_managers fleets self, tr)
    end.

Section Methods.
Context (world : World).

Definition get_all_identities (sched : Path -> Schedule) (sequential : bool)
  : Py t (list (Path * list RepositoryIdentity.t)) :=
  over_fleets (fun root =>
    FleetManager.get_all_identities world (sched root) sequential).

Definition get_all_remotes (sched : Path -> Schedule) (sequential : bool)
  : Py t (list (Path * list RepositoryRemotes.t)) :=
  over_fleets (fun root =>
    FleetManager.get_all_remotes world (sched root) sequential).

Definition get_all_diff (sched : Path -> Schedule)
  (sequential dirty_only : bool)
  : Py t (list (Path * list RepositoryDiff.t)) :=
  over_fleets (fun root =>
    FleetManager.get_all_diff world (sched root) sequential dirty_only).

Definition get_all_status (sched : Path -> Schedule)
  (fetch_first sequential : bool)
  : Py t (list (Path * list RepositoryStatus.t)) :=
  over_fleets (fun root =>
    FleetManager.get_all_status world (sched root) fetch_first sequential).

Definition discover_all_repositories
  : Py t (list (Path * list GitRepository.t)) :=
  over_fleets (fun _ => FleetManager.discover_repositories world).

Definition fetch_all (sched : Path -> Schedule) (sequential : bool)
  : Py t (list (Path * list OperationResult.t)) :=
  over_fleets (fun root => FleetManager.fetch_all world (sched root) sequential).

(** [{root: statuses for root, statuses in all_statuses}], empty when no
    statuses are handed in. *)
Definition statuses_by_root
  (all_statuses : option (list (Path * list RepositoryStatus.t)))
  : list (Path * list RepositoryStatus.t) :=
  match all_statuses with
  | Some all_statuses =>
      fold_left (fun d rs => dict_set rs.1 rs.2 d) all_statuses []
  | None => []
  end.

Definition pull_all (scheds : Path -> FleetManager.Schedules)
  (only_behind sequential dry_run : bool) (mode : PullMode.t)
  (all_statuses : option (list (Path * list RepositoryStatus.t)))
  : Py t (list (Path * list OperationResult.t)) :=
  let statuses_by_root := statuses_by_root all_statuses in
  over_fleets (fun root =>
    FleetManager.pull_all world (scheds root) only_behind sequential dry_run
      mode (dict_get root statuses_by_root)).

Definition push_all (scheds : Path -> FleetManager.Schedules)
  (only_ahead sequential dry_run : bool)
  (all_statuses : option (list (Path * list RepositoryStatus.t)))
  : Py t (list (Path * list OperationResult.t)) :=
  let statuses_by_root := statuses_by_root all_statuses in
  over_fleets (fun root =>
    FleetManager.push_all world (scheds root) only_ahead sequential dry_run
      (dict_get root statuses_by_root)).

End Methods.

(** The statements of the loop are those of [FleetManager.get_summary]. *)
Definition get_summary
  (all_statuses : list (Path * list RepositoryStatus.t)) : FleetSummary.t :=
  let all_status_list :=
    fold_left (fun acc rs => acc ++ rs.2) all_statuses [] in
  locals (for_ all_status_list FleetManager.tally
            (FleetSummary.new (Builtins.len all_status_list))).

End MultiRootFleetManager.

(** ** Display names (formatters) *)

(** Items shown in a table carry the repository's name in an attribute
    [name]. *)
Class HasName (R : Type) : Type := name_of : R -> string.

#[global] Instance GitRepository_name : HasName GitRepository.t :=
  GitRepository.name.
#[global] Instance RepositoryStatus_name : HasName RepositoryStatus.t :=
  RepositoryStatus.name.
#[global] Instance OperationResult_name : HasName OperationResult.t :=
  OperationResult.name.

Module Formatters.

(** ["/".join(reversed(parts[:depth]))] on reversed parts. *)
Definition candidate (parts : list string) (depth : nat) : string :=
  Str.join "/" (rev (take depth parts)).

(** [list(enumerate(xs))] *)
Definition enumerate {A} (xs : list A) : list (nat * A) :=
  zip (seq 0 (length xs)) xs.

(** The inner loop: no other path yields the same candidate. *)
Definition is_unique (path_parts_list : list (list string)) (i : nat)
  (cand : string) (depth : nat) : bool :=
  forallb
    (fun jo : nat * list string =>
       if negb (i =? jo.1)%nat then
         let other_depth := Nat.min depth (length jo.2) in
         negb (String.eqb cand (candidate jo.2 other_depth))
       else true)
    (enumerate path_parts_list).

(** The [while depth <= len(parts)] loop with its [else] clause; [fuel]
    counts the iterations left, [len(parts) - depth + 1]. *)
Fixpoint search (path_parts_list : list (list string)) (i : nat)
  (parts : list string) (depth fuel : nat) : string :=
  match fuel with
  | O => Str.join "/" (rev parts)
  | S fuel' =>
      let cand := candidate parts depth in
      if is_unique path_parts_list i cand depth then cand
      else search path_parts_list i parts (depth + 1) fuel'
  end.

Definition _make_paths_unique (paths : list Path) : list string :=
  let path_parts_list := map (@rev string) paths in
  map (fun ip : nat * list string =>
         search path_parts_list ip.1 ip.2 1 (length ip.2))
      (enumerate path_parts_list).

(** [name_groups[name].append(item)] on an insertion-ordered dictionary. *)
Fixpoint group_append {A} (name : string) (item : A)
  (groups : list (string * list A)) : list (string * list A) :=
  match groups with
  | [] => [(name, [item])]
  | (n, g) :: rest =>
      if String.eqb n name then (n, g ++ [item]) :: rest
      else (n, g) :: group_append name item rest
  end.

Section DisplayNames.
Context {A : Type} `{HasName A} `{HasPath A}.

Definition name_groups (items : list A) : list (string * list A) :=
  fold_left (fun groups item => group_append (name_of item) item groups)
    items [].

Definition compute_unique_display_names (items : list A) : gmap Path string :=
  fold_left
    (fun (result : gmap Path string) (ng : string * list A) =>
       let '(name, group) := ng in
       if (length group =? 1)%nat then
         match group with
         | item :: _ => <[path_of item := name]> result
         | [] => result
         end
       else
         let paths := map path_of group in
         let unique_names := _make_paths_unique paths in
         fold_left
           (fun (result : gmap Path string) (pn : Path * string) =>
              <[pn.1 := pn.2]> result)
           (zip paths unique_names) result)
    (name_groups items) ∅.

End DisplayNames.

Definition compute_unique_root_names (roots : list Path) : gmap Path string :=
  if (length roots <=? 1)%nat then
    fold_left (fun (result : gmap Path string) (root : Path) =>
                 <[root := PurePath.name root]> result)
      roots ∅
  else
    let name_groups :=
      fold_left (fun groups root => group_append (PurePath.name root) root groups)
        roots [] in
    fold_left
      (fun (result : gmap Path string) (ng : string * list Path) =>
         let '(name, group) := ng in
         if (length group =? 1)%nat then
           match group with
           | root :: _ => <[root := name]> result
           | [] => result
           end
         else
           let unique_names := _make_paths_unique group in
           fold_left
             (fun (result : gmap Path string) (pn : Path * string) =>
                <[pn.1 := pn.2]> result)
             (zip group unique_names) result)
      name_groups ∅.

(** The table of [OutputFormatter._get_protocol_color]. *)
Definition colors : list (string * string) :=
  [("ssh", "green"); ("https", "blue"); ("http", "yellow"); ("git", "cyan");
   ("file", "magenta"); ("none", "dim"); ("unknown", "red")].

(** [dict(table).get(key, default)] for a table without repeated keys. *)
Fixpoint table_get (table : list (string * string)) (key default : string)
  : string :=
  match table with
  | [] => default
  | (k, v) :: table' =>
      if String.eqb k key then v else table_get table' key default
  end.

Definition _get_protocol_color (protocol : string) : string :=
  table_get colors protocol "white".

End Formatters.


(** ** Observations

    What a query yields when it is run on its own, and the subprocesses it
    starts. The default of [result_of] is never used: none of the queries
    below lets an exception escape. *)

Definition result_of {A} (default : A) (m : Py unit A) : A :=
  match value (m tt) with
  | Return a => a
  | Raise _ => default
  end.

Definition trace_of {A} (m : Py unit A) : list Event := trace (m tt).

Section Observations.
Context (world : World) (repo_path : Path).

Definition fetch_result : bool * string :=
  result_of (false, "") (GitOperations.fetch_all world repo_path).

(** The record the combined status probe yields. *)
Definition probe : Info.t :=
  result_of Info.initial (GitOperations.get_status_porcelain world repo_path).

Definition remotes_configured : bool :=
  result_of false (GitOperations.has_remotes world repo_path).

Definition head_detached : bool :=
  result_of true (GitOperations.is_detached world repo_path).

Definition merge_base : option string :=
  result_of None (GitOperations.get_merge_base world repo_path).

Definition changed_files (ref1 ref2 : string) : gset string :=
  result_of ∅ (GitOperations.get_changed_files_between world repo_path ref1 ref2).

Definition dirty_files : gset string :=
  result_of ∅ (GitOperations.get_dirty_files world repo_path).

Definition file_conflicts : bool :=
  result_of true (GitOperations.has_file_conflicts world repo_path).

End Observations.

(** The lines of the status stream of a successful probe; none when the
    command failed. *)
Definition status_lines (world : World) (repo_path : Path) : list string :=
  match git world repo_path ["status"; "--porcelain=v2"; "--branch"] with
  | Return out =>
      if CompletedProcess.returncode out =? 0
      then Str.splitlines (CompletedProcess.stdout out)
      else []
  | Raise _ => []
  end.

(** The subprocesses that change a repository's branches or working tree. *)
Definition is_pull_or_push (ev : Event) : bool :=
  match ev with
  | Run _ ["pull"] | Run _ ["push"] => true
  | _ => false
  end.

Definition is_pool (ev : Event) : bool :=
  match ev with Pool _ => true | Run _ _ => false end.

(** The status [get_status] returns. *)
Definition status_of (world : World) (repo : GitRepository.t)
  (fetch_first : bool) : RepositoryStatus.t :=
  result_of (RepositoryStatus.new (GitRepository.path repo) (GitRepository.name repo))
    (GitRepository.get_status world repo fetch_first).

(** Entries of the status stream, by their line prefix. *)
Definition is_unmerged_entry (line : string) : bool :=
  Str.startswith line "u ".

Definition is_changed_entry (line : string) : bool :=
  Str.startswith line "1 " || Str.startswith line "2 ".

Definition is_untracked_entry (line : string) : bool :=
  Str.startswith line "? ".

(** The X (position 0) or Y (position 1) code of a changed entry is set. *)
Definition xy_set (pos : nat) (line : string) : bool :=
  match Str.index (Str.slice 2 4 line) pos with
  | Some c => negb (Ascii.eqb c ".")
  | None => false
  end.

Definition count_lines (p : string -> bool) (lines : list string) : Z :=
  Z.of_nat (length (List.filter p lines)).

Definition counts_of (i : Info.t) : Z * Z * Z :=
  (Info.staged_count i, Info.unstaged_count i, Info.untracked_count i).

Definition b2z (b : bool) : Z := if b then 1 else 0.

(** Which of the three counts a line of the status stream adds to. *)
Definition adds_staged (line : string) : bool :=
  is_changed_entry line && xy_set 0 line || is_unmerged_entry line.

Definition adds_unstaged (line : string) : bool :=
  is_changed_entry line && xy_set 1 line || is_unmerged_entry line.

(** No count of the record is negative. *)
Definition counts_nonneg (i : Info.t) : Prop :=
  0 <= Info.ahead i /\ 0 <= Info.behind i /\ 0 <= Info.staged_count i
  /\ 0 <= Info.unstaged_count i /\ 0 <= Info.untracked_count i.

(** [m] run on [s] returns [a] and leaves the locals [s']. *)
Definition returns {S A} (m : Py S A) (s : S) (a : A) (s' : S) : Prop :=
  exists t, m s = (Return a, s', t).

(** Every event [m] leaves in the trace satisfies [P]. *)
Definition emits_only {S A} (P : Event -> Prop) (m : Py S A) : Prop :=
  forall s, Forall P (trace (m s)).

(** The order in which the engine, or the file-level check of a smart pull,
    takes the results of its tasks: submission order when it runs them one
    by one, completion order when it uses a pool. *)
Definition collected {X} (fm : FleetManager.t) (sched : Schedule)
  (xs : list X) (sequential : bool) : list X :=
  if sequential || (length xs <=? 1)%nat then xs
  else as_completed (Z.to_nat (FleetManager.max_workers fm)) sched xs.

(** Whether a repository with its status belongs to the pull set of a
    mode. *)
Definition joins_pull_set (world : World) (mode : PullMode.t)
  (p : GitRepository.t * RepositoryStatus.t) : bool :=
  match mode with
  | PullMode.FORCE => RepositoryStatus.needs_pull p.2
  | PullMode.SAFE =>
      RepositoryStatus.needs_pull p.2
      && negb (RepositoryStatus.has_conflict_risk p.2)
  | PullMode.SMART =>
      RepositoryStatus.needs_pull p.2
      && (negb (RepositoryStatus.has_conflict_risk p.2)
          || negb (file_conflicts world (GitRepository.path p.1)))
  end.

(** The repositories a manager works on: its cache when it has one, else
    what a fresh discovery finds. *)
Definition discovered (world : World) (fm : FleetManager.t)
  : list GitRepository.t :=
  match FleetManager._repositories fm with
  | Some repos => repos
  | None =>
      let repos :=
        list_sort GitRepository.path
          (map GitRepository.mk (rglob world (FleetManager.root_path fm))) in
      let repos :=
        if negb (FleetManager.include_no_remote fm)
        then List.filter
               (fun r => remotes_configured world (GitRepository.path r)) repos
        else repos in
      if negb (FleetManager.include_detached fm)
      then List.filter
             (fun r => negb (head_detached world (GitRepository.path r))) repos
      else repos
  end.

(** The manager once it has discovered its repositories. *)
Definition after_discovery (world : World) (fm : FleetManager.t)
  : FleetManager.t :=
  match FleetManager._repositories fm with
  | Some _ => fm
  | None => FleetManager.set__repositories (Some (discovered world fm)) fm
  end.

(** The statuses [get_all_status] returns. *)
Definition all_status (world : World) (fm : FleetManager.t) (sched : Schedule)
  (fetch_first sequential : bool) : list RepositoryStatus.t :=
  list_sort path_of
    (map (fun repo => status_of world repo fetch_first)
       (collected fm sched (discovered world fm) sequential)).

(** The synthetic result of a dry run. *)
Definition would (verb message : string) (repo : GitRepository.t)
  : OperationResult.t :=
  OperationResult.mk (GitRepository.path repo) (GitRepository.name repo)
    true verb message "".

(** What a pull or a push of one repository reports. *)
Definition pull_result (world : World) (repo : GitRepository.t)
  : OperationResult.t :=
  result_of (would "pull" "" repo) (GitRepository.pull world repo).

Definition push_result (world : World) (repo : GitRepository.t)
  : OperationResult.t :=
  result_of (would "push" "" repo) (GitRepository.push world repo).

(** The statuses a bulk pull or push goes by: the ones handed in, else a
    status scan with fetch. *)
Definition statuses_used (world : World) (fm : FleetManager.t)
  (scheds : FleetManager.Schedules) (sequential : bool)
  (statuses : option (list RepositoryStatus.t)) : list RepositoryStatus.t :=
  match statuses with
  | Some statuses => statuses
  | None =>
      all_status world fm (FleetManager.status_order scheds) true sequential
  end.

(** The repositories [push_all] works on. *)
Definition eligible_to_push (world : World) (fm : FleetManager.t)
  (scheds : FleetManager.Schedules) (only_ahead sequential : bool)
  (statuses : option (list RepositoryStatus.t)) : list GitRepository.t :=
  if only_ahead
  then FleetManager.repos_to_push (discovered world fm)
         (statuses_used world fm scheds sequential statuses)
  else discovered world fm.

(** An event that is neither a pull nor a push. *)
Definition quiet (ev : Event) : Prop := is_pull_or_push ev = false.

(** ** A small fleet

    Root [/r] holds the three repositories of the specification's smart-pull
    scenario: [a] is behind with a clean tree; [b] has diverged, upstream
    touched [x.py] and the branch touched [y.py]; [c] has diverged and both
    sides touched [x.py]. Root [/q] holds [a], diverged without overlap, and
    [b], behind with a clean tree. Root [/m] holds [u], stopped in a merge
    with two unmerged files. *)
Module Demo.

Definition unlines (ls : list string) : string :=
  fold_right (fun l acc => l +:+ String Str.LF acc) "" ls.

Definition ok (out : string) : Exc CompletedProcess.t :=
  Return (CompletedProcess.mk 0 out "").

Definition failed (err : string) : Exc CompletedProcess.t :=
  Return (CompletedProcess.mk 1 "" err).

Definition header (ahead behind : string) : list string :=
  ["# branch.oid 1f2e3d"; "# branch.head main";
   "# branch.upstream origin/main";
   "# branch.ab +" +:+ ahead +:+ " -" +:+ behind].

Definition status_stream (cwd : Path) : string :=
  match cwd with
  | ["/"; "r"; "a"] => unlines (header "0" "2")
  | ["/"; "r"; "b"] => unlines (header "1" "1")
  | ["/"; "r"; "c"] => unlines (header "2" "1")
  | ["/"; "q"; "a"] => unlines (header "1" "3")
  | ["/"; "q"; "b"] => unlines (header "0" "1")
  | ["/"; "m"; "u"] =>
      unlines (header "1" "1"
               ++ ["u UU N... 100644 100644 100644 100644 1a 2b 3c x.py";
                   "u AA N... 000000 100644 100644 100644 0a 2b 3c y.py"])
  | _ => ""
  end.

Definition remote_changed (cwd : Path) : string :=
  match cwd with
  | ["/"; "r"; "a"] | ["/"; "r"; "b"] | ["/"; "r"; "c"] => unlines ["x.py"]
  | ["/"; "q"; "a"] => unlines ["lib/a.py"; "lib/b.py"]
  | _ => unlines ["README"]
  end.

Definition local_changed (cwd : Path) : string :=
  match cwd with
  | ["/"; "r"; "b"] => unlines ["y.py"]
  | ["/"; "r"; "c"] => unlines ["w.py"; "x.py"]
  | ["/"; "q"; "a"] => unlines ["doc/a.md"]
  | _ => ""
  end.

Definition tool (cwd : Path) (args : list string) : Exc CompletedProcess.t :=
  match args with
  | ["status"; "--porcelain=v2"; "--branch"] => ok (status_stream cwd)
  | ["fetch"; "--all"; "--prune"] => ok ""
  | ["merge-base"; "HEAD"; "@{u}"] => ok (unlines ["5c0ffee"])
  | ["diff"; "--name-only"; "HEAD"] => ok ""
  | ["diff"; "--name-only"; _; "@{u}"] => ok (remote_changed cwd)
  | ["diff"; "--name-only"; _; "HEAD"] => ok (local_changed cwd)
  | ["ls-files"; "--others"; "--exclude-standard"] => ok ""
  | ["remote"] => ok (unlines ["origin"])
  | ["symbolic-ref"; "HEAD"] => ok (unlines ["refs/heads/main"])
  | ["log"; "-1"; "--format=%cI"] => ok (unlines ["2024-05-01T10:00:00+00:00"])
  | ["pull"] => ok "Already up to date."
  | ["push"] => ok ""
  | _ => failed "unknown command"
  end.

Definition found (root : Path) : list Path :=
  match root with
  | ["/"; "r"] => [["/"; "r"; "c"]; ["/"; "r"; "a"]; ["/"; "r"; "b"]]
  | ["/"; "q"] => [["/"; "q"; "b"]; ["/"; "q"; "a"]]
  | ["/"; "m"] => [["/"; "m"; "u"]]
  | _ => []
  end.

Definition world : World :=
  {| git := tool; rglob := found; fromisoformat := fun s => Some s |}.

(** [FleetManager(root)] as the command line builds it: eight workers. *)
Definition fleet (root : Path) : FleetManager.t :=
  FleetManager.mk root 8 true true None.

Definition repo (p : Path) : GitRepository.t := GitRepository.mk p.

(** A status on branch [main] tracking [origin/main]. *)
Definition status (p : Path) (sync : SyncStatus.t) (ahead behind staged : Z)
  : RepositoryStatus.t :=
  RepositoryStatus.mk p (PurePath.name p) "main" "origin/main" sync ahead
    behind staged 0 0 None "".

Definition scheds (s : Schedule) : FleetManager.Schedules :=
  {| FleetManager.status_order := s;
     FleetManager.check_order := s;
     FleetManager.operation_order := s |}.

End Demo.

(** What a fetch of one repository reports. *)
Definition fetch_report (world : World) (repo : GitRepository.t)
  : OperationResult.t :=
  result_of (would "fetch" "" repo) (GitRepository.fetch world repo).

(** A result list in ascending path order. *)
Definition ascending {R} `{HasPath R} (results : list R) : Prop :=
  Sorted (key_le path_of) results.

(** ** Well-formed paths and trailing parts *)

Fixpoint has_slash (s : string) : bool :=
  match s with
  | EmptyString => false
  | String c s' => Ascii.eqb c "/" || has_slash s'
  end.

(** A component of a path: not empty and without separator. *)
Definition is_part (s : string) : bool :=
  negb (String.eqb s "") && negb (has_slash s).

(** What [Path.parts] can be: components, after an optional anchor. *)
Definition wf_path (p : Path) : bool :=
  match p with
  | [] => true
  | a :: rest => (PurePath.is_anchor a || is_part a) && forallb is_part rest
  end.

(** The last [d] parts of a path, all of them when it has fewer. *)
Definition last_parts (d : nat) (p : Path) : list string :=
  rev (take d (rev p)).

(** Another path of the input ends in the same [d] parts as [p]. *)
Definition shared (paths : list Path) (p : Path) (d : nat) : Prop :=
  exists q, q ∈ paths /\ q <> p /\ last_parts d q = last_parts d p.

(** What holds of the groups built from the items seen so far: one group per
    name, each holding the items of that name, all items kept. *)
Definition grouped {A : Type} `{HasName A}
    (gs : list (string * list A)) (seen : list A) : Prop :=
  List.NoDup (map fst gs)
  /\ (forall m g y, In (m, g) gs -> In y g -> name_of y = m)
  /\ (forall y, In y seen -> exists g, In (name_of y, g) gs /\ In y g)
  /\ concat (map snd gs) ≡ₚ seen.

(** The assignments [result[path] = name] one group gives rise to. *)
Definition entries {A : Type} `{HasPath A}
    (ng : string * list A) : list (Path * string) :=
  if (length ng.2 =? 1)%nat then
    match ng.2 with
    | item :: _ => [(path_of item, ng.1)]
    | [] => []
    end
  else
    zip (map path_of ng.2) (Formatters._make_paths_unique (map path_of ng.2)).


(** ** Vocabulary of the further properties *)

(** How many elements of a list pass a test. *)
Definition count_of {A} (p : A -> bool) (l : list A) : Z :=
  Z.of_nat (length (List.filter p l)).

(** A status in error, and one with nothing to do: in sync with a clean
    tree. *)
Definition in_error (status : RepositoryStatus.t) : bool :=
  SyncStatus.eqb (RepositoryStatus.sync_status status) SyncStatus.ERROR.

Definition all_clean (status : RepositoryStatus.t) : bool :=
  SyncStatus.eqb (RepositoryStatus.sync_status status) SyncStatus.CLEAN
  && WorkingTreeStatus.eqb (RepositoryStatus.working_tree_status status)
       WorkingTreeStatus.CLEAN.

Definition tree_dirty (status : RepositoryStatus.t) : bool :=
  WorkingTreeStatus.eqb (RepositoryStatus.working_tree_status status)
    WorkingTreeStatus.DIRTY.

(** Summaries add up field by field. *)
Definition summary_add (a b : FleetSummary.t) : FleetSummary.t :=
  FleetSummary.mk
    (FleetSummary.total a + FleetSummary.total b)
    (FleetSummary.clean a + FleetSummary.clean b)
    (FleetSummary.need_push a + FleetSummary.need_push b)
    (FleetSummary.need_pull a + FleetSummary.need_pull b)
    (FleetSummary.diverged a + FleetSummary.diverged b)
    (FleetSummary.dirty a + FleetSummary.dirty b)
    (FleetSummary.conflict_risk a + FleetSummary.conflict_risk b)
    (FleetSummary.errors a + FleetSummary.errors b).

(** [m] run on [s] returns [a], leaves the locals [s'], and starts neither
    a pull nor a push on the way. *)
Definition runs_quietly {S A} (m : Py S A) (s : S) (a : A) (s' : S) : Prop :=
  exists t, m s = (Return a, s', t) /\ Forall quiet t.

(** What the result of an operation on one repository tells: whose it is,
    that it succeeded exactly when the command ran and returned zero, and
    that it carries a message or an error, never both. *)
Definition reports (world : World) (repo : GitRepository.t) (verb : string)
  (args : list string) (r : OperationResult.t) : Prop :=
  OperationResult.path r = GitRepository.path repo
  /\ OperationResult.name r = GitRepository.name repo
  /\ OperationResult.operation r = verb
  /\ (OperationResult.success r = true
      <-> exists out, git world (GitRepository.path repo) args = Return out
                      /\ CompletedProcess.returncode out = 0)
  /\ (OperationResult.success r = true -> OperationResult.error r = "")
  /\ (OperationResult.success r = false -> OperationResult.message r = "")
  /\ (forall e, git world (GitRepository.path repo) args = Raise e ->
                OperationResult.error r = e).

(** A getter that answers with the stripped output of one command: it
    never raises, leaves the locals alone, and its answer has no white
    space at either end; the answer is empty unless the command ran and
    returned zero. *)
Definition answers_stripped {S} (world : World) (repo_path : Path)
  (args : list string) (m : Py S string) (s : S) : Prop :=
  exists r,
    m s = (Return r, s, [Run repo_path args])
    /\ Str.strip r = r
    /\ (r <> "" ->
        exists out, git world repo_path args = Return out
                    /\ CompletedProcess.returncode out = 0
                    /\ r = Str.strip (CompletedProcess.stdout out)).

(** The lines of the stripped output of a command that ran and returned
    zero; none otherwise. *)
Definition listing (world : World) (repo_path : Path) (args : list string)
  : list string :=
  match git world repo_path args with
  | Return out =>
      if CompletedProcess.returncode out =? 0
      then Str.splitlines (Str.strip (CompletedProcess.stdout out))
      else []
  | Raise _ => []
  end.

(** A status and a file name, joined by a tab as the tool prints them. *)
Definition rejoin (entry : string * string) : string :=
  entry.1 +:+ String Str.TAB entry.2.

Definition has_tab (line : string) : bool :=
  Str.contains (String Str.TAB "") line.

(** The remote names [get_remotes] goes through: those the listing of the
    remotes prints, none when that command fails. *)
Definition remotes_listed (world : World) (repo_path : Path) : list string :=
  match git world repo_path ["remote"] with
  | Return out =>
      if CompletedProcess.returncode out =? 0
      then GitOperations.remote_names (CompletedProcess.stdout out)
      else []
  | Raise _ => []
  end.

(** What an entry of [get_remotes] says about the remote it names, given
    the answers to the two URL queries. *)
Definition describes (world : World) (repo_path : Path) (r : RemoteInfo.t)
  : Prop :=
  exists fetched pushed,
    git world repo_path ["remote"; "get-url"; RemoteInfo.name r]
    = Return fetched
    /\ git world repo_path ["remote"; "get-url"; "--push"; RemoteInfo.name r]
       = Return pushed
    /\ RemoteInfo.fetch_url r
       = (if CompletedProcess.returncode fetched =? 0
          then Str.strip (CompletedProcess.stdout fetched) else "")
    /\ RemoteInfo.push_url r
       = (if CompletedProcess.returncode pushed =? 0
          then Str.strip (CompletedProcess.stdout pushed)
          else RemoteInfo.fetch_url r)
    /\ RemoteInfo.protocol r
       = GitOperations._detect_protocol (RemoteInfo.fetch_url r).

(** A URL query for a remote cannot be started. *)
Definition query_breaks (world : World) (repo_path : Path) (name : string)
  : Prop :=
  (exists e, git world repo_path ["remote"; "get-url"; name] = Raise e)
  \/ (exists e, git world repo_path ["remote"; "get-url"; "--push"; name]
                = Raise e).

(** What the three read-only queries of one repository yield. *)
Definition identity_of (world : World) (repo : GitRepository.t)
  : RepositoryIdentity.t :=
  result_of
    (RepositoryIdentity.mk (GitRepository.path repo) (GitRepository.name repo)
       "" "" false "unknown" "")
    (GitRepository.get_identity world repo).

Definition remotes_of (world : World) (repo : GitRepository.t)
  : RepositoryRemotes.t :=
  result_of
    (RepositoryRemotes.mk (GitRepository.path repo) (GitRepository.name repo) [])
    (GitRepository.get_remotes world repo).

Definition diff_of (world : World) (repo : GitRepository.t)
  : RepositoryDiff.t :=
  result_of
    (RepositoryDiff.mk (GitRepository.path repo) (GitRepository.name repo)
       "" [] [] [])
    (GitRepository.get_diff world repo).

(** A fleet-wide query gives the same answer whatever the order in which
    the workers finish, and the answer it gives when run one by one: one
    entry per repository of the manager, in ascending path order. The
    manager has discovered its repositories afterwards. *)
Definition order_independent {R} `{HasPath R} (world : World)
  (fm : FleetManager.t) (query : Schedule -> bool -> Py FleetManager.t (list R))
  (f : GitRepository.t -> R) : Prop :=
  exists results,
    (forall sched,
       returns (query sched false) fm results (after_discovery world fm))
    /\ returns (query [] true) fm results (after_discovery world fm)
    /\ results ≡ₚ map f (discovered world fm)
    /\ ascending results
    /\ Forall2 (fun r p => path_of r = p) results
         (list_sort id (map GitRepository.path (discovered world fm))).

(** The distinct elements of a list of paths, each where it first
    occurs. *)
Fixpoint first_occurrences (l : list Path) : list Path :=
  match l with
  | [] => []
  | x :: l' =>
      x :: List.filter (fun y => negb (bool_decide (y = x)))
             (first_occurrences l')
  end.

(** Decimal numerals as the tool prints them: the digits, most significant
    first, and the number they denote. *)
Definition digit_char (d : nat) : ascii := ascii_of_nat (48 + d).

Fixpoint numeral (ds : list nat) : string :=
  match ds with
  | [] => EmptyString
  | d :: ds' => String (digit_char d) (numeral ds')
  end.

Definition numeral_value (ds : list nat) : Z :=
  fold_left (fun acc d => 10 * acc + Z.of_nat d) ds 0.

(** At least one digit, no more than [int] accepts. *)
Definition is_numeral (ds : list nat) : Prop :=
  ds <> [] /\ Forall (fun d => (d < 10)%nat) ds
  /\ (length ds <= Str.max_str_digits)%nat.
(** * Properties *)

(** ** Status predicates *)

Lemma SyncStatus_eqb_eq (a b : SyncStatus.t) :
  SyncStatus.eqb a b = true <-> a = b.
Proof. destruct a, b; simpl; split; intro E; congruence. Qed.

Lemma working_tree_dirty_iff (s : RepositoryStatus.t) :
  0 <= RepositoryStatus.staged_count s ->
  0 <= RepositoryStatus.unstaged_count s ->
  0 <= RepositoryStatus.untracked_count s ->
  RepositoryStatus.working_tree_status s = WorkingTreeStatus.DIRTY <->
  0 < RepositoryStatus.staged_count s + RepositoryStatus.unstaged_count s
      + RepositoryStatus.untracked_count s.
Proof.
  intros Hs Hu Ht. unfold RepositoryStatus.working_tree_status.
  destruct (0 <? RepositoryStatus.staged_count s) eqn:E1;
    destruct (0 <? RepositoryStatus.unstaged_count s) eqn:E2;
    destruct (0 <? RepositoryStatus.untracked_count s) eqn:E3; simpl;
    rewrite ?Z.ltb_lt, ?Z.ltb_ge in *; split; intro; try lia; try done.
Qed.

Lemma needs_pull_iff (s : RepositoryStatus.t) :
  RepositoryStatus.needs_pull s = true <->
  RepositoryStatus.sync_status s = SyncStatus.BEHIND
  \/ RepositoryStatus.sync_status s = SyncStatus.DIVERGED.
Proof.
  unfold RepositoryStatus.needs_pull.
  rewrite orb_true_iff, !SyncStatus_eqb_eq. reflexivity.
Qed.

Lemma needs_push_iff (s : RepositoryStatus.t) :
  RepositoryStatus.needs_push s = true <->
  RepositoryStatus.sync_status s = SyncStatus.AHEAD
  \/ RepositoryStatus.sync_status s = SyncStatus.DIVERGED.
Proof.
  unfold RepositoryStatus.needs_push.
  rewrite orb_true_iff, !SyncStatus_eqb_eq. reflexivity.
Qed.

(** C4. For a status whose three counts are counts (not negative):
    [needs_push] holds exactly for ahead and diverged, [needs_pull] exactly
    for behind and diverged, and [has_conflict_risk] holds exactly when the
    status is diverged, or a pull is needed and
    staged + unstaged + untracked > 0. In particular there is no conflict
    risk for clean, ahead, no_upstream, no_remote, detached and error
    statuses with a clean working tree. *)
Theorem has_conflict_risk_iff (s : RepositoryStatus.t) :
  0 <= RepositoryStatus.staged_count s ->
  0 <= RepositoryStatus.unstaged_count s ->
  0 <= RepositoryStatus.untracked_count s ->
  (RepositoryStatus.needs_push s = true <->
     RepositoryStatus.sync_status s = SyncStatus.AHEAD
     \/ RepositoryStatus.sync_status s = SyncStatus.DIVERGED)
  /\ (RepositoryStatus.needs_pull s = true <->
        RepositoryStatus.sync_status s = SyncStatus.BEHIND
        \/ RepositoryStatus.sync_status s = SyncStatus.DIVERGED)
  /\ (RepositoryStatus.has_conflict_risk s = true <->
        RepositoryStatus.sync_status s = SyncStatus.DIVERGED
        \/ (RepositoryStatus.needs_pull s = true
            /\ 0 < RepositoryStatus.staged_count s
                   + RepositoryStatus.unstaged_count s
                   + RepositoryStatus.untracked_count s))
  /\ (RepositoryStatus.staged_count s + RepositoryStatus.unstaged_count s
        + RepositoryStatus.untracked_count s = 0 ->
      In (RepositoryStatus.sync_status s)
        [SyncStatus.CLEAN; SyncStatus.AHEAD; SyncStatus.NO_UPSTREAM;
         SyncStatus.NO_REMOTE; SyncStatus.DETACHED; SyncStatus.ERROR] ->
      RepositoryStatus.has_conflict_risk s = false).
Proof.
  intros Hs Hu Ht.
  pose proof (working_tree_dirty_iff s Hs Hu Ht) as Hdirty.
  split; [apply needs_push_iff|]. split; [apply needs_pull_iff|].
  assert (Hrisk :
    RepositoryStatus.has_conflict_risk s = true <->
    RepositoryStatus.sync_status s = SyncStatus.DIVERGED
    \/ (RepositoryStatus.needs_pull s = true
        /\ RepositoryStatus.working_tree_status s = WorkingTreeStatus.DIRTY)).
  { unfold RepositoryStatus.has_conflict_risk, RepositoryStatus.is_diverged.
    destruct (SyncStatus.eqb _ SyncStatus.DIVERGED) eqn:Ed.
    - apply SyncStatus_eqb_eq in Ed. tauto.
    - assert (RepositoryStatus.sync_status s <> SyncStatus.DIVERGED)
        by (intro E; apply SyncStatus_eqb_eq in E; congruence).
      destruct (RepositoryStatus.needs_pull s);
        destruct (RepositoryStatus.working_tree_status s); simpl;
        split; intro; try done; try tauto; intuition congruence. }
  split.
  - rewrite Hrisk, Hdirty. reflexivity.
  - intros Hzero Hin.
    apply not_true_is_false. intro E. apply Hrisk in E.
    destruct E as [E | [E _]]; [| apply needs_pull_iff in E];
      simpl in Hin; intuition congruence.
Qed.

Lemma has_conflict_risk_iff_witness :
  let s := RepositoryStatus.mk ["/"; "r"; "a"] "a" "main" "origin/main"
             SyncStatus.BEHIND 0 2 1 0 0 None "" in
  RepositoryStatus.has_conflict_risk s = true
  /\ (RepositoryStatus.has_conflict_risk s = true <->
        RepositoryStatus.sync_status s = SyncStatus.DIVERGED
        \/ (RepositoryStatus.needs_pull s = true
            /\ 0 < RepositoryStatus.staged_count s
                   + RepositoryStatus.unstaged_count s
                   + RepositoryStatus.untracked_count s)).
Proof.
  intro s. split; [reflexivity|].
  apply (has_conflict_risk_iff s); simpl; lia.
Defined.

(** ** Running computations *)

Lemma bind_Return {S A B} (m : Py S A) (k : A -> Py S B) s a s1 t1 :
  m s = (Return a, s1, t1) ->
  bind m k s = (value (k a s1), locals (k a s1), t1 ++ trace (k a s1)).
Proof.
  intros E. unfold bind, value, locals, trace. rewrite E.
  destruct (k a s1) as [[r s2] t2]. reflexivity.
Qed.

Lemma bind_Raise {S A B} (m : Py S A) (k : A -> Py S B) s e s1 t1 :
  m s = (Raise e, s1, t1) -> bind m k s = (Raise e, s1, t1).
Proof. intros E. unfold bind. rewrite E. reflexivity. Qed.

Lemma run_eta {S A} (r : Exc A * S * list Event) :
  r = (value r, locals r, trace r).
Proof. destruct r as [[? ?] ?]. reflexivity. Qed.

(** A [try] whose handler swallows the exception always completes. *)
Lemma try_swallow {S} (m : Py S unit) (s : S) :
  exists s1 t1, try_ m (fun _ => ret tt) s = (Return tt, s1, t1).
Proof.
  unfold try_, ret. destruct (m s) as [[[[]|e] s1] t1]; eauto.
Qed.

(** ** Adapter queries never raise and leave the caller's locals alone *)

Ltac run_query :=
  intros; unfold result_of, trace_of, value, trace, try_, bind, ret,
    GitOperations._run; simpl;
  repeat match goal with
         | |- context [git ?w ?p ?a] => destruct (git w p a) as [?|?]; simpl
         | |- context [if ?b then _ else _] => destruct b; simpl
         | |- context [match ?x with Some _ => _ | None => _ end] =>
             destruct x; simpl
         end;
  try reflexivity.

Section Queries.
Context (world : World) (repo_path : Path).

Lemma fetch_all_run {S} (s : S) :
  GitOperations.fetch_all world repo_path s
  = (Return (fetch_result world repo_path), s,
     trace_of (GitOperations.fetch_all world repo_path)).
Proof. unfold fetch_result, GitOperations.fetch_all. run_query. Qed.

Lemma has_remotes_run {S} (s : S) :
  GitOperations.has_remotes world repo_path s
  = (Return (remotes_configured world repo_path), s,
     trace_of (GitOperations.has_remotes world repo_path)).
Proof. unfold remotes_configured, GitOperations.has_remotes. run_query. Qed.

Lemma is_detached_run {S} (s : S) :
  GitOperations.is_detached world repo_path s
  = (Return (head_detached world repo_path), s,
     trace_of (GitOperations.is_detached world repo_path)).
Proof. unfold head_detached, GitOperations.is_detached. run_query. Qed.

Lemma get_last_commit_date_run {S} (s : S) :
  exists d, GitOperations.get_last_commit_date world repo_path s
  = (Return d, s, trace_of (GitOperations.get_last_commit_date world repo_path)).
Proof.
  unfold GitOperations.get_last_commit_date. run_query; eauto.
Qed.

Lemma get_merge_base_run {S} (s : S) :
  GitOperations.get_merge_base world repo_path s
  = (Return (merge_base world repo_path), s,
     trace_of (GitOperations.get_merge_base world repo_path)).
Proof. unfold merge_base, GitOperations.get_merge_base. run_query. Qed.

Lemma get_changed_files_between_run {S} (s : S) ref1 ref2 :
  GitOperations.get_changed_files_between world repo_path ref1 ref2 s
  = (Return (changed_files world repo_path ref1 ref2), s,
     trace_of (GitOperations.get_changed_files_between world repo_path ref1 ref2)).
Proof.
  unfold changed_files, GitOperations.get_changed_files_between. run_query.
Qed.

Lemma pull_run {S} (s : S) :
  exists r, GitOperations.pull world repo_path s
  = (Return r, s, trace_of (GitOperations.pull world repo_path)).
Proof. unfold GitOperations.pull. run_query; eauto. Qed.

Lemma push_run {S} (s : S) :
  exists r, GitOperations.push world repo_path s
  = (Return r, s, trace_of (GitOperations.push world repo_path)).
Proof. unfold GitOperations.push. run_query; eauto. Qed.

End Queries.

Lemma call_run {S S' A} (l : S') (m : Py S' A) (s : S) a :
  value (m l) = Return a -> call l m s = (Return a, s, trace (m l)).
Proof.
  unfold call, value, trace. destruct (m l) as [[r s1] t1]. simpl.
  intros ->. reflexivity.
Qed.

Lemma call_result {S' A} (l : S') (m : Py S' A) (d a : A) :
  value (m l) = Return a -> result_of d (call l m) = a.
Proof.
  intros E. unfold result_of. rewrite (call_run l m tt a E). reflexivity.
Qed.

Lemma call_trace {S S' A} (l : S') (m : Py S' A) (s : S) :
  trace (call l m s) = trace (m l).
Proof. unfold call, trace. destruct (m l) as [[r s1] t1]. reflexivity. Qed.

(** A method whose body is a swallowing [try] followed by [return locals]. *)
Lemma try_then_get_value {S} (m : Py S unit) (s : S) :
  exists s1, value ((try_ m (fun _ => ret tt) ;; get) s) = Return s1
             /\ s1 = locals (try_ m (fun _ => ret tt) s).
Proof.
  destruct (try_swallow m s) as (s1 & t1 & E).
  exists s1. rewrite (bind_Return _ _ _ _ _ _ E). simpl.
  rewrite E. split; reflexivity.
Qed.

Section CallQueries.
Context (world : World) (repo_path : Path).

Lemma get_status_porcelain_run {S} (s : S) :
  GitOperations.get_status_porcelain world repo_path s
  = (Return (probe world repo_path), s,
     trace_of (GitOperations.get_status_porcelain world repo_path)).
Proof.
  unfold probe, trace_of, GitOperations.get_status_porcelain.
  match goal with |- call ?l ?m s = _ =>
    destruct (try_then_get_value
                (result <- GitOperations._run world repo_path
                             ["status"; "--porcelain=v2"; "--branch"] ;;
                 if negb (CompletedProcess.returncode result =? 0) then ret tt
                 else for_ (Str.splitlines (CompletedProcess.stdout result))
                        (GitOperations.parse_line)) l) as (i & E & _);
    rewrite (call_run l m s i E), (call_result l m _ i E), call_trace
  end.
  reflexivity.
Qed.

Lemma get_dirty_files_run {S} (s : S) :
  GitOperations.get_dirty_files world repo_path s
  = (Return (dirty_files world repo_path), s,
     trace_of (GitOperations.get_dirty_files world repo_path)).
Proof.
  unfold dirty_files, trace_of, GitOperations.get_dirty_files.
  match goal with |- call ?l ?m s = _ =>
    destruct (try_then_get_value
                (result <- GitOperations._run world repo_path
                             ["diff"; "--name-only"; "HEAD"] ;;
                 GitOperations.update_from result ;;
                 result <- GitOperations._run world repo_path
                             ["ls-files"; "--others"; "--exclude-standard"] ;;
                 GitOperations.update_from result) l) as (i & E & _);
    rewrite (call_run l m s i E), (call_result l m _ i E), call_trace
  end.
  reflexivity.
Qed.

(** What the resolver computes, in terms of the three queries it makes. *)
Lemma has_file_conflicts_run {S} (s : S) :
  GitOperations.has_file_conflicts world repo_path s
  = (Return
       match merge_base world repo_path with
       | None => true
       | Some m =>
           negb (bool_decide
                   ((changed_files world repo_path m "HEAD"
                     ∪ dirty_files world repo_path)
                    ∩ changed_files world repo_path m "@{u}" = ∅))
       end,
     s, trace_of (GitOperations.has_file_conflicts world repo_path)).
Proof.
  unfold trace_of, GitOperations.has_file_conflicts, bind.
  rewrite !get_merge_base_run.
  destruct (merge_base world repo_path) as [m|]; [|reflexivity].
  rewrite !get_changed_files_between_run, !get_dirty_files_run.
  reflexivity.
Qed.

Lemma file_conflicts_eq :
  file_conflicts world repo_path
  = match merge_base world repo_path with
    | None => true
    | Some m =>
        negb (bool_decide
                ((changed_files world repo_path m "HEAD"
                  ∪ dirty_files world repo_path)
                 ∩ changed_files world repo_path m "@{u}" = ∅))
    end.
Proof.
  unfold file_conflicts, result_of. rewrite has_file_conflicts_run.
  reflexivity.
Qed.

(** The merge-base is undetermined exactly when the tool cannot be started
    or exits with a non-zero code. *)
Lemma merge_base_None :
  merge_base world repo_path = None <->
  match git world repo_path ["merge-base"; "HEAD"; "@{u}"] with
  | Return out => CompletedProcess.returncode out <> 0
  | Raise _ => True
  end.
Proof.
  unfold merge_base, result_of, GitOperations.get_merge_base, try_, bind,
    GitOperations._run, ret, value. simpl.
  destruct (git world repo_path _) as [out|e]; simpl; [|tauto].
  destruct (Z.eqb_spec (CompletedProcess.returncode out) 0); simpl;
    split; intro; congruence.
Qed.

End CallQueries.

(** C2. The conflict-risk resolver always answers. It answers "conflict"
    when the merge-base of HEAD and upstream cannot be determined; with a
    merge-base M it answers "conflict" exactly when some file is both among
    the files changed between M and HEAD or currently dirty, and among the
    files changed between M and upstream. *)
Theorem has_file_conflicts_spec (world : World) (repo_path : Path)
  (S : Type) (s : S) :
  exists conflict : bool,
    value (GitOperations.has_file_conflicts world repo_path s) = Return conflict
    /\ match merge_base world repo_path with
       | None => conflict = true
       | Some m =>
           conflict = true <->
           exists f : string,
             (f ∈ changed_files world repo_path m "HEAD"
              \/ f ∈ dirty_files world repo_path)
             /\ f ∈ changed_files world repo_path m "@{u}"
       end.
Proof.
  rewrite has_file_conflicts_run. eexists. split; [reflexivity|].
  destruct (merge_base world repo_path) as [m|]; [|reflexivity].
  rewrite negb_true_iff, bool_decide_eq_false.
  split.
  - intros Hne. apply set_choose_L in Hne as [f Hf].
    exists f. set_solver.
  - intros (f & ? & ?). set_solver.
Qed.

(** ** The combined status probe *)

Lemma for_cons_Return {S A} (body : A -> Py S unit) x xs s s1 t1 :
  body x s = (Return tt, s1, t1) ->
  for_ (x :: xs) body s
  = (value (for_ xs body s1), locals (for_ xs body s1),
     t1 ++ trace (for_ xs body s1)).
Proof.
  intros E. exact (bind_Return (body x) (fun _ => for_ xs body) s tt s1 t1 E).
Qed.

Lemma for_cons_Raise {S A} (body : A -> Py S unit) x xs s e s1 t1 :
  body x s = (Raise e, s1, t1) -> for_ (x :: xs) body s = (Raise e, s1, t1).
Proof.
  intros E. exact (bind_Raise (body x) (fun _ => for_ xs body) s e s1 t1 E).
Qed.

Lemma startswith_cons2 (line : string) (a b : ascii) :
  Str.startswith line (String a (String b "")) = true ->
  exists rest, line = String a (String b rest).
Proof.
  unfold Str.startswith. destruct line as [|c [|c' rest]]; simpl;
    try discriminate.
  - destruct (ascii_dec a c); discriminate.
  - destruct (ascii_dec a c); [|discriminate].
    destruct (ascii_dec b c'); [|discriminate]. subst. eauto.
Qed.

Ltac run_line :=
  unfold GitOperations.parse_line, Str.startswith, bind, modify, ret; simpl.

(** An unmerged entry adds one to the staged and to the unstaged count and
    touches nothing else. *)
Lemma parse_line_unmerged (line : string) (info : Info.t) :
  is_unmerged_entry line = true ->
  GitOperations.parse_line line info
  = (Return tt, Info.incr_unstaged_count (Info.incr_staged_count info), []).
Proof.
  intros H. apply startswith_cons2 in H as [rest ->].
  destruct rest; reflexivity.
Qed.

Lemma parse_line_untracked (line : string) (info : Info.t) :
  is_untracked_entry line = true ->
  GitOperations.parse_line line info
  = (Return tt, Info.incr_untracked_count info, []).
Proof.
  intros H. apply startswith_cons2 in H as [rest ->].
  destruct rest; reflexivity.
Qed.

(** A changed entry that is read without a fault adds the X code to the
    staged and the Y code to the unstaged count. *)
Lemma parse_line_changed (line : string) (info : Info.t) :
  is_changed_entry line = true ->
  value (GitOperations.parse_line line info) = Return tt ->
  counts_of (locals (GitOperations.parse_line line info))
  = (Info.staged_count info + b2z (xy_set 0 line),
     Info.unstaged_count info + b2z (xy_set 1 line),
     Info.untracked_count info).
Proof.
  unfold is_changed_entry. intros H.
  assert (exists c rest, line = String c (String " " rest)
                         /\ (c = "1" \/ c = "2")%char) as (c & rest & -> & Hc).
  { apply orb_true_iff in H as [H|H];
      apply startswith_cons2 in H as [rest ->]; eauto. }
  unfold xy_set, Str.slice, Str.index.
  destruct Hc as [-> | ->]; destruct rest as [|x [|y rest]];
    run_line; unfold GitOperations.getitem, Str.index, value; simpl;
    try discriminate;
    destruct (Ascii.eqb x "."); simpl; try discriminate;
    try destruct (Ascii.eqb y "."); simpl; intros _;
    unfold counts_of, locals; simpl; rewrite ?Z.add_0_r; reflexivity.
Qed.

Lemma startswith_head (line : string) (a : ascii) (p : string) :
  Str.startswith line (String a p) = true -> exists rest, line = String a rest.
Proof.
  unfold Str.startswith. destruct line as [|c rest]; simpl; [discriminate|].
  destruct (ascii_dec a c); [subst; eauto | discriminate].
Qed.

Ltac run_parse :=
  unfold GitOperations.parse_line, GitOperations.int_, GitOperations.getitem,
    bind, modify, ret, raise, locals, value in *; simpl in *.

(** A line that is no entry leaves the three counts alone, also when it is
    a malformed header and reading it raises. *)
Lemma parse_line_no_entry (line : string) (info : Info.t) :
  is_changed_entry line = false ->
  is_unmerged_entry line = false ->
  is_untracked_entry line = false ->
  counts_of (locals (GitOperations.parse_line line info)) = counts_of info.
Proof.
  unfold is_changed_entry, is_unmerged_entry, is_untracked_entry.
  intros Hc Hu Ht. unfold GitOperations.parse_line.
  rewrite Hc, Hu, Ht.
  repeat match goal with
         | |- context [if ?b then _ else _] => destruct b
         end;
    run_parse; try reflexivity;
    repeat match goal with
           | |- context [match ?x with Some _ => _ | None => _ end] =>
               destruct x; simpl
           end; reflexivity.
Qed.

Lemma parse_line_counts (line : string) (info : Info.t) :
  value (GitOperations.parse_line line info) = Return tt ->
  counts_of (locals (GitOperations.parse_line line info))
  = (Info.staged_count info + b2z (adds_staged line),
     Info.unstaged_count info + b2z (adds_unstaged line),
     Info.untracked_count info + b2z (is_untracked_entry line)).
Proof.
  intros Hok. unfold adds_staged, adds_unstaged.
  destruct (is_unmerged_entry line) eqn:Eu.
  { rewrite (parse_line_unmerged _ _ Eu).
    apply startswith_cons2 in Eu as [rest ->].
    unfold is_changed_entry, is_untracked_entry, Str.startswith, counts_of,
      locals; simpl. rewrite ?Z.add_0_r. reflexivity. }
  destruct (is_untracked_entry line) eqn:Et.
  { rewrite (parse_line_untracked _ _ Et).
    apply startswith_cons2 in Et as [rest ->].
    unfold is_changed_entry, Str.startswith, counts_of, locals; simpl.
    rewrite ?Z.add_0_r. reflexivity. }
  destruct (is_changed_entry line) eqn:Ec.
  { rewrite (parse_line_changed _ _ Ec Hok). simpl.
    rewrite !orb_false_r, Z.add_0_r. reflexivity. }
  rewrite (parse_line_no_entry _ _ Ec Eu Et). unfold counts_of. simpl.
  rewrite !Z.add_0_r. reflexivity.
Qed.

Lemma parse_line_nonneg (line : string) (info : Info.t) :
  counts_nonneg info ->
  counts_nonneg (locals (GitOperations.parse_line line info)).
Proof.
  unfold counts_nonneg. intros (Ha & Hb & Hs & Hu & Ht).
  unfold GitOperations.parse_line.
  repeat match goal with
         | |- context [if ?b then _ else _] => destruct b
         end;
    run_parse;
    repeat match goal with
           | |- context [match ?x with Some _ => _ | None => _ end] =>
               destruct x; simpl
           | |- context [if ?b then _ else _] => destruct b; simpl
           end; repeat split; lia.
Qed.

Lemma parse_line_value (line : string) (info : Info.t) :
  value (GitOperations.parse_line line info) = Return tt
  \/ exists e, value (GitOperations.parse_line line info) = Raise e.
Proof.
  destruct (GitOperations.parse_line line info) as [[[[]|e] i] t]; simpl;
    eauto.
Qed.

(** Whether reading a line raises depends on the line only. *)
Lemma parse_line_value_indep (line : string) (i1 i2 : Info.t) :
  value (GitOperations.parse_line line i1)
  = value (GitOperations.parse_line line i2).
Proof.
  unfold GitOperations.parse_line.
  repeat match goal with
         | |- context [if ?b then _ else _] => destruct b
         end;
    run_parse; try reflexivity;
    repeat match goal with
           | |- context [match ?x with Some _ => _ | None => _ end] =>
               destruct x; simpl
           | |- context [if ?b then _ else _] => destruct b; simpl
           end; reflexivity.
Qed.

Lemma for_parse_nonneg (lines : list string) (info : Info.t) :
  counts_nonneg info ->
  counts_nonneg (locals (for_ lines GitOperations.parse_line info)).
Proof.
  revert info. induction lines as [|line lines IH]; intros info H; [exact H|].
  pose proof (parse_line_nonneg line info H) as Hn.
  destruct (GitOperations.parse_line line info) as [[[[]|e] i] t] eqn:E.
  - rewrite (for_cons_Return _ _ _ _ _ _ E). apply IH. exact Hn.
  - rewrite (for_cons_Raise _ _ _ _ _ _ _ E). exact Hn.
Qed.

Lemma count_lines_cons (p : string -> bool) (x : string) (l : list string) :
  count_lines p (x :: l) = b2z (p x) + count_lines p l.
Proof.
  unfold count_lines. simpl. destruct (p x); simpl length;
    rewrite ?Nat2Z.inj_succ; simpl b2z; lia.
Qed.

Lemma count_lines_pos (p : string -> bool) (l : list string) :
  Exists (fun x => p x = true) l -> 0 < count_lines p l.
Proof.
  induction 1 as [x l Hx | x l _ IH]; rewrite count_lines_cons.
  - rewrite Hx. unfold count_lines. simpl. lia.
  - unfold b2z. destruct (p x); lia.
Qed.

(** When the loop over the stream runs to its end, each count is the number
    of lines that add to it. *)
Lemma for_parse_counts (lines : list string) (info : Info.t) :
  value (for_ lines GitOperations.parse_line info) = Return tt ->
  counts_of (locals (for_ lines GitOperations.parse_line info))
  = (Info.staged_count info + count_lines adds_staged lines,
     Info.unstaged_count info + count_lines adds_unstaged lines,
     Info.untracked_count info + count_lines is_untracked_entry lines).
Proof.
  revert info. induction lines as [|line lines IH]; intros info Hok.
  - unfold counts_of, count_lines. simpl. rewrite !Z.add_0_r. reflexivity.
  - destruct (GitOperations.parse_line line info) as [[[[]|e] i] t] eqn:E.
    + rewrite (for_cons_Return _ _ _ _ _ _ E) in *. simpl in Hok.
      unfold locals at 1. simpl. fold (locals (for_ lines GitOperations.parse_line i)).
      rewrite (IH i Hok).
      assert (Hv : value (GitOperations.parse_line line info) = Return tt)
        by (rewrite E; reflexivity).
      pose proof (parse_line_counts line info Hv) as Hc.
      rewrite E in Hc. unfold counts_of, locals in Hc. simpl in Hc.
      injection Hc as -> -> ->.
      rewrite !count_lines_cons, !Z.add_assoc. reflexivity.
    + rewrite (for_cons_Raise _ _ _ _ _ _ _ E) in Hok. discriminate.
Qed.

Lemma probe_eq (world : World) (repo_path : Path) :
  probe world repo_path
  = locals (for_ (status_lines world repo_path) GitOperations.parse_line
              Info.initial).
Proof.
  unfold probe, result_of, GitOperations.get_status_porcelain, call, bind,
    try_, GitOperations._run, status_lines, value, locals, get, ret. simpl.
  destruct (git world repo_path _) as [out|e]; simpl; [|reflexivity].
  destruct (CompletedProcess.returncode out =? 0); simpl; [|reflexivity].
  destruct (for_ _ _ _) as [[[[]|e] i] t]; reflexivity.
Qed.

Lemma probe_nonneg (world : World) (repo_path : Path) :
  counts_nonneg (probe world repo_path).
Proof.
  rewrite probe_eq. apply for_parse_nonneg.
  unfold counts_nonneg. simpl. lia.
Qed.

(** ** The status classifier *)

Section Classifier.
Context (world : World) (repo : GitRepository.t).

Lemma classify_run (info : Info.t) (s0 : RepositoryStatus.t) :
  exists t,
    GitRepository.classify world repo info s0
    = (Return tt,
       RepositoryStatus.mk
         (RepositoryStatus.path s0) (RepositoryStatus.name s0)
         (Info.branch info) (Info.remote_branch info)
         (if Str.truthy (Info.remote_branch info) then
            if (0 <? Info.ahead info) && (0 <? Info.behind info)
            then SyncStatus.DIVERGED
            else if 0 <? Info.ahead info then SyncStatus.AHEAD
            else if 0 <? Info.behind info then SyncStatus.BEHIND
            else SyncStatus.CLEAN
          else if String.eqb (Info.branch info) "(detached)"
          then SyncStatus.DETACHED
          else if remotes_configured world (GitRepository.path repo)
          then SyncStatus.NO_UPSTREAM
          else SyncStatus.NO_REMOTE)
         (Info.ahead info) (Info.behind info) (Info.staged_count info)
         (Info.unstaged_count info) (Info.untracked_count info)
         (RepositoryStatus.last_commit_date s0)
         (RepositoryStatus.error_message s0),
       t).
Proof.
  unfold GitRepository.classify, bind, modify, get. simpl.
  destruct (Str.truthy (Info.remote_branch info)).
  - destruct ((0 <? Info.ahead info) && (0 <? Info.behind info));
      [|destruct (0 <? Info.ahead info); [|destruct (0 <? Info.behind info)]];
      simpl; eauto.
  - destruct (String.eqb (Info.branch info) "(detached)"); simpl; [eauto|].
    rewrite has_remotes_run. simpl.
    destruct (remotes_configured world (GitRepository.path repo)); simpl;
      eauto.
Qed.

Lemma probe_and_classify_run (s0 : RepositoryStatus.t) :
  let info := probe world (GitRepository.path repo) in
  exists d t,
    GitRepository.probe_and_classify world repo s0
    = (Return tt,
       RepositoryStatus.mk
         (RepositoryStatus.path s0) (RepositoryStatus.name s0)
         (Info.branch info) (Info.remote_branch info)
         (if Str.truthy (Info.remote_branch info) then
            if (0 <? Info.ahead info) && (0 <? Info.behind info)
            then SyncStatus.DIVERGED
            else if 0 <? Info.ahead info then SyncStatus.AHEAD
            else if 0 <? Info.behind info then SyncStatus.BEHIND
            else SyncStatus.CLEAN
          else if String.eqb (Info.branch info) "(detached)"
          then SyncStatus.DETACHED
          else if remotes_configured world (GitRepository.path repo)
          then SyncStatus.NO_UPSTREAM
          else SyncStatus.NO_REMOTE)
         (Info.ahead info) (Info.behind info) (Info.staged_count info)
         (Info.unstaged_count info) (Info.untracked_count info)
         d (RepositoryStatus.error_message s0),
       t).
Proof.
  intros info. unfold GitRepository.probe_and_classify, bind.
  rewrite get_status_porcelain_run. fold info.
  destruct (classify_run info s0) as [t ->].
  match goal with |- context [GitOperations.get_last_commit_date ?w ?q ?s] =>
    destruct (get_last_commit_date_run w q s) as [d ->] end.
  simpl. eauto.
Qed.

End Classifier.

Section GetStatus.
Context (world : World) (repo : GitRepository.t).

Lemma status_of_cases (fetch_first : bool) :
  let p := GitRepository.path repo in
  let info := probe world p in
  let s0 := RepositoryStatus.new p (GitRepository.name repo) in
  (fetch_first = true /\ (fetch_result world p).1 = false
   /\ value (GitRepository.get_status world repo fetch_first tt)
      = Return (RepositoryStatus.set_error_message
                  ("Fetch failed: " +:+ (fetch_result world p).2)
                  (RepositoryStatus.set_sync_status SyncStatus.ERROR s0)))
  \/ ((fetch_first = false \/ (fetch_result world p).1 = true)
      /\ exists d,
          value (GitRepository.get_status world repo fetch_first tt)
          = Return
              (RepositoryStatus.mk p (GitRepository.name repo)
                 (Info.branch info) (Info.remote_branch info)
                 (if Str.truthy (Info.remote_branch info) then
                    if (0 <? Info.ahead info) && (0 <? Info.behind info)
                    then SyncStatus.DIVERGED
                    else if 0 <? Info.ahead info then SyncStatus.AHEAD
                    else if 0 <? Info.behind info then SyncStatus.BEHIND
                    else SyncStatus.CLEAN
                  else if String.eqb (Info.branch info) "(detached)"
                  then SyncStatus.DETACHED
                  else if remotes_configured world p then SyncStatus.NO_UPSTREAM
                  else SyncStatus.NO_REMOTE)
                 (Info.ahead info) (Info.behind info) (Info.staged_count info)
                 (Info.unstaged_count info) (Info.untracked_count info)
                 d "")).
Proof.
  intros p info s0.
  unfold GitRepository.get_status, call, try_, bind, value.
  fold p. fold s0.
  destruct fetch_first.
  - rewrite fetch_all_run. destruct (fetch_result world p) as [ok err].
    destruct ok; simpl.
    + right. split; [auto|].
      destruct (probe_and_classify_run world repo s0) as (d & t & ->).
      simpl. eauto.
    + left. auto.
  - right. split; [auto|].
    destruct (probe_and_classify_run world repo s0) as (d & t & ->).
    simpl. eauto.
Qed.

Lemma get_status_run {S} (s : S) (fetch_first : bool) :
  GitRepository.get_status world repo fetch_first s
  = (Return (status_of world repo fetch_first), s,
     trace_of (GitRepository.get_status world repo fetch_first)).
Proof.
  assert (exists st, value (GitRepository.get_status world repo fetch_first tt)
                     = Return st) as [st Hst].
  { destruct (status_of_cases fetch_first) as [(_ & _ & E) | (_ & d & E)];
      eauto. }
  unfold status_of, result_of, trace_of. rewrite Hst.
  revert Hst. unfold GitRepository.get_status.
  generalize (RepositoryStatus.new (GitRepository.path repo)
                (GitRepository.name repo)).
  intros s0. generalize tt. intros u E.
  unfold call, value, trace in *.
  destruct (bind _ _ s0) as [[r s1] t1]. simpl in *. subst r. reflexivity.
Qed.

Lemma status_of_path (fetch_first : bool) :
  RepositoryStatus.path (status_of world repo fetch_first)
  = GitRepository.path repo.
Proof.
  unfold status_of, result_of.
  destruct (status_of_cases fetch_first) as [(_ & _ & ->) | (_ & d & ->)];
    reflexivity.
Qed.

End GetStatus.

(** C3. On every probe record the classifier completes and assigns
    [sync_status] by first match: with an upstream branch, diverged when
    ahead > 0 and behind > 0, ahead when only ahead > 0, behind when only
    behind > 0, clean otherwise (both zero); else detached when the record
    reports a detached HEAD; else no_upstream when a remote is configured;
    else no_remote. [get_status] always returns: the status is [error] when
    a requested fetch failed, and otherwise carries the classifier's
    assignment for the record of the status probe. *)
Theorem classifier_first_match (world : World) (repo : GitRepository.t)
  (info : Info.t) (s0 : RepositoryStatus.t) (fetch_first : bool) :
  let p := GitRepository.path repo in
  let upstream := Info.remote_branch info in
  let ahead := Info.ahead info in
  let behind := Info.behind info in
  let detached := Info.branch info = "(detached)" in
  let classified := locals (GitRepository.classify world repo info s0) in
  let sync := RepositoryStatus.sync_status classified in
  value (GitRepository.classify world repo info s0) = Return tt
  /\ RepositoryStatus.ahead_count classified = ahead
  /\ RepositoryStatus.behind_count classified = behind
  /\ (upstream <> "" -> 0 < ahead -> 0 < behind -> sync = SyncStatus.DIVERGED)
  /\ (upstream <> "" -> 0 < ahead -> behind <= 0 -> sync = SyncStatus.AHEAD)
  /\ (upstream <> "" -> ahead <= 0 -> 0 < behind -> sync = SyncStatus.BEHIND)
  /\ (upstream <> "" -> ahead <= 0 -> behind <= 0 -> sync = SyncStatus.CLEAN)
  /\ (upstream = "" -> detached -> sync = SyncStatus.DETACHED)
  /\ (upstream = "" -> ~ detached -> remotes_configured world p = true ->
      sync = SyncStatus.NO_UPSTREAM)
  /\ (upstream = "" -> ~ detached -> remotes_configured world p = false ->
      sync = SyncStatus.NO_REMOTE)
  /\ exists status,
       value (GitRepository.get_status world repo fetch_first tt)
       = Return status
       /\ (fetch_first = true -> (fetch_result world p).1 = false ->
           RepositoryStatus.sync_status status = SyncStatus.ERROR)
       /\ (fetch_first = false \/ (fetch_result world p).1 = true ->
           RepositoryStatus.sync_status status
           = RepositoryStatus.sync_status
               (locals (GitRepository.classify world repo (probe world p)
                          (RepositoryStatus.new p (GitRepository.name repo))))).
Proof.
  intros p upstream ahead behind detached classified sync. subst p.
  assert (Hget : exists status,
    value (GitRepository.get_status world repo fetch_first tt) = Return status
    /\ (fetch_first = true -> (fetch_result world (GitRepository.path repo)).1 = false ->
        RepositoryStatus.sync_status status = SyncStatus.ERROR)
    /\ (fetch_first = false \/ (fetch_result world (GitRepository.path repo)).1 = true ->
        RepositoryStatus.sync_status status
        = RepositoryStatus.sync_status
            (locals (GitRepository.classify world repo (probe world (GitRepository.path repo))
                       (RepositoryStatus.new (GitRepository.path repo) (GitRepository.name repo)))))).
  { destruct (status_of_cases world repo fetch_first)
      as [(Hf & Hfail & ->) | (Hok & d & ->)].
    - eexists. split; [reflexivity|]. split; [reflexivity|].
      intros [E|E]; congruence.
    - eexists. split; [reflexivity|].
      split; [intros E1 E2; destruct Hok; congruence|]. intros _.
      destruct (classify_run world repo (probe world (GitRepository.path repo))
                  (RepositoryStatus.new (GitRepository.path repo) (GitRepository.name repo)))
        as [t' ->].
      reflexivity. }
  subst classified sync.
  destruct (classify_run world repo info s0) as [t ->].
  unfold value, locals. simpl. fold upstream ahead behind.
  assert (Hup : Str.truthy upstream = true <-> upstream <> "").
  { destruct upstream; simpl; split; intro; congruence. }
  assert (Hdet : String.eqb (Info.branch info) "(detached)" = true
                 <-> detached) by apply String.eqb_eq.
  split; [reflexivity|]. split; [reflexivity|]. split; [reflexivity|].
  match goal with |- (_ -> _ -> _ -> ?c = _) /\ _ => set (chain := c) end.
  assert (Hcases :
    (upstream <> "" -> 0 < ahead -> 0 < behind -> chain = SyncStatus.DIVERGED)
    /\ (upstream <> "" -> 0 < ahead -> behind <= 0 -> chain = SyncStatus.AHEAD)
    /\ (upstream <> "" -> ahead <= 0 -> 0 < behind -> chain = SyncStatus.BEHIND)
    /\ (upstream <> "" -> ahead <= 0 -> behind <= 0 -> chain = SyncStatus.CLEAN)
    /\ (upstream = "" -> detached -> chain = SyncStatus.DETACHED)
    /\ (upstream = "" -> ~ detached -> remotes_configured world (GitRepository.path repo) = true ->
        chain = SyncStatus.NO_UPSTREAM)
    /\ (upstream = "" -> ~ detached -> remotes_configured world (GitRepository.path repo) = false ->
        chain = SyncStatus.NO_REMOTE)).
  { subst chain.
    destruct (Str.truthy upstream) eqn:Eu.
    - destruct (Z.ltb_spec 0 ahead), (Z.ltb_spec 0 behind); simpl;
        repeat split; intros; try reflexivity; try lia;
        exfalso; subst; intuition congruence.
    - assert (upstream = "") by (destruct upstream; [reflexivity|discriminate]).
      destruct (String.eqb (Info.branch info) "(detached)") eqn:Ed.
      + repeat split; intros; try reflexivity; try congruence;
          exfalso; intuition congruence.
      + destruct (remotes_configured world (GitRepository.path repo)); repeat split; intros;
          try reflexivity; try congruence; exfalso; intuition congruence. }
  destruct Hcases as (H1 & H2 & H3 & H4 & H5 & H6 & H7).
  repeat (split; [assumption|]).
  exact Hget.
Qed.

(** The probe never records an ahead or a behind count: the header line
    "# branch.ab +N -M" splits into four parts, not three, and in a line of
    three parts the second, "branch.ab", is no integer. Every status that
    [get_status] builds therefore has both counts at zero. *)
Lemma startswith_app (line p : string) :
  Str.startswith line p = true -> exists rest, line = p +:+ rest.
Proof.
  unfold Str.startswith. revert line.
  induction p as [|a p IH]; intros line H; [exists line; reflexivity|].
  destruct line as [|c line]; simpl in H; [discriminate|].
  destruct (ascii_dec a c); [subst|discriminate].
  destruct (IH line H) as [rest ->]. exists rest. reflexivity.
Qed.

Lemma parse_line_ahead_behind (line : string) (info : Info.t) :
  Info.ahead (locals (GitOperations.parse_line line info)) = Info.ahead info
  /\ Info.behind (locals (GitOperations.parse_line line info))
     = Info.behind info.
Proof.
  unfold GitOperations.parse_line.
  destruct (Str.startswith line "# branch.head "); [split; reflexivity|].
  destruct (Str.startswith line "# branch.upstream "); [split; reflexivity|].
  destruct (Str.startswith line "# branch.ab ") eqn:Eab.
  - apply startswith_app in Eab as [rest ->].
    cbv zeta.
    assert (Hnth : nth 1 (Str.split ("# branch.ab " +:+ rest)) ""
                   = "branch.ab").
    { destruct rest as [|c rest]; [reflexivity|]. simpl.
      destruct (Str.isspace c); reflexivity. }
    destruct (length _ =? 3)%nat; [|split; reflexivity].
    unfold bind at 1. rewrite Hnth. split; reflexivity.
  - repeat match goal with
           | |- context [if ?b then _ else _] => destruct b
           end;
      run_parse; try (split; reflexivity);
      repeat match goal with
             | |- context [match ?x with Some _ => _ | None => _ end] =>
                 destruct x; simpl
             | |- context [if ?b then _ else _] => destruct b; simpl
             end; split; reflexivity.
Qed.

Lemma probe_ahead_behind_zero (world : World) (repo_path : Path) :
  Info.ahead (probe world repo_path) = 0
  /\ Info.behind (probe world repo_path) = 0.
Proof.
  rewrite probe_eq. generalize (status_lines world repo_path). intros lines.
  assert (H : forall info,
             Info.ahead (locals (for_ lines GitOperations.parse_line info))
             = Info.ahead info
             /\ Info.behind (locals (for_ lines GitOperations.parse_line info))
                = Info.behind info).
  { induction lines as [|line lines IH]; intros info; [split; reflexivity|].
    destruct (parse_line_ahead_behind line info) as [Ha Hb].
    destruct (GitOperations.parse_line line info) as [[[[]|e] i] t] eqn:E.
    - rewrite (for_cons_Return _ _ _ _ _ _ E). unfold locals at 1 3. simpl.
      destruct (IH i) as [-> ->]. split; assumption.
    - rewrite (for_cons_Raise _ _ _ _ _ _ _ E). split; assumption. }
  apply (H Info.initial).
Qed.

Lemma count_lines_mono (p q : string -> bool) (l : list string) :
  (forall x, p x = true -> q x = true) -> count_lines p l <= count_lines q l.
Proof.
  intros Hpq. induction l as [|x l IH]; [reflexivity|].
  rewrite !count_lines_cons. specialize (Hpq x).
  destruct (p x), (q x); simpl; try lia; discriminate (Hpq eq_refl).
Qed.

Lemma count_lines_ext (p q : string -> bool) (l : list string) :
  Forall (fun x => p x = q x) l -> count_lines p l = count_lines q l.
Proof.
  induction 1 as [|x l Hx _ IH]; [reflexivity|].
  rewrite !count_lines_cons, Hx, IH. reflexivity.
Qed.

Lemma count_lines_none (p : string -> bool) (l : list string) :
  Forall (fun x => p x = false) l -> count_lines p l = 0.
Proof.
  induction 1 as [|x l Hx _ IH]; [reflexivity|].
  rewrite count_lines_cons, Hx, IH. reflexivity.
Qed.

(** C10. Reading an unmerged entry (a line beginning with "u ") adds one to
    the staged and one to the unstaged count. Hence, when the status stream
    is read to its end, both counts of the resulting status are at least the
    number of unmerged entries; a stream with an unmerged entry yields a
    dirty working tree with staged + unstaged > 0; and when the unmerged
    entries are the only entries, both counts equal their number. *)
Theorem unmerged_entries_count_twice (world : World) (repo : GitRepository.t)
  (fetch_first : bool) (S : Type) (s : S) :
  let p := GitRepository.path repo in
  let lines := status_lines world p in
  let unmerged := count_lines is_unmerged_entry lines in
  (forall line info,
      is_unmerged_entry line = true ->
      GitOperations.parse_line line info
      = (Return tt, Info.incr_unstaged_count (Info.incr_staged_count info), []))
  /\ (fetch_first = false \/ (fetch_result world p).1 = true ->
      value (for_ lines GitOperations.parse_line Info.initial) = Return tt ->
      exists st,
        value (GitRepository.get_status world repo fetch_first s) = Return st
        /\ unmerged <= RepositoryStatus.staged_count st
        /\ unmerged <= RepositoryStatus.unstaged_count st
        /\ (Exists (fun l => is_unmerged_entry l = true) lines ->
            RepositoryStatus.working_tree_status st = WorkingTreeStatus.DIRTY
            /\ 0 < RepositoryStatus.staged_count st
                   + RepositoryStatus.unstaged_count st)
        /\ (Forall (fun l => is_changed_entry l = false
                             /\ is_untracked_entry l = false) lines ->
            RepositoryStatus.staged_count st = unmerged
            /\ RepositoryStatus.unstaged_count st = unmerged
            /\ RepositoryStatus.untracked_count st = 0)).
Proof.
  intros p lines unmerged. subst p. split; [apply parse_line_unmerged|].
  intros Hfetch Hread.
  rewrite get_status_run. exists (status_of world repo fetch_first).
  split; [reflexivity|].
  unfold status_of, result_of.
  destruct (status_of_cases world repo fetch_first)
    as [(Hf & Hfail & _) | (_ & d & ->)].
  { destruct Hfetch; congruence. }
  simpl.
  pose proof (for_parse_counts lines Info.initial Hread) as Hc.
  fold lines in Hc. unfold lines at 1 in Hc. rewrite <- probe_eq in Hc.
  unfold counts_of in Hc. simpl in Hc. rewrite !Z.add_0_l in Hc.
  injection Hc as Hs Hu Ht. rewrite Hs, Hu, Ht.
  assert (Hms : unmerged <= count_lines adds_staged lines).
  { apply count_lines_mono. intros x Hx. unfold adds_staged.
    rewrite Hx. apply orb_true_r. }
  assert (Hmu : unmerged <= count_lines adds_unstaged lines).
  { apply count_lines_mono. intros x Hx. unfold adds_unstaged.
    rewrite Hx. apply orb_true_r. }
  split; [exact Hms|]. split; [exact Hmu|]. split.
  - intros Hex. apply count_lines_pos in Hex. fold lines unmerged in Hex.
    split; [|lia].
    unfold RepositoryStatus.working_tree_status. simpl.
    destruct (Z.ltb_spec 0 (count_lines adds_staged lines));
      [reflexivity | lia].
  - intros Hall. repeat split.
    + apply count_lines_ext. eapply Forall_impl; [exact Hall|].
      intros x [Hx _]. unfold adds_staged. rewrite Hx. reflexivity.
    + apply count_lines_ext. eapply Forall_impl; [exact Hall|].
      intros x [Hx _]. unfold adds_unstaged. rewrite Hx. reflexivity.
    + apply count_lines_none. eapply Forall_impl; [exact Hall|].
      intros x [_ Hx]. exact Hx.
Qed.

(** ** The order on paths and the stable sort *)

Lemma string_compare_refl (s : string) : String.compare s s = Eq.
Proof.
  pose proof (String.compare_antisym s s) as H.
  destruct (String.compare s s); simpl in H; congruence.
Qed.

Lemma string_compare_eq (x y : string) : String.compare x y = Eq <-> x = y.
Proof.
  split; [apply String.compare_eq_iff|intros ->; apply string_compare_refl].
Qed.

Lemma string_compare_flip (x y : string) :
  String.compare y x = CompOpp (String.compare x y).
Proof. apply String.compare_antisym. Qed.

Lemma string_compare_lt_trans (x y z : string) :
  String.compare x y = Lt -> String.compare y z = Lt -> String.compare x z = Lt.
Proof.
  intros Hxy Hyz.
  assert (Hle : String.le x z).
  { transitivity y; unfold String.le, String.leb; [rewrite Hxy|rewrite Hyz];
      exact I. }
  unfold String.le, String.leb in Hle.
  destruct (String.compare x z) eqn:E; [|reflexivity|contradiction].
  apply String.compare_eq_iff in E. subst z.
  rewrite string_compare_flip, Hxy in Hyz. discriminate.
Qed.

Lemma string_compare_trans (x y z : string) (c : comparison) :
  String.compare x y = c -> String.compare y z = c -> String.compare x z = c.
Proof.
  destruct c; intros Hxy Hyz.
  - apply String.compare_eq_iff in Hxy, Hyz. subst. apply string_compare_refl.
  - eapply string_compare_lt_trans; eassumption.
  - rewrite string_compare_flip in Hxy, Hyz |- *.
    apply (f_equal CompOpp) in Hxy, Hyz. rewrite CompOpp_involutive in Hxy, Hyz.
    simpl in Hxy, Hyz.
    rewrite (string_compare_lt_trans z y x Hyz Hxy). reflexivity.
Qed.

Lemma path_compare_flip (p q : Path) :
  PurePath.compare q p = CompOpp (PurePath.compare p q).
Proof.
  apply list_compare_antisym; [apply string_compare_eq|].
  intros x y. apply string_compare_flip.
Qed.

Lemma path_compare_eq (p q : Path) : PurePath.compare p q = Eq <-> p = q.
Proof. apply list_compare_refl, string_compare_eq. Qed.

Lemma path_compare_trans (p q r : Path) (c : comparison) :
  PurePath.compare p q = c -> PurePath.compare q r = c ->
  PurePath.compare p r = c.
Proof.
  apply list_compare_trans.
  - apply string_compare_eq.
  - intros x y z c'. apply string_compare_trans.
  - intros x y. apply string_compare_flip.
Qed.

#[global] Instance path_le_refl : Reflexive PurePath.le.
Proof.
  intros p. unfold PurePath.le, PurePath.leb.
  rewrite (proj2 (path_compare_eq p p) eq_refl). reflexivity.
Qed.

#[global] Instance path_le_trans : Transitive PurePath.le.
Proof.
  intros p q r. unfold PurePath.le, PurePath.leb.
  destruct (PurePath.compare p q) eqn:Epq; [| |discriminate].
  - apply path_compare_eq in Epq as ->. auto.
  - destruct (PurePath.compare q r) eqn:Eqr; [| |discriminate].
    + apply path_compare_eq in Eqr as ->. rewrite Epq. auto.
    + rewrite (path_compare_trans p q r Lt Epq Eqr). auto.
Qed.

#[global] Instance path_le_total : Total PurePath.le.
Proof.
  intros p q. unfold PurePath.le, PurePath.leb.
  rewrite (path_compare_flip p q).
  destruct (PurePath.compare p q); simpl; auto.
Qed.

#[global] Instance path_le_antisym : AntiSymm (=) PurePath.le.
Proof.
  intros p q. unfold PurePath.le, PurePath.leb.
  rewrite (path_compare_flip p q).
  destruct (PurePath.compare p q) eqn:E; simpl; try discriminate.
  intros _ _. apply path_compare_eq. exact E.
Qed.

Section SortFacts.
Context {A : Type} (key : A -> Path).

#[local] Abbreviation key_le := (key_le key).

#[local] Instance key_le_trans : Transitive key_le.
Proof. intros a b c. unfold key_le. apply path_le_trans. Qed.

Lemma sort_insert_Permutation (x : A) (l : list A) :
  sort_insert key x l ≡ₚ x :: l.
Proof.
  induction l as [|y l IH]; simpl; [reflexivity|].
  destruct (PurePath.leb (key x) (key y)); [reflexivity|].
  rewrite IH. apply perm_swap.
Qed.

Lemma list_sort_Permutation (l : list A) : list_sort key l ≡ₚ l.
Proof.
  induction l as [|x l IH]; simpl; [reflexivity|].
  rewrite sort_insert_Permutation, IH. reflexivity.
Qed.

Lemma sort_insert_Sorted (x : A) (l : list A) :
  Sorted key_le l -> Sorted key_le (sort_insert key x l).
Proof.
  induction 1 as [|y l Hl IH Hhd]; simpl.
  - repeat constructor.
  - destruct (PurePath.leb (key x) (key y)) eqn:E.
    + constructor; [constructor; assumption|]. constructor. exact E.
    + constructor; [exact IH|].
      assert (Hyx : key_le y x).
      { destruct (path_le_total (key x) (key y)) as [H|H]; [|exact H].
        unfold PurePath.le in H. congruence. }
      destruct Hhd as [|z l Hyz]; simpl.
      * constructor. exact Hyx.
      * destruct (PurePath.leb (key x) (key z)); constructor; assumption.
Qed.

Lemma list_sort_Sorted (l : list A) : Sorted key_le (list_sort key l).
Proof.
  induction l as [|x l IH]; simpl; [constructor|].
  apply sort_insert_Sorted, IH.
Qed.

Lemma list_sort_StronglySorted (l : list A) :
  StronglySorted key_le (list_sort key l).
Proof. apply Sorted_StronglySorted; [apply _|apply list_sort_Sorted]. Qed.

(** Two orders of the same results sort to the same list when results with
    equal keys are equal. *)
Lemma list_sort_unique (l1 l2 : list A) :
  (forall a b, a ∈ l1 -> b ∈ l1 -> key a = key b -> a = b) ->
  l1 ≡ₚ l2 -> list_sort key l1 = list_sort key l2.
Proof.
  intros Hinj Hperm.
  apply (StronglySorted_unique_strong key_le).
  - intros a b Ha Hb Hab Hba.
    rewrite list_sort_Permutation in Ha.
    rewrite list_sort_Permutation, <- Hperm in Hb.
    apply Hinj; [assumption..|].
    apply (anti_symm PurePath.le); assumption.
  - apply list_sort_StronglySorted.
  - apply list_sort_StronglySorted.
  - rewrite !list_sort_Permutation. exact Hperm.
Qed.

(** A list already in order is left as it is. *)
Lemma list_sort_sorted_id (l : list A) :
  Sorted key_le l -> list_sort key l = l.
Proof.
  induction 1 as [|x l Hl IH Hhd]; simpl; [reflexivity|].
  rewrite IH. destruct Hhd as [|y l Hxy]; simpl; [reflexivity|].
  unfold key_le, PurePath.le in Hxy. rewrite Hxy. reflexivity.
Qed.

Lemma Sorted_filter (p : A -> bool) (l : list A) :
  Sorted key_le l -> Sorted key_le (List.filter p l).
Proof.
  intros H. apply Sorted_StronglySorted in H; [|apply _].
  apply StronglySorted_Sorted.
  induction H as [|x l Hl IH Hall]; simpl; [constructor|].
  destruct (p x); [|exact IH].
  constructor; [exact IH|].
  rewrite Forall_forall in Hall |- *. intros y Hy.
  apply Hall. apply list_elem_of_In in Hy. apply filter_In in Hy as [Hy _].
  apply list_elem_of_In. exact Hy.
Qed.

End SortFacts.

(** ** Worker pools *)

Lemma as_completed_Permutation {A} (width : nat) (sched : Schedule)
  (pending : list A) :
  as_completed width sched pending ≡ₚ pending.
Proof.
  revert pending. induction sched as [|k sched IH]; intros pending; simpl;
    [reflexivity|].
  destruct (pending !! _) as [x|] eqn:E; [|reflexivity].
  rewrite IH. symmetry. apply delete_Permutation. exact E.
Qed.

Lemma as_completed_length {A} (width : nat) (sched : Schedule)
  (pending : list A) :
  length (as_completed width sched pending) = length pending.
Proof. apply Permutation_length, as_completed_Permutation. Qed.

Lemma as_completed_map {A B} (f : A -> B) (width : nat) (sched : Schedule)
  (pending : list A) :
  as_completed width sched (map f pending)
  = map f (as_completed width sched pending).
Proof.
  revert pending. induction sched as [|k sched IH]; intros pending; simpl;
    [reflexivity|].
  rewrite length_map.
  change (map f pending) with (f <$> pending).
  rewrite list_lookup_fmap.
  destruct (pending !! _) as [x|] eqn:E; simpl; [|reflexivity].
  rewrite <- list_fmap_delete.
  change (f <$> delete (k mod Nat.min width (length pending))%nat pending)
    with (map f (delete (k mod Nat.min width (length pending))%nat pending)).
  rewrite IH. reflexivity.
Qed.

(** One worker completes the tasks in submission order. *)
Lemma as_completed_one {A} (sched : Schedule) (pending : list A) :
  as_completed 1 sched pending = pending.
Proof.
  revert pending. induction sched as [|k sched IH]; intros pending; simpl;
    [reflexivity|].
  destruct pending as [|x pending]; [reflexivity|].
  change (Nat.min 1 (length (x :: pending))) with 1%nat.
  rewrite Nat.mod_1_r. simpl. rewrite IH. reflexivity.
Qed.

(** Every order of completion is the outcome of some schedule, once the
    pool is wide enough to run all tasks at once. *)
Lemma as_completed_complete {A} (width : nat) (l l' : list A) :
  (length l <= width)%nat -> l ≡ₚ l' ->
  exists sched, as_completed width sched l = l'.
Proof.
  intros Hw H. revert l Hw H. induction l' as [|x l' IH]; intros l Hw H.
  - apply Permutation_nil_r in H. subst. exists []. reflexivity.
  - assert (Hx : x ∈ l) by (rewrite H; left).
    apply list_elem_of_lookup in Hx as [i Hi].
    assert (Hlt : (i < length l)%nat) by (eapply lookup_lt_Some; eassumption).
    assert (Hperm : delete i l ≡ₚ l').
    { apply (Permutation_cons_inv (a := x)).
      rewrite <- delete_Permutation by exact Hi. exact H. }
    assert (Hlen : (length (delete i l) <= width)%nat).
    { rewrite length_delete by eauto. lia. }
    destruct (IH _ Hlen Hperm) as [sched Hs].
    exists (i :: sched). simpl.
    rewrite (Nat.min_r _ _ Hw), Nat.mod_small by exact Hlt.
    rewrite Hi, Hs. reflexivity.
Qed.

(** ** Composing runs *)

Lemma returns_ret {S A} (a : A) (s : S) : returns (ret a) s a s.
Proof. exists []. reflexivity. Qed.

Lemma returns_bind {S A B} (m : Py S A) (k : A -> Py S B) s a s1 b s2 :
  returns m s a s1 -> returns (k a) s1 b s2 -> returns (bind m k) s b s2.
Proof.
  intros [t1 E1] [t2 E2]. exists (t1 ++ t2).
  unfold bind. rewrite E1, E2. reflexivity.
Qed.

Lemma returns_value {S A} (m : Py S A) s a s1 :
  returns m s a s1 -> value (m s) = Return a /\ locals (m s) = s1.
Proof. intros [t E]. rewrite E. split; reflexivity. Qed.

Lemma returns_call {S A} (m : Py unit A) (s : S) (a : A) :
  value (m tt) = Return a -> returns (call tt m) s a s.
Proof. intros E. exists (trace (m tt)). apply call_run. exact E. Qed.

Lemma returns_map_ {S A B} (f : A -> Py S B) (g : A -> B) (xs : list A) s :
  (forall x, returns (f x) s (g x) s) -> returns (map_ f xs) s (map g xs) s.
Proof.
  intros H. induction xs as [|x xs IH]; simpl; [apply returns_ret|].
  eapply returns_bind; [apply H|].
  eapply returns_bind; [apply IH|]. apply returns_ret.
Qed.

Lemma returns_filter_ {S A} (p : A -> Py S bool) (b : A -> bool)
  (xs : list A) s :
  (forall x, returns (p x) s (b x) s) ->
  returns (filter_ p xs) s (List.filter b xs) s.
Proof.
  intros H. induction xs as [|x xs IH]; simpl; [apply returns_ret|].
  eapply returns_bind; [apply H|].
  eapply returns_bind; [apply IH|].
  destruct (b x); apply returns_ret.
Qed.

Lemma returns_filter_if {S A} (p : A -> Py S bool) (b : A -> bool)
  (c : bool) (xs : list A) s :
  (forall x, returns (p x) s (b x) s) ->
  returns (if c then filter_ p xs else ret xs) s
    (if c then List.filter b xs else xs) s.
Proof.
  intros H. destruct c; [apply returns_filter_, H|apply returns_ret].
Qed.

Lemma results_all {X R} (task : X -> Py unit R) (f : X -> R) (xs : list X) :
  (forall x, value (task x tt) = Return (f x)) ->
  results_ (map (fun x => (x, task x tt)) xs)
  = Return (map (fun x => (x, f x)) xs).
Proof.
  intros H. induction xs as [|x xs IH]; simpl; [reflexivity|].
  specialize (H x). unfold value in H.
  destruct (task x tt) as [[r u] t]. simpl in H. subst r.
  rewrite IH. reflexivity.
Qed.

(** A pool of positive width whose tasks all return hands back every
    result, in completion order. *)
Lemma ThreadPoolExecutor_returns {S X R} (max_workers : Z) (sched : Schedule)
  (task : X -> Py unit R) (f : X -> R) (xs : list X) (s : S) :
  0 < max_workers ->
  (forall x, value (task x tt) = Return (f x)) ->
  returns (ThreadPoolExecutor max_workers sched task xs) s
    (map (fun x => (x, f x)) (as_completed (Z.to_nat max_workers) sched xs)) s.
Proof.
  intros Hw H. unfold ThreadPoolExecutor, returns.
  destruct (Z.leb_spec max_workers 0); [lia|].
  eexists. rewrite as_completed_map, (results_all task f _ H). reflexivity.
Qed.

Lemma ThreadPoolExecutor_width {S X R} (max_workers : Z) (sched : Schedule)
  (task : X -> Py unit R) (xs : list X) (s : S) :
  max_workers <= 0 ->
  exists e, ThreadPoolExecutor max_workers sched task xs s = (Raise e, s, []).
Proof.
  intros Hw. unfold ThreadPoolExecutor.
  destruct (Z.leb_spec max_workers 0); [|lia]. eexists. reflexivity.
Qed.

(** ** What a run leaves in the trace *)

Section Emits.
Context (P : Event -> Prop).

Lemma emits_ret {S A} (a : A) : emits_only (S := S) P (ret a).
Proof. intros s. constructor. Qed.

Lemma emits_raise {S A} (e : string) : emits_only (S := S) (A := A) P (raise e).
Proof. intros s. constructor. Qed.

Lemma emits_get {S} : emits_only (S := S) P get.
Proof. intros s. constructor. Qed.

Lemma emits_modify {S} (f : S -> S) : emits_only P (modify f).
Proof. intros s. constructor. Qed.

Lemma emits_bind {S A B} (m : Py S A) (k : A -> Py S B) :
  emits_only P m -> (forall a, emits_only P (k a)) -> emits_only P (bind m k).
Proof.
  intros Hm Hk s. specialize (Hm s). unfold bind, trace in *.
  destruct (m s) as [[[a|e] s1] t1]; simpl in *; [|exact Hm].
  specialize (Hk a s1). unfold trace in Hk.
  destruct (k a s1) as [[r s2] t2]. simpl in *.
  apply Forall_app. split; assumption.
Qed.

Lemma bind_ret_l {S A B} (a : A) (k : A -> Py S B) (s : S) :
  bind (ret a) k s = k a s.
Proof. unfold bind, ret. destruct (k a s) as [[r s2] t2]. reflexivity. Qed.

Lemma emits_bind_ret {S A B} (a : A) (k : A -> Py S B) :
  emits_only P (k a) -> emits_only P (bind (ret a) k).
Proof. intros H s. rewrite bind_ret_l. apply H. Qed.

Lemma emits_try {S A} (m : Py S A) (h : string -> Py S A) :
  emits_only P m -> (forall e, emits_only P (h e)) -> emits_only P (try_ m h).
Proof.
  intros Hm Hh s. specialize (Hm s). unfold try_, trace in *.
  destruct (m s) as [[[a|e] s1] t1]; simpl in *; [exact Hm|].
  specialize (Hh e s1). unfold trace in Hh.
  destruct (h e s1) as [[r s2] t2]. simpl in *.
  apply Forall_app. split; assumption.
Qed.

Lemma emits_call {S S' A} (l : S') (m : Py S' A) :
  emits_only P m -> emits_only (S := S) P (call l m).
Proof. intros Hm s. rewrite call_trace. apply Hm. Qed.

Lemma emits_for {S A} (xs : list A) (body : A -> Py S unit) :
  (forall x, emits_only P (body x)) -> emits_only P (for_ xs body).
Proof.
  intros H. induction xs as [|x xs IH]; simpl; [apply emits_ret|].
  apply emits_bind; [apply H|intros _; exact IH].
Qed.

Lemma emits_map_ {S A B} (f : A -> Py S B) (xs : list A) :
  (forall x, emits_only P (f x)) -> emits_only P (map_ f xs).
Proof.
  intros H. induction xs as [|x xs IH]; simpl; [apply emits_ret|].
  apply emits_bind; [apply H|intros y].
  apply emits_bind; [exact IH|intros ys; apply emits_ret].
Qed.

Lemma emits_filter_ {S A} (p : A -> Py S bool) (xs : list A) :
  (forall x, emits_only P (p x)) -> emits_only P (filter_ p xs).
Proof.
  intros H. induction xs as [|x xs IH]; simpl; [apply emits_ret|].
  apply emits_bind; [apply H|intros y].
  apply emits_bind; [exact IH|intros ys; apply emits_ret].
Qed.

Lemma emits_run {S} (world : World) (p : Path) (args : list string) :
  P (Run p args) -> emits_only (S := S) P (GitOperations._run world p args).
Proof. intros H s. repeat constructor. exact H. Qed.

Lemma emits_pool {S X R} (w : Z) (sched : Schedule) (task : X -> Py unit R)
  (xs : list X) :
  P (Pool w) -> (forall x, emits_only P (task x)) ->
  emits_only (S := S) P (ThreadPoolExecutor w sched task xs).
Proof.
  intros Hp Ht s. unfold ThreadPoolExecutor.
  destruct (w <=? 0); [constructor|]. unfold trace at 1. simpl.
  constructor; [exact Hp|].
  apply Forall_concat, Forall_forall. intros t Hin.
  apply list_elem_of_In, in_map_iff in Hin as ([x r] & <- & Hin).
  apply list_elem_of_In in Hin.
  rewrite as_completed_Permutation in Hin.
  apply list_elem_of_In, in_map_iff in Hin as (x' & [= <- <-] & _).
  apply Ht.
Qed.

End Emits.

(** ** The execution engine *)

Lemma collected_Permutation {X} fm sched (xs : list X) sequential :
  collected fm sched xs sequential ≡ₚ xs.
Proof.
  unfold collected. destruct (_ || _); [reflexivity|].
  apply as_completed_Permutation.
Qed.

Section Engine.
Context (world : World) {R : Type} `{HasPath R}.
Context (operation : GitRepository.t -> Py unit R) (f : GitRepository.t -> R).
Hypothesis operation_returns : forall repo, value (operation repo tt) = Return (f repo).


Lemma execute_parallel_returns (fm : FleetManager.t) (sched : Schedule)
  (repos : list GitRepository.t) (sequential : bool) :
  sequential = true \/ 0 < FleetManager.max_workers fm ->
  returns (FleetManager._execute_parallel world sched operation (Some repos)
             sequential) fm
    (list_sort path_of (map f (collected fm sched repos sequential))) fm.
Proof.
  intros Hw. unfold FleetManager._execute_parallel, collected.
  eapply returns_bind; [apply returns_ret|].
  eapply returns_bind; [|apply returns_ret].
  destruct (sequential || (length repos <=? 1)%nat) eqn:E.
  - apply returns_map_. intros repo. apply returns_call, operation_returns.
  - destruct Hw as [-> | Hw]; [discriminate|].
    eapply returns_bind; [exists []; reflexivity|].
    eapply returns_bind.
    + apply (ThreadPoolExecutor_returns _ _ _ f _ _ Hw operation_returns).
    + rewrite map_map. simpl. apply returns_ret.
Qed.

Lemma execute_parallel_emits (P : Event -> Prop) (sched : Schedule)
  (repos : list GitRepository.t) (sequential : bool) :
  (forall repo, emits_only P (operation repo)) ->
  (sequential || (length repos <=? 1)%nat = true \/ forall w, P (Pool w)) ->
  emits_only P (FleetManager._execute_parallel world sched operation
                  (Some repos) sequential).
Proof.
  intros Hop Hpool. unfold FleetManager._execute_parallel.
  apply emits_bind_ret.
  apply emits_bind; [|intros ?; apply emits_ret].
  destruct (sequential || (length repos <=? 1)%nat) eqn:E.
  - apply emits_map_. intros repo. apply emits_call, Hop.
  - apply emits_bind; [apply emits_get|intros self].
    apply emits_bind; [|intros ?; apply emits_ret].
    apply emits_pool; [|exact Hop].
    destruct Hpool as [Hs | Hp]; [discriminate|apply Hp].
Qed.

End Engine.

Lemma GitRepository_path_inj (r1 r2 : GitRepository.t) :
  GitRepository.path r1 = GitRepository.path r2 -> r1 = r2.
Proof. destruct r1, r2; simpl; congruence. Qed.

Lemma ret_value {A} (a : A) : value (ret (S := unit) a tt) = Return a.
Proof. reflexivity. Qed.

(** C5. For a pure operation whose result carries the path of the
    repository it was run on, the engine returns the same list in
    sequential mode and in concurrent mode, whatever the pool's width and
    the order of completion: one result per handle, a permutation of the
    operation mapped over the handles, in ascending path order. No pool is
    created in sequential mode, nor for a list of zero or one handles. *)
Theorem execute_parallel_deterministic (world : World) {R : Type}
  `{HasPath R} (f : GitRepository.t -> R) (fm : FleetManager.t)
  (repos : list GitRepository.t) (sched : Schedule) :
  0 < FleetManager.max_workers fm ->
  (forall repo, path_of (f repo) = GitRepository.path repo) ->
  let operation := fun repo => ret (S := unit) (f repo) in
  let one_by_one :=
    FleetManager._execute_parallel world [] operation (Some repos) true fm in
  let pooled :=
    FleetManager._execute_parallel world sched operation (Some repos) false fm in
  exists results,
    value one_by_one = Return results
    /\ value pooled = Return results
    /\ length results = length repos
    /\ results ≡ₚ map f repos
    /\ Sorted (key_le path_of) results
    /\ Forall (fun ev => is_pool ev = false) (trace one_by_one)
    /\ ((length repos <= 1)%nat ->
        Forall (fun ev => is_pool ev = false) (trace pooled)).
Proof.
  intros Hw Hpath operation one_by_one pooled.
  assert (Hop : forall repo, value (operation repo tt) = Return (f repo))
    by (intros; reflexivity).
  destruct (returns_value _ _ _ _
              (execute_parallel_returns world operation f Hop fm [] repos true
                 (or_introl eq_refl))) as [E1 _].
  destruct (returns_value _ _ _ _
              (execute_parallel_returns world operation f Hop fm sched repos
                 false (or_intror Hw))) as [E2 _].
  fold one_by_one in E1. fold pooled in E2.
  exists (list_sort path_of (map f repos)).
  assert (Hties : forall a b, a ∈ map f repos -> b ∈ map f repos ->
                              path_of a = path_of b -> a = b).
  { intros a b Ha Hb Hab.
    apply list_elem_of_In, in_map_iff in Ha as (ra & <- & _).
    apply list_elem_of_In, in_map_iff in Hb as (rb & <- & _).
    rewrite !Hpath in Hab. apply GitRepository_path_inj in Hab. congruence. }
  split; [exact E1|]. split.
  { rewrite E2. f_equal. symmetry. apply list_sort_unique; [exact Hties|].
    apply Permutation_map. symmetry. apply collected_Permutation. }
  split.
  { rewrite (Permutation_length (list_sort_Permutation _ _)).
    apply length_map. }
  split; [apply list_sort_Permutation|].
  split; [apply list_sort_Sorted|].
  assert (Hquiet : forall repo,
             emits_only (fun ev => is_pool ev = false) (operation repo))
    by (intros repo; apply emits_ret).
  split.
  - apply (execute_parallel_emits world operation _ [] repos true Hquiet).
    left. reflexivity.
  - intros Hlen.
    apply (execute_parallel_emits world operation _ sched repos false Hquiet).
    left. simpl. apply Nat.leb_le. exact Hlen.
Qed.

(** ** Selecting what to pull *)

Lemma has_file_conflicts_value (world : World) (repo : GitRepository.t)
  {S} (s : S) :
  returns (GitRepository.has_file_conflicts world repo) s
    (file_conflicts world (GitRepository.path repo)) s.
Proof.
  unfold GitRepository.has_file_conflicts, returns.
  rewrite has_file_conflicts_run, <- file_conflicts_eq. eauto.
Qed.

Lemma partition_smart_eq (pairs : list (GitRepository.t * RepositoryStatus.t)) :
  FleetManager.partition_smart pairs
  = (map fst (List.filter
                (fun p => RepositoryStatus.needs_pull p.2
                          && negb (RepositoryStatus.has_conflict_risk p.2))
                pairs),
     map fst (List.filter
                (fun p => RepositoryStatus.needs_pull p.2
                          && RepositoryStatus.has_conflict_risk p.2)
                pairs)).
Proof.
  induction pairs as [|[repo status] pairs IH]; simpl; [reflexivity|].
  rewrite IH.
  destruct (RepositoryStatus.needs_pull status),
    (RepositoryStatus.has_conflict_risk status); reflexivity.
Qed.

Lemma filter_map_fst {A B} (q : A -> bool) (l : list (A * B)) :
  List.filter q (map fst l) = map fst (List.filter (fun p => q p.1) l).
Proof.
  induction l as [|[a b] l IH]; simpl; [reflexivity|].
  rewrite IH. destruct (q a); reflexivity.
Qed.

Lemma filter_and {A} (p q : A -> bool) (l : list A) :
  List.filter p (List.filter q l) = List.filter (fun x => q x && p x) l.
Proof.
  induction l as [|x l IH]; simpl; [reflexivity|].
  destruct (q x); simpl; [destruct (p x)|]; rewrite IH; reflexivity.
Qed.

Lemma filter_split_Permutation {A} (p1 p2 : A -> bool) (l : list A) :
  (forall x, p1 x && p2 x = false) ->
  List.filter p1 l ++ List.filter p2 l
  ≡ₚ List.filter (fun x => p1 x || p2 x) l.
Proof.
  intros Hdis. induction l as [|x l IH]; simpl; [reflexivity|].
  specialize (Hdis x).
  destruct (p1 x), (p2 x); simpl in *; try discriminate.
  - constructor. exact IH.
  - rewrite <- Permutation_middle. constructor. exact IH.
  - exact IH.
Qed.

Lemma filter_Permutation {A} (p : A -> bool) (l1 l2 : list A) :
  l1 ≡ₚ l2 -> List.filter p l1 ≡ₚ List.filter p l2.
Proof.
  induction 1 as [|x l1 l2 _ IH|x y l|l1 l2 l3 _ IH1 _ IH2]; simpl.
  - reflexivity.
  - destruct (p x); [constructor|]; exact IH.
  - destruct (p x), (p y); try reflexivity. apply perm_swap.
  - etransitivity; eassumption.
Qed.

Section Selection.
Context (world : World) (fm : FleetManager.t) (sched : Schedule)
  (sequential : bool).

(** The smart selection: the repositories without risk, then those cleared
    by the file-level check in the order their checks were collected. A pool
    is needed only for two or more checks outside sequential mode; a pool of
    no width raises. *)
Lemma select_smart_outcome (pairs : list (GitRepository.t * RepositoryStatus.t)) :
  let needs_check := (FleetManager.partition_smart pairs).2 in
  (sequential || (length needs_check <=? 1)%nat = true
   \/ 0 < FleetManager.max_workers fm ->
   returns (FleetManager.select_smart world sched sequential pairs) fm
     ((FleetManager.partition_smart pairs).1
      ++ List.filter
           (fun repo => negb (file_conflicts world (GitRepository.path repo)))
           (collected fm sched needs_check sequential))
     fm)
  /\ (sequential || (length needs_check <=? 1)%nat = false ->
      FleetManager.max_workers fm <= 0 ->
      exists e,
        value (FleetManager.select_smart world sched sequential pairs fm)
        = Raise e).
Proof.
  unfold FleetManager.select_smart, collected.
  destruct (FleetManager.partition_smart pairs) as [safe needs_check]. simpl.
  destruct needs_check as [|repo needs_check].
  { rewrite orb_true_r. simpl. rewrite app_nil_r.
    split; [intros _; apply returns_ret|discriminate]. }
  set (checks := repo :: needs_check).
  destruct (sequential || (length checks <=? 1)%nat) eqn:E.
  { split; [intros _|discriminate].
    eapply returns_bind; [|apply returns_ret].
    apply returns_filter_. intros r.
    eapply returns_bind; [apply has_file_conflicts_value|apply returns_ret]. }
  split.
  - intros [Hs | Hw]; [discriminate|].
    eapply returns_bind; [exists []; reflexivity|].
    eapply returns_bind.
    + apply (ThreadPoolExecutor_returns _ _ _
               (fun r => file_conflicts world (GitRepository.path r)) _ _ Hw).
      intros r. apply (returns_value _ _ _ _ (has_file_conflicts_value world r tt)).
    + match goal with |- returns (ret ?a) _ ?b _ =>
        replace b with a; [apply returns_ret|] end.
      f_equal.
      generalize (as_completed (Z.to_nat (FleetManager.max_workers fm)) sched
                    checks).
      intros l. induction l as [|x l IH]; simpl; [reflexivity|].
      destruct (file_conflicts world (GitRepository.path x)); simpl;
        rewrite IH; reflexivity.
  - intros _ Hw. unfold bind, get.
    destruct (ThreadPoolExecutor_width (S := FleetManager.t)
                (FleetManager.max_workers fm) sched
                (fun repo => GitRepository.has_file_conflicts world repo)
                checks fm Hw) as [e ->].
    exists e. reflexivity.
Qed.


Lemma smart_selection_Permutation
  (pairs : list (GitRepository.t * RepositoryStatus.t)) :
  (FleetManager.partition_smart pairs).1
  ++ List.filter
       (fun repo => negb (file_conflicts world (GitRepository.path repo)))
       (collected fm sched (FleetManager.partition_smart pairs).2 sequential)
  ≡ₚ map fst (List.filter (joins_pull_set world PullMode.SMART) pairs).
Proof.
  rewrite partition_smart_eq. simpl.
  rewrite (filter_Permutation _ _ _ (collected_Permutation fm sched _ sequential)).
  rewrite filter_map_fst, filter_and, <- map_app.
  apply Permutation_map.
  rewrite filter_split_Permutation.
  - erewrite filter_ext; [reflexivity|]. intros [repo status]. simpl.
    destruct (RepositoryStatus.needs_pull status),
      (RepositoryStatus.has_conflict_risk status),
      (file_conflicts world (GitRepository.path repo)); reflexivity.
  - intros [repo status]. simpl.
    destruct (RepositoryStatus.needs_pull status),
      (RepositoryStatus.has_conflict_risk status),
      (file_conflicts world (GitRepository.path repo)); reflexivity.
Qed.

Lemma repos_to_pull_returns (mode : PullMode.t)
  (repos : list GitRepository.t) (statuses : list RepositoryStatus.t) :
  sequential = true \/ 0 < FleetManager.max_workers fm ->
  exists selected,
    returns (FleetManager.repos_to_pull world sched sequential mode repos
               statuses) fm selected fm
    /\ selected
       ≡ₚ map fst (List.filter (joins_pull_set world mode) (zip repos statuses))
    /\ (mode <> PullMode.SMART ->
        selected
        = map fst (List.filter (joins_pull_set world mode) (zip repos statuses))).
Proof.
  intros Hw. destruct mode; simpl.
  - eexists. split.
    + apply select_smart_outcome. destruct Hw as [-> | Hw]; auto.
    + split; [apply smart_selection_Permutation|congruence].
  - eexists. split; [apply returns_ret|]. split; reflexivity.
  - eexists. split; [apply returns_ret|]. split; reflexivity.
Qed.

(** Whenever a selection is returned it is the one the mode fixes. *)
Lemma repos_to_pull_value (mode : PullMode.t)
  (repos : list GitRepository.t) (statuses : list RepositoryStatus.t)
  (selected : list GitRepository.t) :
  value (FleetManager.repos_to_pull world sched sequential mode repos
           statuses fm) = Return selected ->
  selected
  ≡ₚ map fst (List.filter (joins_pull_set world mode) (zip repos statuses)).
Proof.
  destruct mode; simpl.
  - destruct (select_smart_outcome (zip repos statuses)) as [Hret Hraise].
    destruct (sequential
              || (length (FleetManager.partition_smart (zip repos statuses)).2
                  <=? 1)%nat) eqn:E.
    + destruct (returns_value _ _ _ _ (Hret (or_introl eq_refl))) as [-> _].
      intros [= <-]. apply smart_selection_Permutation.
    + destruct (Z.lt_ge_cases 0 (FleetManager.max_workers fm)) as [Hw|Hw].
      * destruct (returns_value _ _ _ _ (Hret (or_intror Hw))) as [-> _].
        intros [= <-]. apply smart_selection_Permutation.
      * destruct (Hraise eq_refl Hw) as [e ->]. discriminate.
  - intros [= <-]. reflexivity.
  - intros [= <-]. reflexivity.
Qed.

End Selection.

Lemma elem_of_selected (world : World) (mode : PullMode.t)
  (pairs : list (GitRepository.t * RepositoryStatus.t))
  (repo : GitRepository.t) :
  repo ∈ map fst (List.filter (joins_pull_set world mode) pairs) <->
  exists status, (repo, status) ∈ pairs
                 /\ joins_pull_set world mode (repo, status) = true.
Proof.
  rewrite list_elem_of_In, in_map_iff. split.
  - intros ([r status] & <- & Hin). apply filter_In in Hin as [Hin Hj].
    exists status. rewrite list_elem_of_In. auto.
  - intros (status & Hin & Hj). exists (repo, status). split; [reflexivity|].
    apply filter_In. rewrite <- list_elem_of_In. auto.
Qed.

(** C1. With statuses aligned to the repositories by index, the pull set is
    fixed by the mode: in force mode the repositories whose status needs a
    pull; in safe mode those that need a pull and carry no conflict risk; in
    smart mode those that need a pull and either carry no conflict risk or
    pass the file-level check. This holds in sequential mode and, for a pool
    of positive width, in whatever order the checks complete. A repository
    at risk whose merge-base lookup fails never joins the smart pull set. *)
Theorem pull_set_by_mode (world : World) (fm : FleetManager.t)
  (sched : Schedule) (sequential : bool) (mode : PullMode.t)
  (repos : list GitRepository.t) (statuses : list RepositoryStatus.t) :
  sequential = true \/ 0 < FleetManager.max_workers fm ->
  exists selected,
    value (FleetManager.repos_to_pull world sched sequential mode repos
             statuses fm) = Return selected
    /\ selected
       ≡ₚ map fst (List.filter (joins_pull_set world mode) (zip repos statuses))
    /\ (forall repo,
          repo ∈ selected <->
          exists status,
            (repo, status) ∈ zip repos statuses
            /\ match mode with
               | PullMode.FORCE => RepositoryStatus.needs_pull status = true
               | PullMode.SAFE =>
                   RepositoryStatus.needs_pull status = true
                   /\ RepositoryStatus.has_conflict_risk status = false
               | PullMode.SMART =>
                   RepositoryStatus.needs_pull status = true
                   /\ (RepositoryStatus.has_conflict_risk status = false
                       \/ (RepositoryStatus.has_conflict_risk status = true
                           /\ file_conflicts world (GitRepository.path repo)
                              = false))
               end)
    /\ (forall repo status,
          (repo, status) ∈ zip repos statuses ->
          RepositoryStatus.has_conflict_risk status = true ->
          merge_base world (GitRepository.path repo) = None ->
          file_conflicts world (GitRepository.path repo) = true
          /\ joins_pull_set world PullMode.SMART (repo, status) = false).
Proof.
  intros Hw.
  destruct (repos_to_pull_returns world fm sched sequential mode repos
              statuses Hw) as (selected & Hret & Hperm & _).
  exists selected. split; [apply (returns_value _ _ _ _ Hret)|].
  split; [exact Hperm|]. split.
  - intros repo. rewrite Hperm, elem_of_selected.
    split; intros (status & Hin & Hj); exists status; (split; [exact Hin|]);
      revert Hj; destruct mode; simpl;
      destruct (RepositoryStatus.needs_pull status),
        (RepositoryStatus.has_conflict_risk status),
        (file_conflicts world (GitRepository.path repo)); simpl;
      intuition congruence.
  - intros repo status _ Hrisk Hbase.
    assert (Hc : file_conflicts world (GitRepository.path repo) = true)
      by (rewrite file_conflicts_eq, Hbase; reflexivity).
    split; [exact Hc|]. simpl. rewrite Hrisk, Hc.
    destruct (RepositoryStatus.needs_pull status); reflexivity.
Qed.

(** C9. A status in error neither needs a push nor a pull; hence, among
    distinct repositories with statuses aligned by index, one whose status
    is in error is in no pull set (any mode) and not in the push set. *)
Theorem error_status_never_selected (world : World) (fm : FleetManager.t)
  (sched : Schedule) (sequential : bool) (mode : PullMode.t)
  (repos : list GitRepository.t) (statuses : list RepositoryStatus.t)
  (i : nat) (repo : GitRepository.t) (status : RepositoryStatus.t) :
  NoDup repos ->
  repos !! i = Some repo ->
  statuses !! i = Some status ->
  RepositoryStatus.sync_status status = SyncStatus.ERROR ->
  RepositoryStatus.needs_push status = false
  /\ RepositoryStatus.needs_pull status = false
  /\ (forall selected,
        value (FleetManager.repos_to_pull world sched sequential mode repos
                 statuses fm) = Return selected ->
        repo ∉ selected)
  /\ (sequential = true \/ 0 < FleetManager.max_workers fm ->
      exists selected,
        value (FleetManager.repos_to_pull world sched sequential mode repos
                 statuses fm) = Return selected)
  /\ repo ∉ FleetManager.repos_to_push repos statuses.
Proof.
  intros Hnodup Hrepo Hstatus Herr.
  assert (Hpush : RepositoryStatus.needs_push status = false)
    by (unfold RepositoryStatus.needs_push; rewrite Herr; reflexivity).
  assert (Hpull : RepositoryStatus.needs_pull status = false)
    by (unfold RepositoryStatus.needs_pull; rewrite Herr; reflexivity).
  (* the status paired with [repo] is [status] *)
  assert (Hpair : forall st, (repo, st) ∈ zip repos statuses -> st = status).
  { intros st Hin. apply list_elem_of_lookup in Hin as [j Hj].
    apply lookup_zip_with_Some in Hj as (r & st' & [= <- <-] & Hr & Hs).
    assert (j = i) by (eapply NoDup_lookup; eassumption). subst j. congruence. }
  split; [exact Hpush|]. split; [exact Hpull|]. split; [|split].
  - intros selected Hsel Hin.
    rewrite (repos_to_pull_value _ _ _ _ _ _ _ _ Hsel) in Hin.
    apply elem_of_selected in Hin as (st & Hin & Hj).
    apply Hpair in Hin. subst st. revert Hj.
    destruct mode; simpl; rewrite Hpull; discriminate.
  - intros Hw.
    destruct (repos_to_pull_returns world fm sched sequential mode repos
                statuses Hw) as (selected & Hret & _).
    exists selected. apply (returns_value _ _ _ _ Hret).
  - unfold FleetManager.repos_to_push. intros Hin.
    apply list_elem_of_In, in_map_iff in Hin as ([r st] & <- & Hin).
    apply filter_In in Hin as [Hin Hneeds]. simpl in *.
    apply list_elem_of_In, Hpair in Hin. subst st. congruence.
Qed.

(** ** Discovery *)

Section Discovery.
Context (world : World) (fm : FleetManager.t).

Lemma discover_repositories_returns :
  returns (FleetManager.discover_repositories world) fm
    (discovered world fm) (after_discovery world fm).
Proof.
  unfold FleetManager.discover_repositories, discovered, after_discovery.
  eapply returns_bind; [exists []; reflexivity|].
  destruct (FleetManager._repositories fm) as [repos|] eqn:E;
    [apply returns_ret|].
  set (sorted := list_sort GitRepository.path _).
  eapply returns_bind.
  { apply (returns_filter_if _
             (fun r => remotes_configured world (GitRepository.path r))).
    intros r. unfold GitRepository.has_remotes, returns.
    rewrite has_remotes_run. eauto. }
  eapply returns_bind.
  { apply (returns_filter_if _
             (fun r => negb (head_detached world (GitRepository.path r)))).
    intros r. eapply returns_bind; [|apply returns_ret].
    unfold GitRepository.is_detached, returns.
    rewrite is_detached_run. eauto. }
  eapply returns_bind; [exists []; reflexivity|].
  unfold discovered. rewrite E. apply returns_ret.
Qed.

Lemma after_discovery_cached :
  FleetManager._repositories (after_discovery world fm)
  = Some (discovered world fm).
Proof.
  unfold after_discovery, discovered.
  destruct (FleetManager._repositories fm) eqn:E; [exact E|reflexivity].
Qed.

Lemma after_discovery_max_workers :
  FleetManager.max_workers (after_discovery world fm)
  = FleetManager.max_workers fm.
Proof.
  unfold after_discovery. destruct (FleetManager._repositories fm); reflexivity.
Qed.

Lemma discovered_after_discovery :
  discovered world (after_discovery world fm) = discovered world fm.
Proof.
  unfold discovered at 1. rewrite after_discovery_cached. reflexivity.
Qed.

Lemma after_discovery_idem :
  after_discovery world (after_discovery world fm) = after_discovery world fm.
Proof.
  unfold after_discovery at 1. rewrite after_discovery_cached. reflexivity.
Qed.

(** A fresh discovery yields the repositories in ascending path order. *)
Lemma discovered_Sorted :
  FleetManager._repositories fm = None ->
  Sorted (key_le GitRepository.path) (discovered world fm).
Proof.
  intros E. unfold discovered. rewrite E.
  destruct (negb (FleetManager.include_detached fm));
    destruct (negb (FleetManager.include_no_remote fm));
    repeat apply Sorted_filter; apply list_sort_Sorted.
Qed.

End Discovery.

(** ** Which operations start a pull or a push *)

Ltac emits_step Hrun :=
  first
    [ apply emits_ret | apply emits_raise | apply emits_get
    | apply emits_modify
    | apply emits_run, Hrun; reflexivity
    | apply emits_bind; [|intros ?]
    | apply emits_try; [|intros ?]
    | apply emits_call
    | apply emits_for; intros ?
    | apply emits_map_; intros ?
    | apply emits_filter_; intros ?
    | match goal with
      | |- emits_only _ (if ?b then _ else _) => destruct b
      | |- emits_only _ (match ?x with Some _ => _ | None => _ end) =>
          destruct x
      | |- emits_only _ (let '(_, _) := ?x in _) => destruct x
      end ].

Section Quiet.
Context (P : Event -> Prop).
Hypothesis any_query :
  forall p args, is_pull_or_push (Run p args) = false -> P (Run p args).
Context (world : World).

Lemma fetch_all_emits {S} p :
  emits_only (S := S) P (GitOperations.fetch_all world p).
Proof. unfold GitOperations.fetch_all. repeat emits_step any_query. Qed.

Lemma has_remotes_emits {S} p :
  emits_only (S := S) P (GitOperations.has_remotes world p).
Proof. unfold GitOperations.has_remotes. repeat emits_step any_query. Qed.

Lemma is_detached_emits {S} p :
  emits_only (S := S) P (GitOperations.is_detached world p).
Proof. unfold GitOperations.is_detached. repeat emits_step any_query. Qed.

Lemma parse_line_emits line : emits_only P (GitOperations.parse_line line).
Proof.
  unfold GitOperations.parse_line, GitOperations.int_, GitOperations.getitem.
  cbv zeta. repeat emits_step any_query.
Qed.

Lemma get_status_porcelain_emits {S} p :
  emits_only (S := S) P (GitOperations.get_status_porcelain world p).
Proof.
  unfold GitOperations.get_status_porcelain.
  repeat first [apply parse_line_emits | emits_step any_query].
Qed.

Lemma get_last_commit_date_emits {S} p :
  emits_only (S := S) P (GitOperations.get_last_commit_date world p).
Proof.
  unfold GitOperations.get_last_commit_date. repeat emits_step any_query.
Qed.

Lemma has_file_conflicts_emits {S} repo :
  emits_only (S := S) P (GitRepository.has_file_conflicts world repo).
Proof.
  unfold GitRepository.has_file_conflicts, GitOperations.has_file_conflicts,
    GitOperations.get_merge_base, GitOperations.get_changed_files_between,
    GitOperations.get_dirty_files, GitOperations.update_from.
  repeat emits_step any_query.
Qed.

Lemma get_status_emits {S} repo fetch_first :
  emits_only (S := S) P (GitRepository.get_status world repo fetch_first).
Proof.
  unfold GitRepository.get_status, GitRepository.probe_and_classify,
    GitRepository.classify.
  repeat first [ apply fetch_all_emits | apply get_status_porcelain_emits
               | apply has_remotes_emits | apply get_last_commit_date_emits
               | emits_step any_query ].
Qed.

Lemma discover_repositories_emits :
  emits_only P (FleetManager.discover_repositories world).
Proof.
  unfold FleetManager.discover_repositories, GitRepository.has_remotes,
    GitRepository.is_detached.
  repeat first [ apply has_remotes_emits | apply is_detached_emits
               | emits_step any_query ].
Qed.

End Quiet.

(** ** Bulk operations *)

Lemma collected_after_discovery {X} world fm sched (xs : list X) sequential :
  collected (after_discovery world fm) sched xs sequential
  = collected fm sched xs sequential.
Proof. unfold collected. rewrite after_discovery_max_workers. reflexivity. Qed.

Lemma all_status_after_discovery world fm sched fetch_first sequential :
  all_status world (after_discovery world fm) sched fetch_first sequential
  = all_status world fm sched fetch_first sequential.
Proof.
  unfold all_status.
  rewrite collected_after_discovery, discovered_after_discovery. reflexivity.
Qed.

Section Bulk.
Context (world : World) (fm : FleetManager.t) (sequential : bool).
Hypothesis can_pool : sequential = true \/ 0 < FleetManager.max_workers fm.

Lemma can_pool_after_discovery :
  sequential = true
  \/ 0 < FleetManager.max_workers (after_discovery world fm).
Proof. rewrite after_discovery_max_workers. exact can_pool. Qed.

(** The engine run on the manager's own repositories. *)
Lemma execute_parallel_discovered {R} `{HasPath R}
  (operation : GitRepository.t -> Py unit R) (f : GitRepository.t -> R)
  (sched : Schedule) :
  (forall repo, value (operation repo tt) = Return (f repo)) ->
  returns (FleetManager._execute_parallel world sched operation None sequential)
    fm
    (list_sort path_of
       (map f (collected fm sched (discovered world fm) sequential)))
    (after_discovery world fm).
Proof.
  intros Hop.
  pose proof (execute_parallel_returns world operation f Hop
                (after_discovery world fm) sched (discovered world fm)
                sequential can_pool_after_discovery) as Hrun.
  rewrite collected_after_discovery in Hrun.
  revert Hrun. unfold FleetManager._execute_parallel. intros Hrun.
  eapply returns_bind; [apply discover_repositories_returns|].
  destruct Hrun as [t Hrun]. rewrite bind_ret_l in Hrun.
  exists t. exact Hrun.
Qed.

Lemma get_all_status_returns (sched : Schedule) (fetch_first : bool) :
  returns (FleetManager.get_all_status world sched fetch_first sequential) fm
    (all_status world fm sched fetch_first sequential)
    (after_discovery world fm).
Proof.
  unfold FleetManager.get_all_status, all_status.
  apply (execute_parallel_discovered _
           (fun repo => status_of world repo fetch_first)).
  intros repo. rewrite get_status_run. reflexivity.
Qed.

End Bulk.

Lemma pull_value (world : World) (repo : GitRepository.t) :
  value (GitRepository.pull world repo tt) = Return (pull_result world repo)
  /\ OperationResult.path (pull_result world repo) = GitRepository.path repo.
Proof.
  unfold pull_result, result_of, GitRepository.pull, bind, value.
  destruct (pull_run world (GitRepository.path repo) tt) as [[ok msg] ->].
  split; reflexivity.
Qed.

Lemma push_value (world : World) (repo : GitRepository.t) :
  value (GitRepository.push world repo tt) = Return (push_result world repo)
  /\ OperationResult.path (push_result world repo) = GitRepository.path repo.
Proof.
  unfold push_result, result_of, GitRepository.push, bind, value.
  destruct (push_run world (GitRepository.path repo) tt) as [[ok msg] ->].
  split; reflexivity.
Qed.

Section PullAll.
Context (world : World) (fm : FleetManager.t)
  (scheds : FleetManager.Schedules) (only_behind sequential : bool)
  (mode : PullMode.t) (statuses : option (list RepositoryStatus.t)).
Hypothesis can_pool : sequential = true \/ 0 < FleetManager.max_workers fm.

(** [pull_all] first settles which repositories are eligible, whether or
    not the run is a dry run. *)
Lemma pull_all_eligible :
  exists eligible,
    (if only_behind
     then eligible
          ≡ₚ map fst (List.filter (joins_pull_set world mode)
                        (zip (discovered world fm)
                           (statuses_used world fm scheds sequential statuses)))
          /\ (mode <> PullMode.SMART ->
              eligible
              = map fst (List.filter (joins_pull_set world mode)
                           (zip (discovered world fm)
                              (statuses_used world fm scheds sequential
                                 statuses))))
     else eligible = discovered world fm)
    /\ forall (dry_run : bool) results fm',
        returns
          (if dry_run
           then ret (map (would "pull" "Would pull (dry-run)") eligible)
           else FleetManager._execute_parallel world
                  (FleetManager.operation_order scheds)
                  (fun repo => GitRepository.pull world repo)
                  (Some eligible) sequential)
          (after_discovery world fm) results fm' ->
        returns (FleetManager.pull_all world scheds only_behind sequential
                   dry_run mode statuses) fm results fm'.
Proof.
  set (fm1 := after_discovery world fm).
  assert (Hpool1 : sequential = true \/ 0 < FleetManager.max_workers fm1)
    by (apply can_pool_after_discovery; exact can_pool).
  assert (Hsel : exists eligible,
    (if only_behind
     then eligible
          ≡ₚ map fst (List.filter (joins_pull_set world mode)
                        (zip (discovered world fm)
                           (statuses_used world fm scheds sequential statuses)))
          /\ (mode <> PullMode.SMART ->
              eligible
              = map fst (List.filter (joins_pull_set world mode)
                           (zip (discovered world fm)
                              (statuses_used world fm scheds sequential
                                 statuses))))
     else eligible = discovered world fm)
    /\ returns
         (if only_behind then
            statuses <- match statuses with
                        | None => FleetManager.get_all_status world
                                    (FleetManager.status_order scheds) true
                                    sequential
                        | Some statuses => ret statuses
                        end ;;
            FleetManager.repos_to_pull world (FleetManager.check_order scheds)
              sequential mode (discovered world fm) statuses
          else ret (discovered world fm)) fm1 eligible fm1).
  { destruct only_behind; [|eexists; split; [reflexivity|apply returns_ret]].
    destruct (repos_to_pull_returns world fm1 (FleetManager.check_order scheds)
                sequential mode (discovered world fm)
                (statuses_used world fm scheds sequential statuses) Hpool1)
      as (eligible & Hret & Hperm & Heq).
    exists eligible. split; [split; [exact Hperm|exact Heq]|].
    eapply returns_bind; [|exact Hret].
    destruct statuses as [sts|]; simpl; [apply returns_ret|].
    pose proof (get_all_status_returns world fm1 sequential Hpool1
                  (FleetManager.status_order scheds) true) as Hst.
    unfold fm1 in Hst at 2 3.
    rewrite all_status_after_discovery, after_discovery_idem in Hst.
    exact Hst. }
  destruct Hsel as (eligible & Hprop & Hret).
  exists eligible. split; [exact Hprop|].
  intros dry_run results fm' Hfinal.
  unfold FleetManager.pull_all.
  eapply returns_bind; [apply discover_repositories_returns|].
  eapply returns_bind; [exact Hret|].
  destruct dry_run; exact Hfinal.
Qed.

End PullAll.

Section PushAll.
Context (world : World) (fm : FleetManager.t)
  (scheds : FleetManager.Schedules) (only_ahead sequential : bool)
  (statuses : option (list RepositoryStatus.t)).
Hypothesis can_pool : sequential = true \/ 0 < FleetManager.max_workers fm.


Lemma push_all_eligible (dry_run : bool) results fm' :
  returns
    (if dry_run
     then ret (map (would "push" "Would push (dry-run)")
                 (eligible_to_push world fm scheds only_ahead sequential
                    statuses))
     else FleetManager._execute_parallel world
            (FleetManager.operation_order scheds)
            (fun repo => GitRepository.push world repo)
            (Some (eligible_to_push world fm scheds only_ahead sequential
                     statuses))
            sequential)
    (after_discovery world fm) results fm' ->
  returns (FleetManager.push_all world scheds only_ahead sequential dry_run
             statuses) fm results fm'.
Proof.
  set (fm1 := after_discovery world fm).
  assert (Hpool1 : sequential = true \/ 0 < FleetManager.max_workers fm1)
    by (apply can_pool_after_discovery; exact can_pool).
  intros Hfinal. unfold FleetManager.push_all.
  eapply returns_bind; [apply discover_repositories_returns|].
  eapply returns_bind; [|destruct dry_run; exact Hfinal].
  unfold eligible_to_push.
  destruct only_ahead; [|apply returns_ret].
  eapply returns_bind; [|apply returns_ret].
  destruct statuses as [sts|]; simpl; [apply returns_ret|].
  pose proof (get_all_status_returns world fm1 sequential Hpool1
                (FleetManager.status_order scheds) true) as Hst.
  unfold fm1 in Hst at 2 3.
  rewrite all_status_after_discovery, after_discovery_idem in Hst.
  exact Hst.
Qed.

End PushAll.

(** A dry run starts neither a pull nor a push. *)
Section DryRunTrace.
Context (world : World) (scheds : FleetManager.Schedules)
  (sequential : bool).

Lemma quiet_query p args :
  is_pull_or_push (Run p args) = false -> quiet (Run p args).
Proof. intros H. exact H. Qed.

Lemma get_all_status_quiet sched fetch_first :
  emits_only quiet
    (FleetManager.get_all_status world sched fetch_first sequential).
Proof.
  unfold FleetManager.get_all_status, FleetManager._execute_parallel.
  apply emits_bind; [apply discover_repositories_emits, quiet_query|].
  intros repos. apply emits_bind; [|intros ?; apply emits_ret].
  destruct (_ || _).
  - apply emits_map_. intros repo.
    apply emits_call, get_status_emits, quiet_query.
  - apply emits_bind; [apply emits_get|intros self].
    apply emits_bind; [|intros ?; apply emits_ret].
    apply emits_pool; [reflexivity|].
    intros repo. apply get_status_emits, quiet_query.
Qed.

Lemma repos_to_pull_quiet sched mode repos statuses :
  emits_only quiet
    (FleetManager.repos_to_pull world sched sequential mode repos statuses).
Proof.
  destruct mode; simpl; try apply emits_ret.
  unfold FleetManager.select_smart.
  destruct (FleetManager.partition_smart _) as [safe needs_check].
  destruct needs_check as [|repo needs_check]; [apply emits_ret|].
  destruct (_ || _).
  - apply emits_bind; [|intros ?; apply emits_ret].
    apply emits_filter_. intros r.
    apply emits_bind; [|intros ?; apply emits_ret].
    apply has_file_conflicts_emits, quiet_query.
  - apply emits_bind; [apply emits_get|intros self].
    apply emits_bind; [|intros ?; apply emits_ret].
    apply emits_pool; [reflexivity|].
    intros r. apply has_file_conflicts_emits, quiet_query.
Qed.

Lemma pull_all_dry_run_quiet only_behind mode statuses :
  emits_only quiet
    (FleetManager.pull_all world scheds only_behind sequential true mode
       statuses).
Proof.
  unfold FleetManager.pull_all.
  apply emits_bind; [apply discover_repositories_emits, quiet_query|].
  intros repos. apply emits_bind; [|intros ?; apply emits_ret].
  destruct only_behind; [|apply emits_ret].
  apply emits_bind; [|intros ?; apply repos_to_pull_quiet].
  destruct statuses; [apply emits_ret|apply get_all_status_quiet].
Qed.

Lemma push_all_dry_run_quiet only_ahead statuses :
  emits_only quiet
    (FleetManager.push_all world scheds only_ahead sequential true statuses).
Proof.
  unfold FleetManager.push_all.
  apply emits_bind; [apply discover_repositories_emits, quiet_query|].
  intros repos. apply emits_bind; [|intros ?; apply emits_ret].
  destruct only_ahead; [|apply emits_ret].
  apply emits_bind; [|intros ?; apply emits_ret].
  destruct statuses; [apply emits_ret|apply get_all_status_quiet].
Qed.

End DryRunTrace.

Lemma would_results (verb message : string) (eligible : list GitRepository.t) :
  let results := map (would verb message) eligible in
  length results = length eligible
  /\ map OperationResult.path results = map GitRepository.path eligible
  /\ Forall (fun r => OperationResult.success r = true
                      /\ OperationResult.message r = message) results.
Proof.
  simpl. split; [apply length_map|]. split.
  - rewrite map_map. reflexivity.
  - apply Forall_forall. intros r Hr.
    apply list_elem_of_In, in_map_iff in Hr as (repo & <- & _). split; reflexivity.
Qed.

(** C8. In a dry run [pull_all] and [push_all] settle the eligible
    repositories as a real run does (the real run returns the results of
    pulling, or pushing, exactly those), return one result per eligible
    repository, each with [success = true] and the message
    "Would pull (dry-run)" or "Would push (dry-run)", and start neither a
    pull nor a push. *)
Theorem dry_run_is_inert (world : World) (fm : FleetManager.t)
  (scheds : FleetManager.Schedules) (only_needing sequential : bool)
  (mode : PullMode.t) (statuses : option (list RepositoryStatus.t)) :
  sequential = true \/ 0 < FleetManager.max_workers fm ->
  let pull_all := fun dry_run =>
    FleetManager.pull_all world scheds only_needing sequential dry_run mode
      statuses fm in
  let push_all := fun dry_run =>
    FleetManager.push_all world scheds only_needing sequential dry_run
      statuses fm in
  (exists eligible results real_results,
      (if only_needing
       then eligible
            ≡ₚ map fst
                 (List.filter (joins_pull_set world mode)
                    (zip (discovered world fm)
                       (statuses_used world fm scheds sequential statuses)))
       else eligible = discovered world fm)
      /\ value (pull_all true) = Return results
      /\ results = map (would "pull" "Would pull (dry-run)") eligible
      /\ length results = length eligible
      /\ Forall (fun r => OperationResult.success r = true
                          /\ OperationResult.message r = "Would pull (dry-run)")
           results
      /\ value (pull_all false) = Return real_results
      /\ real_results ≡ₚ map (pull_result world) eligible
      /\ Forall quiet (trace (pull_all true)))
  /\ (exists results real_results,
        let eligible :=
          eligible_to_push world fm scheds only_needing sequential statuses in
        value (push_all true) = Return results
        /\ results = map (would "push" "Would push (dry-run)") eligible
        /\ length results = length eligible
        /\ Forall (fun r => OperationResult.success r = true
                            /\ OperationResult.message r = "Would push (dry-run)")
             results
        /\ value (push_all false) = Return real_results
        /\ real_results ≡ₚ map (push_result world) eligible
        /\ Forall quiet (trace (push_all true))).
Proof.
  intros Hw pull_all push_all.
  assert (Hpool1 : sequential = true
                   \/ 0 < FleetManager.max_workers (after_discovery world fm))
    by (apply can_pool_after_discovery; exact Hw).
  split.
  - destruct (pull_all_eligible world fm scheds only_needing sequential mode
                statuses Hw) as (eligible & Hprop & Hrun).
    pose proof (Hrun true _ _ (returns_ret _ _)) as Hdry.
    pose proof (Hrun false _ _
                  (execute_parallel_returns world _ (pull_result world)
                     (fun repo => proj1 (pull_value world repo))
                     _ (FleetManager.operation_order scheds) eligible
                     sequential Hpool1)) as Hreal.
    destruct (would_results "pull" "Would pull (dry-run)" eligible)
      as (Hlen & _ & Hall).
    exists eligible. eexists. eexists.
    split; [destruct only_needing; [apply Hprop|exact Hprop]|].
    split; [apply (returns_value _ _ _ _ Hdry)|].
    split; [reflexivity|]. split; [exact Hlen|]. split; [exact Hall|].
    split; [apply (returns_value _ _ _ _ Hreal)|]. split.
    + rewrite list_sort_Permutation. apply Permutation_map.
      apply collected_Permutation.
    + apply pull_all_dry_run_quiet.
  - pose proof (push_all_eligible world fm scheds only_needing sequential
                  statuses Hw true _ _ (returns_ret _ _)) as Hdry.
    pose proof (push_all_eligible world fm scheds only_needing sequential
                  statuses Hw false _ _
                  (execute_parallel_returns world _ (push_result world)
                     (fun repo => proj1 (push_value world repo))
                     _ (FleetManager.operation_order scheds) _
                     sequential Hpool1)) as Hreal.
    destruct (would_results "push" "Would push (dry-run)"
                (eligible_to_push world fm scheds only_needing sequential
                   statuses)) as (Hlen & _ & Hall).
    eexists. eexists. cbv zeta.
    split; [apply (returns_value _ _ _ _ Hdry)|].
    split; [reflexivity|]. split; [exact Hlen|]. split; [exact Hall|].
    split; [apply (returns_value _ _ _ _ Hreal)|]. split.
    + rewrite list_sort_Permutation. apply Permutation_map.
      apply collected_Permutation.
    + apply push_all_dry_run_quiet.
Qed.

(** ** Order of the result lists *)

Lemma fetch_value (world : World) (repo : GitRepository.t) :
  value (GitRepository.fetch world repo tt) = Return (fetch_report world repo).
Proof.
  unfold fetch_report, result_of, GitRepository.fetch, bind, value.
  rewrite fetch_all_run. destruct (fetch_result world _) as [ok msg].
  reflexivity.
Qed.

Lemma ascending_map_would (verb message : string) (l : list GitRepository.t) :
  ascending l -> ascending (map (would verb message) l).
Proof.
  unfold ascending. induction 1 as [|x l Hl IH Hhd]; simpl; constructor.
  - exact IH.
  - destruct Hhd; simpl; constructor. assumption.
Qed.

Lemma ascending_selected (q : GitRepository.t * RepositoryStatus.t -> bool)
  (repos : list GitRepository.t) (statuses : list RepositoryStatus.t) :
  ascending repos -> ascending (map fst (List.filter q (zip repos statuses))).
Proof.
  unfold ascending. intros H.
  apply Sorted_StronglySorted in H; [|apply key_le_trans].
  apply StronglySorted_Sorted.
  revert statuses. induction H as [|x l Hl IH Hall]; intros statuses;
    [constructor|].
  destruct statuses as [|st statuses]; simpl; [constructor|].
  destruct (q (x, st)); simpl; [|apply IH].
  constructor; [apply IH|].
  rewrite Forall_forall in Hall |- *. intros y Hy. apply Hall.
  apply list_elem_of_In, in_map_iff in Hy as ([r s] & <- & Hin).
  apply filter_In in Hin as [Hin _]. apply list_elem_of_In in Hin.
  apply elem_of_zip_l in Hin. exact Hin.
Qed.

(** Where the result lists of the fleet operations are in ascending path
    order: every list that comes out of the engine is; the list of a dry
    run is when the manager has discovered its repositories itself and the
    selection is a filter of them, which leaves out the smart pull. *)
Lemma fleet_results_ascending (world : World) (fm : FleetManager.t)
  (scheds : FleetManager.Schedules) (only_needing sequential fetch_first : bool)
  (mode : PullMode.t) (statuses : option (list RepositoryStatus.t)) :
  sequential = true \/ 0 < FleetManager.max_workers fm ->
  (exists l, value (FleetManager.get_all_status world
                      (FleetManager.status_order scheds) fetch_first
                      sequential fm) = Return l /\ ascending l)
  /\ (exists l, value (FleetManager.fetch_all world
                         (FleetManager.operation_order scheds) sequential fm)
                = Return l /\ ascending l)
  /\ (exists l, value (FleetManager.pull_all world scheds only_needing
                         sequential false mode statuses fm) = Return l
                /\ ascending l)
  /\ (exists l, value (FleetManager.push_all world scheds only_needing
                         sequential false statuses fm) = Return l
                /\ ascending l)
  /\ (FleetManager._repositories fm = None ->
      exists l, value (FleetManager.push_all world scheds only_needing
                         sequential true statuses fm) = Return l
                /\ ascending l)
  /\ (FleetManager._repositories fm = None -> mode <> PullMode.SMART ->
      exists l, value (FleetManager.pull_all world scheds only_needing
                         sequential true mode statuses fm) = Return l
                /\ ascending l).
Proof.
  intros Hw.
  assert (Hpool1 : sequential = true
                   \/ 0 < FleetManager.max_workers (after_discovery world fm))
    by (apply can_pool_after_discovery; exact Hw).
  split; [|split; [|split; [|split; [|split]]]].
  - eexists. split.
    + apply (returns_value _ _ _ _
               (get_all_status_returns world fm sequential Hw _ fetch_first)).
    + apply list_sort_Sorted.
  - eexists. split.
    + apply (returns_value _ _ _ _
               (execute_parallel_discovered world fm sequential Hw _
                  (fetch_report world) _ (fetch_value world))).
    + apply list_sort_Sorted.
  - destruct (pull_all_eligible world fm scheds only_needing sequential mode
                statuses Hw) as (eligible & _ & Hrun).
    eexists. split.
    + apply (returns_value _ _ _ _
               (Hrun false _ _
                  (execute_parallel_returns world _ (pull_result world)
                     (fun repo => proj1 (pull_value world repo))
                     _ (FleetManager.operation_order scheds) eligible
                     sequential Hpool1))).
    + apply list_sort_Sorted.
  - eexists. split.
    + apply (returns_value _ _ _ _
               (push_all_eligible world fm scheds only_needing sequential
                  statuses Hw false _ _
                  (execute_parallel_returns world _ (push_result world)
                     (fun repo => proj1 (push_value world repo))
                     _ (FleetManager.operation_order scheds) _
                     sequential Hpool1))).
    + apply list_sort_Sorted.
  - intros Hfresh. eexists. split.
    + apply (returns_value _ _ _ _
               (push_all_eligible world fm scheds only_needing sequential
                  statuses Hw true _ _ (returns_ret _ _))).
    + apply ascending_map_would. unfold eligible_to_push.
      pose proof (discovered_Sorted world fm Hfresh) as Hs.
      destruct only_needing; [|exact Hs].
      apply ascending_selected. exact Hs.
  - intros Hfresh Hmode.
    pose proof (discovered_Sorted world fm Hfresh) as Hs.
    destruct (pull_all_eligible world fm scheds only_needing sequential mode
                statuses Hw) as (eligible & Hprop & Hrun).
    eexists. split.
    + apply (returns_value _ _ _ _ (Hrun true _ _ (returns_ret _ _))).
    + apply ascending_map_would.
      destruct only_needing; [|rewrite Hprop; exact Hs].
      destruct Hprop as [_ Heq]. rewrite (Heq Hmode).
      apply ascending_selected. exact Hs.
Qed.

(** C6. The result lists of the fleet operations are meant to be in
    ascending path order, and every list that comes out of the engine is
    (see [fleet_results_ascending]). The dry run of a smart pull is not: the
    repositories cleared by the file-level check are appended after the ones
    without risk and the list is returned as it is. With [/q/a] diverged
    without overlap and [/q/b] behind, the dry run lists [/q/b] before
    [/q/a], while the real run on the same input returns [/q/a] first. *)
Theorem dry_run_smart_pull_not_ascending :
  let fm := Demo.fleet ["/"; "q"] in
  let statuses :=
    [Demo.status ["/"; "q"; "a"] SyncStatus.DIVERGED 1 3 0;
     Demo.status ["/"; "q"; "b"] SyncStatus.BEHIND 0 1 0] in
  let pull_all := fun dry_run =>
    value (FleetManager.pull_all Demo.world (Demo.scheds []) true true dry_run
             PullMode.SMART (Some statuses) fm) in
  let dry := [would "pull" "Would pull (dry-run)" (Demo.repo ["/"; "q"; "b"]);
              would "pull" "Would pull (dry-run)" (Demo.repo ["/"; "q"; "a"])] in
  discovered Demo.world fm
  = [Demo.repo ["/"; "q"; "a"]; Demo.repo ["/"; "q"; "b"]]
  /\ pull_all true = Return dry
  /\ ~ ascending dry
  /\ exists real, pull_all false = Return real
                  /\ map OperationResult.path real
                     = [["/"; "q"; "a"]; ["/"; "q"; "b"]].
Proof.
  intros fm statuses pull_all dry.
  split; [vm_compute; reflexivity|].
  split; [vm_compute; reflexivity|].
  split.
  - unfold ascending, dry. intros H.
    apply Sorted_inv in H as [_ H]. apply HdRel_inv in H.
    vm_compute in H. discriminate.
  - eexists. split; vm_compute; reflexivity.
Qed.

(** ** The scenarios of the specification *)

(** Upstream touched [x.py] and the branch touched [y.py]: no conflict.
    Both touched [x.py]: conflict. *)
Example resolver_scenarios :
  value (GitOperations.has_file_conflicts Demo.world ["/"; "r"; "b"] tt)
  = Return false
  /\ value (GitOperations.has_file_conflicts Demo.world ["/"; "r"; "c"] tt)
     = Return true.
Proof. split; vm_compute; reflexivity. Qed.

(** A probe record two ahead and one behind its upstream is diverged; one
    without upstream on a detached HEAD is detached. *)
Example classifier_scenarios :
  let run info :=
    RepositoryStatus.sync_status
      (locals (GitRepository.classify Demo.world (Demo.repo ["/"; "r"; "a"])
                 info (RepositoryStatus.new ["/"; "r"; "a"] "a"))) in
  run (Info.mk "main" "origin/main" 2 1 0 0 0) = SyncStatus.DIVERGED
  /\ run (Info.mk "main" "origin/main" 2 0 0 0 0) = SyncStatus.AHEAD
  /\ run (Info.mk "main" "origin/main" 0 1 0 0 0) = SyncStatus.BEHIND
  /\ run (Info.mk "main" "origin/main" 0 0 0 0 0) = SyncStatus.CLEAN
  /\ run (Info.mk "(detached)" "" 0 0 0 0 0) = SyncStatus.DETACHED
  /\ run (Info.mk "topic" "" 0 0 0 0 0) = SyncStatus.NO_UPSTREAM.
Proof. repeat split; vm_compute; reflexivity. Qed.

(** The status stream of [/r/b] says one ahead and one behind, yet the
    status comes out clean. *)
Example probe_drops_ahead_behind :
  In "# branch.ab +1 -1" (status_lines Demo.world ["/"; "r"; "b"])
  /\ RepositoryStatus.sync_status
       (status_of Demo.world (Demo.repo ["/"; "r"; "b"]) false)
     = SyncStatus.CLEAN.
Proof. split; vm_compute; auto. Qed.

(** ** Instances *)

Lemma pull_set_by_mode_witness :
  let fm := Demo.fleet ["/"; "r"] in
  let repos := [Demo.repo ["/"; "r"; "a"]; Demo.repo ["/"; "r"; "b"];
                Demo.repo ["/"; "r"; "c"]] in
  let statuses := [Demo.status ["/"; "r"; "a"] SyncStatus.BEHIND 0 2 0;
                   Demo.status ["/"; "r"; "b"] SyncStatus.DIVERGED 1 1 0;
                   Demo.status ["/"; "r"; "c"] SyncStatus.DIVERGED 2 1 0] in
  0 < FleetManager.max_workers fm
  /\ exists selected,
      value (FleetManager.repos_to_pull Demo.world [1%nat] false
               PullMode.SMART repos statuses fm) = Return selected
      /\ selected
         ≡ₚ [Demo.repo ["/"; "r"; "a"]; Demo.repo ["/"; "r"; "b"]].
Proof.
  intros fm repos statuses. split; [reflexivity|].
  destruct (pull_set_by_mode Demo.world fm [1%nat] false PullMode.SMART repos
              statuses (or_intror eq_refl)) as (selected & Hv & Hperm & _).
  exists selected. split; [exact Hv|]. exact Hperm.
Defined.

Lemma execute_parallel_deterministic_witness :
  let fm := Demo.fleet ["/"; "r"] in
  let f := fun repo =>
    RepositoryStatus.new (GitRepository.path repo) (GitRepository.name repo) in
  let repos := [Demo.repo ["/"; "r"; "c"]; Demo.repo ["/"; "r"; "a"];
                Demo.repo ["/"; "r"; "b"]] in
  0 < FleetManager.max_workers fm
  /\ (forall repo, path_of (f repo) = GitRepository.path repo)
  /\ exists results,
      value (FleetManager._execute_parallel Demo.world []
               (fun repo => ret (f repo)) (Some repos) true fm)
      = Return results
      /\ value (FleetManager._execute_parallel Demo.world [2%nat; 0%nat]
                  (fun repo => ret (f repo)) (Some repos) false fm)
         = Return results
      /\ length results = 3%nat.
Proof.
  intros fm f repos. split; [reflexivity|]. split; [reflexivity|].
  destruct (execute_parallel_deterministic Demo.world f fm repos
              [2%nat; 0%nat] eq_refl (fun repo => eq_refl))
    as (results & H1 & H2 & Hlen & _).
  exists results. split; [exact H1|]. split; [exact H2|exact Hlen].
Defined.

Lemma error_status_never_selected_witness :
  let fm := Demo.fleet ["/"; "q"] in
  let repos := [Demo.repo ["/"; "q"; "a"]; Demo.repo ["/"; "q"; "b"]] in
  let broken :=
    RepositoryStatus.set_error_message "Fetch failed: no route to host"
      (RepositoryStatus.set_sync_status SyncStatus.ERROR
         (RepositoryStatus.new ["/"; "q"; "a"] "a")) in
  let statuses := [broken; Demo.status ["/"; "q"; "b"] SyncStatus.BEHIND 0 1 0] in
  NoDup repos
  /\ RepositoryStatus.sync_status broken = SyncStatus.ERROR
  /\ RepositoryStatus.needs_push broken = false
  /\ RepositoryStatus.needs_pull broken = false
  /\ Demo.repo ["/"; "q"; "a"] ∉ FleetManager.repos_to_push repos statuses.
Proof.
  intros fm repos broken statuses.
  assert (Hnodup : NoDup repos).
  { unfold repos. apply NoDup_cons. split.
    - intros H. apply list_elem_of_singleton in H. discriminate.
    - apply NoDup_singleton. }
  split; [exact Hnodup|]. split; [reflexivity|].
  destruct (error_status_never_selected Demo.world fm [] true PullMode.SMART
              repos statuses 0 (Demo.repo ["/"; "q"; "a"]) broken Hnodup
              eq_refl eq_refl eq_refl) as (Hpush & Hpull & _ & _ & Hnot).
  split; [exact Hpush|]. split; [exact Hpull|exact Hnot].
Defined.

Lemma dry_run_is_inert_witness :
  let fm := Demo.fleet ["/"; "r"] in
  let statuses := [Demo.status ["/"; "r"; "a"] SyncStatus.BEHIND 0 2 0;
                   Demo.status ["/"; "r"; "b"] SyncStatus.DIVERGED 1 1 0;
                   Demo.status ["/"; "r"; "c"] SyncStatus.DIVERGED 2 1 0] in
  let dry := FleetManager.pull_all Demo.world (Demo.scheds [1%nat]) true
               false true PullMode.SMART (Some statuses) fm in
  0 < FleetManager.max_workers fm
  /\ exists results,
      value dry = Return results
      /\ Forall (fun r => OperationResult.success r = true
                          /\ OperationResult.message r = "Would pull (dry-run)")
           results
      /\ Forall quiet (trace dry).
Proof.
  intros fm statuses dry. split; [reflexivity|].
  destruct (dry_run_is_inert Demo.world fm (Demo.scheds [1%nat]) true false
              PullMode.SMART (Some statuses) (or_intror eq_refl))
    as [(eligible & results & real & _ & Hv & _ & _ & Hall & _ & _ & Hq) _].
  exists results. split; [exact Hv|]. split; [exact Hall|exact Hq].
Defined.

Lemma unmerged_entries_count_twice_witness :
  let repo := Demo.repo ["/"; "m"; "u"] in
  value (for_ (status_lines Demo.world ["/"; "m"; "u"])
           GitOperations.parse_line Info.initial) = Return tt
  /\ exists st,
      value (GitRepository.get_status Demo.world repo false tt) = Return st
      /\ RepositoryStatus.working_tree_status st = WorkingTreeStatus.DIRTY
      /\ RepositoryStatus.staged_count st = 2
      /\ RepositoryStatus.unstaged_count st = 2.
Proof.
  intros repo.
  assert (Hread : value (for_ (status_lines Demo.world ["/"; "m"; "u"])
                           GitOperations.parse_line Info.initial) = Return tt)
    by (vm_compute; reflexivity).
  split; [exact Hread|].
  destruct (unmerged_entries_count_twice Demo.world repo false unit tt)
    as [_ H].
  destruct (H (or_introl eq_refl) Hread) as (st & Hv & _ & _ & Hdirty & Honly).
  exists st. split; [exact Hv|].
  split.
  - assert (Hex : Exists (fun l => is_unmerged_entry l = true)
                    (status_lines Demo.world (GitRepository.path repo))).
    { apply Exists_exists.
      exists "u UU N... 100644 100644 100644 100644 1a 2b 3c x.py".
      split; [|reflexivity]. apply list_elem_of_In. vm_compute. auto 10. }
    destruct (Hdirty Hex) as [Hd _]. exact Hd.
  - assert (Hall : Forall (fun l => is_changed_entry l = false
                                     /\ is_untracked_entry l = false)
                     (status_lines Demo.world (GitRepository.path repo))).
    { vm_compute. repeat constructor. }
    destruct (Honly Hall) as (-> & -> & _). split; vm_compute; reflexivity.
Defined.

(** * Display names *)
(** ** Joining parts *)

Lemma is_part_cons (s : string) :
  is_part s = true ->
  exists c s', s = String c s' /\ c <> "/"%char /\ has_slash s' = false.
Proof.
  unfold is_part. destruct s as [|c s']; simpl; [discriminate|].
  destruct (Ascii.eqb_spec c "/"); simpl; [discriminate|].
  rewrite negb_true_iff. eauto.
Qed.

(** A string without separator, followed by a separator, determines both
    what precedes and what follows the separator. *)
Lemma slash_split (s1 s2 r1 r2 : string) :
  has_slash s1 = false -> has_slash s2 = false ->
  s1 +:+ String "/" r1 = s2 +:+ String "/" r2 -> s1 = s2 /\ r1 = r2.
Proof.
  revert s2. induction s1 as [|c s1 IH]; intros s2 H1 H2 E.
  - destruct s2 as [|c2 s2]; simpl in *.
    + injection E as ->. auto.
    + injection E as <- _. simpl in H2. discriminate.
  - simpl in H1. apply orb_false_iff in H1 as [Hc H1].
    destruct s2 as [|c2 s2]; simpl in *.
    + injection E as -> _. simpl in Hc. discriminate.
    + apply orb_false_iff in H2 as [_ H2]. injection E as -> E.
      destruct (IH s2 H1 H2 E) as [-> ->]. auto.
Qed.

Lemma no_slash_app (s r : string) :
  has_slash (s +:+ String "/" r) = true.
Proof.
  induction s as [|c s IH]; simpl; [reflexivity|].
  rewrite IH. apply orb_true_r.
Qed.

Lemma join_cons (a : string) (l : list string) :
  l <> [] -> Str.join "/" (a :: l) = a +:+ String "/" (Str.join "/" l).
Proof. destruct l; [congruence|reflexivity]. Qed.

(** Lists of components are recovered from their join. *)
Lemma join_parts_inj (l1 l2 : list string) :
  forallb is_part l1 = true -> forallb is_part l2 = true ->
  Str.join "/" l1 = Str.join "/" l2 -> l1 = l2.
Proof.
  revert l2. induction l1 as [|a l1 IH]; intros l2 H1 H2 E.
  - destruct l2 as [|b l2]; [reflexivity|]. simpl in H2.
    apply andb_true_iff in H2 as [Hb _].
    apply is_part_cons in Hb as (c & s' & -> & _).
    destruct l2; simpl in E; discriminate.
  - simpl in H1. apply andb_true_iff in H1 as [Ha H1].
    destruct l2 as [|b l2].
    { apply is_part_cons in Ha as (c & s' & -> & _).
      destruct l1; simpl in E; discriminate. }
    simpl in H2. apply andb_true_iff in H2 as [Hb H2].
    assert (Hsa : has_slash a = false).
    { unfold is_part in Ha. apply andb_true_iff in Ha as [_ Ha].
      apply negb_true_iff in Ha. exact Ha. }
    assert (Hsb : has_slash b = false).
    { unfold is_part in Hb. apply andb_true_iff in Hb as [_ Hb].
      apply negb_true_iff in Hb. exact Hb. }
    destruct l1 as [|a' l1], l2 as [|b' l2].
    + simpl in E. congruence.
    + rewrite (join_cons b) in E by discriminate.
      change (Str.join "/" [a]) with a in E.
      rewrite E, no_slash_app in Hsa. discriminate.
    + rewrite (join_cons a) in E by discriminate.
      change (Str.join "/" [b]) with b in E.
      rewrite <- E, no_slash_app in Hsb. discriminate.
    + rewrite (join_cons a), (join_cons b) in E by discriminate.
      apply slash_split in E as [-> E]; [|assumption..].
      f_equal. apply IH; assumption.
Qed.

Lemma join_parts_head (l : list string) :
  forallb is_part l = true -> l <> [] ->
  exists c s, Str.join "/" l = String c s /\ c <> "/"%char.
Proof.
  destruct l as [|a l]; [congruence|]. simpl. intros H _.
  apply andb_true_iff in H as [Ha _].
  apply is_part_cons in Ha as (c & s' & -> & Hc & _).
  destruct l; simpl; eauto.
Qed.

Lemma wf_path_forms (l : list string) :
  wf_path l = true ->
  l = []
  \/ (l <> [] /\ forallb is_part l = true)
  \/ exists a rest, l = a :: rest /\ (a = "/" \/ a = "//")
                    /\ forallb is_part rest = true.
Proof.
  destruct l as [|a rest]; [auto|]. simpl. intros H.
  apply andb_true_iff in H as [Ha Hrest].
  apply orb_true_iff in Ha as [Ha|Ha].
  - right. right. exists a, rest. split; [reflexivity|]. split; [|exact Hrest].
    unfold PurePath.is_anchor in Ha. apply orb_true_iff in Ha.
    rewrite !String.eqb_eq in Ha. exact Ha.
  - right. left. split; [discriminate|]. simpl. rewrite Ha, Hrest. reflexivity.
Qed.

(** The shape of the join of an anchored path: the anchor alone, or the
    anchor, a separator, and components starting with another character. *)
Lemma join_anchor (a : string) (rest : list string) :
  forallb is_part rest = true ->
  (rest = [] /\ Str.join "/" (a :: rest) = a)
  \/ exists c s, rest <> []
                 /\ Str.join "/" (a :: rest) = a +:+ String "/" (String c s)
                 /\ Str.join "/" rest = String c s /\ c <> "/"%char.
Proof.
  intros H. destruct rest as [|b rest]; [left; auto|]. right.
  destruct (join_parts_head (b :: rest) H) as (c & s & E & Hc); [discriminate|].
  exists c, s. split; [discriminate|].
  rewrite join_cons by discriminate. rewrite E. auto.
Qed.

Lemma join_wf_inj (l1 l2 : list string) :
  wf_path l1 = true -> wf_path l2 = true ->
  Str.join "/" l1 = Str.join "/" l2 -> l1 = l2.
Proof.
  intros H1 H2 E.
  destruct (wf_path_forms l1 H1) as [-> | [[N1 P1] | (a1 & r1 & -> & A1 & P1)]];
    destruct (wf_path_forms l2 H2) as [-> | [[N2 P2] | (a2 & r2 & -> & A2 & P2)]].
  - reflexivity.
  - destruct (join_parts_head l2 P2 N2) as (c & s & E2 & _).
    rewrite E2 in E. discriminate.
  - destruct (join_anchor a2 r2 P2) as [[-> E2] | (c & s & _ & E2 & _)];
      rewrite E2 in E; destruct A2 as [-> | ->]; discriminate.
  - destruct (join_parts_head l1 P1 N1) as (c & s & E1 & _).
    rewrite E1 in E. discriminate.
  - apply join_parts_inj; assumption.
  - destruct (join_parts_head l1 P1 N1) as (c & s & E1 & Hc).
    destruct (join_anchor a2 r2 P2) as [[-> E2] | (c2 & s2 & _ & E2 & _)];
      rewrite E1, E2 in E; destruct A2 as [-> | ->]; simpl in E;
      injection E as -> _; congruence.
  - destruct (join_anchor a1 r1 P1) as [[-> E1] | (c & s & _ & E1 & _)];
      rewrite E1 in E; destruct A1 as [-> | ->]; discriminate.
  - destruct (join_parts_head l2 P2 N2) as (c & s & E2 & Hc).
    destruct (join_anchor a1 r1 P1) as [[-> E1] | (c1 & s1 & _ & E1 & _)];
      rewrite E1, E2 in E; destruct A1 as [-> | ->]; simpl in E;
      injection E as <- _; congruence.
  - destruct (join_anchor a1 r1 P1)
      as [[-> E1] | (c1 & s1 & N1 & E1 & J1 & Hc1)];
      destruct (join_anchor a2 r2 P2)
        as [[-> E2] | (c2 & s2 & N2 & E2 & J2 & Hc2)];
      rewrite E1, E2 in E; destruct A1 as [-> | ->], A2 as [-> | ->];
      simpl in E; try discriminate; try reflexivity;
      try (injection E as E; congruence).
    + injection E as -> ->. f_equal.
      apply join_parts_inj; [assumption..|]. congruence.
    + injection E as -> ->. f_equal.
      apply join_parts_inj; [assumption..|]. congruence.
Qed.

(** ** Trailing parts *)

Lemma last_parts_length (d : nat) (p : Path) :
  length (last_parts d p) = Nat.min d (length p).
Proof. unfold last_parts. rewrite length_rev, length_take, length_rev. reflexivity. Qed.

Lemma last_parts_suffix (d : nat) (p : Path) :
  exists pre, p = pre ++ last_parts d p.
Proof.
  exists (rev (drop d (rev p))). unfold last_parts.
  rewrite <- rev_app_distr, take_drop, rev_involutive. reflexivity.
Qed.

Lemma last_parts_min (d : nat) (p : Path) :
  last_parts (Nat.min d (length p)) p = last_parts d p.
Proof.
  unfold last_parts. f_equal.
  destruct (Nat.le_ge_cases d (length p)) as [H|H].
  - rewrite Nat.min_l by exact H. reflexivity.
  - rewrite Nat.min_r by exact H.
    rewrite !take_ge by (rewrite length_rev; lia). reflexivity.
Qed.

Lemma last_parts_all (d : nat) (p : Path) :
  (length p <= d)%nat -> last_parts d p = p.
Proof.
  intros H. unfold last_parts.
  rewrite take_ge by (rewrite length_rev; lia). apply rev_involutive.
Qed.

Lemma forallb_part_wf (l : list string) :
  forallb is_part l = true -> wf_path l = true.
Proof.
  destruct l as [|a l]; [reflexivity|]. simpl. intros H.
  apply andb_true_iff in H as [-> ->]. rewrite orb_true_r. reflexivity.
Qed.

Lemma wf_path_suffix (pre suf : list string) :
  wf_path (pre ++ suf) = true -> wf_path suf = true.
Proof.
  destruct pre as [|a pre]; [auto|]. simpl. intros H.
  apply andb_true_iff in H as [_ H]. rewrite forallb_app in H.
  apply andb_true_iff in H as [_ H]. apply forallb_part_wf, H.
Qed.

Lemma last_parts_wf (d : nat) (p : Path) :
  wf_path p = true -> wf_path (last_parts d p) = true.
Proof.
  intros H. destruct (last_parts_suffix d p) as [pre E].
  rewrite E in H. eapply wf_path_suffix, H.
Qed.

Lemma last_parts_last (d : nat) (p : Path) :
  (1 <= d)%nat -> last (last_parts d p) = last p.
Proof.
  intros Hd. destruct (last_parts_suffix d p) as [pre E].
  rewrite E at 2. rewrite last_app.
  destruct (last (last_parts d p)) eqn:El; [reflexivity|].
  apply last_None in El. pose proof (last_parts_length d p) as Hlen.
  rewrite El in Hlen. simpl in Hlen.
  assert (Hp : length p = 0%nat) by lia.
  destruct p; [|discriminate]. symmetry in E.
  apply app_eq_nil in E as [-> _]. reflexivity.
Qed.

Lemma last_rev_cons {A} (p : list A) (s : A) (l : list A) :
  rev p = s :: l -> last p = Some s.
Proof.
  intros E. apply (f_equal (@rev A)) in E. rewrite rev_involutive in E.
  subst p. simpl. apply last_snoc.
Qed.

(** The final component of a path that has one is its last part. *)
Lemma name_last (p : Path) :
  PurePath.name p <> "" -> last p = Some (PurePath.name p).
Proof.
  unfold PurePath.name.
  destruct (rev p) as [|s l] eqn:E; [congruence|].
  intros H. rewrite (last_rev_cons p s l E).
  destruct (PurePath.is_anchor s && (length p =? 1)%nat); congruence.
Qed.

Lemma equal_names (p q : Path) (d : nat) :
  PurePath.name p <> "" -> PurePath.name q <> "" -> (1 <= d)%nat ->
  last_parts d q = last_parts d p -> PurePath.name q = PurePath.name p.
Proof.
  intros Hp Hq Hd E. apply (f_equal last) in E.
  rewrite !last_parts_last, (name_last p Hp), (name_last q Hq) in E by exact Hd.
  congruence.
Qed.

(** With a single trailing part, the name is the final component. *)
Lemma join_last_part (p : Path) :
  PurePath.name p <> "" -> Str.join "/" (last_parts 1 p) = PurePath.name p.
Proof.
  intros H. pose proof (name_last p H) as Hl.
  unfold last_parts.
  destruct (rev p) as [|s l] eqn:E; [destruct p; [discriminate|]|].
  - apply (f_equal (@length _)) in E. rewrite length_rev in E. discriminate.
  - rewrite (last_rev_cons p s l E) in Hl. injection Hl as <-. reflexivity.
Qed.

(** ** The uniqueness test *)

Lemma elem_of_enumerate_from {A} (k : nat) (l : list A) (j : nat) (x : A) :
  In (j, x) (zip (seq k (length l)) l) <->
  (k <= j)%nat /\ l !! (j - k)%nat = Some x.
Proof.
  revert k. induction l as [|y l IH]; intros k; simpl.
  - split; [tauto|]. intros [_ H]. discriminate.
  - rewrite IH. split.
    + intros [[= <- <-] | [Hk Hl]].
      * rewrite Nat.sub_diag. split; [lia|reflexivity].
      * split; [lia|]. replace (j - k)%nat with (S (j - S k)) by lia. exact Hl.
    + intros [Hk Hl]. destruct (decide (j = k)) as [->|Hne].
      * rewrite Nat.sub_diag in Hl. left. simpl in Hl. congruence.
      * right. split; [lia|].
        replace (j - k)%nat with (S (j - S k)) in Hl by lia. exact Hl.
Qed.

Lemma elem_of_enumerate {A} (l : list A) (j : nat) (x : A) :
  In (j, x) (Formatters.enumerate l) <-> l !! j = Some x.
Proof.
  unfold Formatters.enumerate. rewrite elem_of_enumerate_from, Nat.sub_0_r.
  split; [tauto|]. split; [lia|assumption].
Qed.

Lemma forallb_false {A} (f : A -> bool) (l : list A) :
  forallb f l = false <-> exists x, In x l /\ f x = false.
Proof.
  induction l as [|y l IH]; simpl.
  - split; [discriminate|]. intros (x & [] & _).
  - rewrite andb_false_iff, IH. split.
    + intros [H | (x & Hin & Hx)]; eauto.
    + intros (x & [-> | Hin] & Hx); eauto.
Qed.

Section Unique.
Context (paths : list Path).
Hypothesis paths_distinct : NoDup paths.
Hypothesis paths_wf : Forall (fun p => wf_path p = true) paths.

Lemma candidate_last_parts (p : Path) (d : nat) :
  Formatters.candidate (rev p) d = Str.join "/" (last_parts d p).
Proof. reflexivity. Qed.

(** The test of the inner loop fails exactly when another path of the list
    ends in the same parts. *)
Lemma is_unique_false (i : nat) (p : Path) (d : nat) :
  paths !! i = Some p ->
  Formatters.is_unique (map (@rev string) paths) i
    (Formatters.candidate (rev p) d) d = false
  <-> shared paths p d.
Proof.
  intros Hi. unfold Formatters.is_unique, shared.
  rewrite forallb_false. split.
  - intros ([j parts] & Hin & Hf). apply elem_of_enumerate in Hin.
    change (map (@rev string) paths) with ((@rev string) <$> paths) in Hin.
    rewrite list_lookup_fmap in Hin.
    apply fmap_Some in Hin as (q & Hj & ->). simpl in Hf.
    destruct (Nat.eqb_spec i j) as [->|Hne]; simpl in Hf; [discriminate|].
    apply negb_false_iff, String.eqb_eq in Hf.
    rewrite length_rev, !candidate_last_parts, last_parts_min in Hf.
    exists q. split; [eapply list_elem_of_lookup_2; eassumption|]. split.
    + intros ->. apply Hne. eapply NoDup_lookup; eassumption.
    + symmetry. apply join_wf_inj; [| |exact Hf]; apply last_parts_wf.
      * rewrite Forall_forall in paths_wf. apply paths_wf.
        eapply list_elem_of_lookup_2; eassumption.
      * rewrite Forall_forall in paths_wf. apply paths_wf.
        eapply list_elem_of_lookup_2; eassumption.
  - intros (q & Hq & Hne & E). apply list_elem_of_lookup in Hq as [j Hj].
    exists (j, rev q). split.
    + apply elem_of_enumerate.
      change (map (@rev string) paths) with ((@rev string) <$> paths).
      rewrite list_lookup_fmap. apply fmap_Some. exists q.
      split; [exact Hj|reflexivity].
    + simpl. destruct (Nat.eqb_spec i j) as [->|Hij]; [congruence|]. simpl.
      apply negb_false_iff, String.eqb_eq.
      rewrite length_rev, !candidate_last_parts, last_parts_min, E.
      reflexivity.
Qed.

Lemma is_unique_true (i : nat) (p : Path) (d : nat) :
  paths !! i = Some p ->
  Formatters.is_unique (map (@rev string) paths) i
    (Formatters.candidate (rev p) d) d = true
  <-> ~ shared paths p d.
Proof.
  intros Hi. rewrite <- (is_unique_false i p d Hi).
  destruct (Formatters.is_unique _ _ _ _); split; congruence.
Qed.

End Unique.

(** ** The depth search *)

Lemma lookup_enumerate {A} (l : list A) (i : nat) (x : A) :
  l !! i = Some x -> Formatters.enumerate l !! i = Some (i, x).
Proof.
  intros H. unfold Formatters.enumerate, zip.
  apply lookup_zip_with_Some. exists i, x.
  split; [reflexivity|]. split; [|exact H].
  apply lookup_seq. split; [reflexivity|].
  eapply lookup_lt_Some. exact H.
Qed.

Section Search.
Context (paths : list Path).
Hypothesis paths_distinct : NoDup paths.
Hypothesis paths_wf : Forall (fun p => wf_path p = true) paths.

Lemma search_spec (i : nat) (p : Path) (fuel depth : nat) :
  paths !! i = Some p ->
  let r := Formatters.search (map (@rev string) paths) i (rev p) depth fuel in
  (exists d, (depth <= d < depth + fuel)%nat
             /\ ~ shared paths p d
             /\ (forall d', (depth <= d' < d)%nat -> shared paths p d')
             /\ r = Str.join "/" (last_parts d p))
  \/ ((forall d', (depth <= d' < depth + fuel)%nat -> shared paths p d')
      /\ r = Str.join "/" p).
Proof.
  intros Hi. revert depth. induction fuel as [|fuel IH]; intros depth; simpl.
  - right. split; [intros d' Hd'; lia|]. rewrite rev_involutive. reflexivity.
  - destruct (Formatters.is_unique _ i _ depth) eqn:E.
    + left. exists depth. split; [lia|].
      split; [apply (is_unique_true paths paths_distinct paths_wf i p depth Hi), E|].
      split; [intros d' Hd'; lia|reflexivity].
    + apply (is_unique_false paths paths_distinct paths_wf i p depth Hi) in E.
      destruct (IH (depth + 1)%nat) as [(d & Hd & Hu & Hmin & Hr) | [Hall Hr]].
      * left. exists d. split; [lia|]. split; [exact Hu|].
        split; [|exact Hr]. intros d' Hd'.
        destruct (decide (d' = depth)) as [->|Hne]; [exact E|].
        apply Hmin. lia.
      * right. split; [|exact Hr]. intros d' Hd'.
        destruct (decide (d' = depth)) as [->|Hne]; [exact E|].
        apply Hall. lia.
Qed.

(** The name [_make_paths_unique] gives the [i]-th path: its last [d]
    parts, where no smaller [d] tells it from the other paths and [d] does so
    unless the loop ran out of parts. *)
Lemma make_paths_unique_lookup (i : nat) (p : Path) :
  paths !! i = Some p ->
  exists n d,
    Formatters._make_paths_unique paths !! i = Some n
    /\ (d <= length p)%nat
    /\ n = Str.join "/" (last_parts d p)
    /\ (forall d', (1 <= d' < d)%nat -> shared paths p d')
    /\ (((1 <= d)%nat /\ ~ shared paths p d)
        \/ (d = length p
            /\ forall d', (1 <= d' <= length p)%nat -> shared paths p d')).
Proof.
  intros Hi. unfold Formatters._make_paths_unique.
  assert (Hrev : map (@rev string) paths !! i = Some (rev p)).
  { change (map (@rev string) paths) with ((@rev string) <$> paths).
    rewrite list_lookup_fmap. apply fmap_Some. eauto. }
  apply lookup_enumerate in Hrev.
  eexists. 
  destruct (search_spec i p (length p) 1 Hi)
    as [(d & Hd & Hu & Hmin & Hr) | [Hall Hr]].
  - exists d. split.
    + match goal with |- map ?f ?l !! i = _ =>
        change (map f l) with (f <$> l) end.
      rewrite list_lookup_fmap, Hrev. simpl. rewrite length_rev. reflexivity.
    + split; [lia|]. split; [exact Hr|]. split; [exact Hmin|].
      left. split; [lia|exact Hu].
  - exists (length p). split.
    + match goal with |- map ?f ?l !! i = _ =>
        change (map f l) with (f <$> l) end.
      rewrite list_lookup_fmap, Hrev. simpl. rewrite length_rev. reflexivity.
    + split; [lia|].
      split; [rewrite last_parts_all by lia; exact Hr|].
      split; [intros d' Hd'; apply Hall; lia|].
      right. split; [reflexivity|]. intros d' Hd'. apply Hall. lia.
Qed.

Lemma make_paths_unique_length :
  length (Formatters._make_paths_unique paths) = length paths.
Proof.
  unfold Formatters._make_paths_unique, Formatters.enumerate.
  rewrite length_map, length_zip_with, length_seq, length_map.
  apply Nat.min_id.
Qed.

(** Two paths of the list never get the same name. *)
Lemma make_paths_unique_inj (i j : nat) (n : string) :
  Formatters._make_paths_unique paths !! i = Some n ->
  Formatters._make_paths_unique paths !! j = Some n ->
  i = j.
Proof.
  intros Hni Hnj.
  assert (Hlti : (i < length paths)%nat).
  { rewrite <- make_paths_unique_length. eapply lookup_lt_Some, Hni. }
  assert (Hltj : (j < length paths)%nat).
  { rewrite <- make_paths_unique_length. eapply lookup_lt_Some, Hnj. }
  apply lookup_lt_is_Some in Hlti as [p Hp], Hltj as [q Hq].
  destruct (make_paths_unique_lookup i p Hp)
    as (n1 & d1 & E1 & Hd1 & -> & _ & Hcase1).
  destruct (make_paths_unique_lookup j q Hq)
    as (n2 & d2 & E2 & Hd2 & -> & _ & Hcase2).
  rewrite Hni in E1. rewrite Hnj in E2. injection E1 as ->.
  injection E2 as E.
  assert (Hwfp : wf_path p = true).
  { rewrite Forall_forall in paths_wf. apply paths_wf.
    eapply list_elem_of_lookup_2; eassumption. }
  assert (Hwfq : wf_path q = true).
  { rewrite Forall_forall in paths_wf. apply paths_wf.
    eapply list_elem_of_lookup_2; eassumption. }
  apply join_wf_inj in E;
    [|apply last_parts_wf; assumption|apply last_parts_wf; assumption].
  assert (Hd : d1 = d2).
  { apply (f_equal (@length _)) in E. rewrite !last_parts_length in E. lia. }
  subst d2.
  destruct (decide (i = j)) as [|Hne]; [assumption|exfalso].
  assert (Hpq : p <> q).
  { intros ->. apply Hne. eapply NoDup_lookup; eassumption. }
  assert (Sp : shared paths p d1).
  { exists q. split; [eapply list_elem_of_lookup_2; eassumption|].
    split; [congruence|]. congruence. }
  assert (Sq : shared paths q d1).
  { exists p. split; [eapply list_elem_of_lookup_2; eassumption|].
    split; [congruence|]. congruence. }
  destruct Hcase1 as [[_ Hu] | [Hl1 _]]; [contradiction|].
  destruct Hcase2 as [[_ Hu] | [Hl2 _]]; [contradiction|].
  rewrite !last_parts_all in E by lia. congruence.
Qed.

End Search.

(** ** Grouping by name *)

Section Groups.
Context {A : Type}.

Lemma group_append_keys (n : string) (x : A) (gs : list (string * list A))
  (k : string) :
  In k (map fst (Formatters.group_append n x gs))
  <-> k = n \/ In k (map fst gs).
Proof.
  induction gs as [|[m g] gs IH]; simpl; [intuition|].
  destruct (String.eqb_spec m n) as [->|Hne]; simpl; [intuition|].
  rewrite IH. intuition.
Qed.

Lemma group_append_NoDup (n : string) (x : A) (gs : list (string * list A)) :
  List.NoDup (map fst gs) ->
  List.NoDup (map fst (Formatters.group_append n x gs)).
Proof.
  induction gs as [|[m g] gs IH]; simpl; intros H.
  - constructor; [intros []|constructor].
  - inversion H as [|? ? Hm Hgs]; subst.
    destruct (String.eqb_spec m n) as [->|Hne]; simpl.
    + constructor; assumption.
    + constructor; [|apply IH, Hgs].
      rewrite group_append_keys. intros [->|Hin]; [congruence|contradiction].
Qed.

(** Where the members of a group come from. *)
Lemma group_append_members (n : string) (x : A) (gs : list (string * list A))
  (m : string) (g : list A) :
  In (m, g) (Formatters.group_append n x gs) ->
  In (m, g) gs
  \/ (m = n /\ (g = [x] \/ exists g0, In (n, g0) gs /\ g = g0 ++ [x])).
Proof.
  induction gs as [|[m0 g0] gs IH]; simpl.
  - intros [[= <- <-]|[]]. right. auto.
  - destruct (String.eqb_spec m0 n) as [->|Hne]; simpl.
    + intros [[= <- <-]|Hin]; [|auto]. right. split; [reflexivity|]. right.
      exists g0. auto.
    + intros [E|Hin]; [auto|]. destruct (IH Hin) as [H|(-> & [->|(g1 & H1 & ->)])].
      * auto.
      * right. auto.
      * right. split; [reflexivity|]. right. exists g1. auto.
Qed.

Lemma group_append_keeps (n : string) (x : A) (gs : list (string * list A))
  (m : string) (g : list A) (y : A) :
  In (m, g) gs -> In y g ->
  exists g', In (m, g') (Formatters.group_append n x gs) /\ In y g'.
Proof.
  induction gs as [|[m0 g0] gs IH]; simpl; [intros []|].
  intros [[= -> ->]|Hin] Hy.
  - destruct (String.eqb_spec m n) as [->|Hne].
    + exists (g ++ [x]). split; [left; reflexivity|].
      apply in_or_app. auto.
    + exists g. split; [left; reflexivity|assumption].
  - destruct (String.eqb_spec m0 n) as [->|Hne].
    + exists g. split; [right; assumption|assumption].
    + destruct (IH Hin Hy) as (g' & H1 & H2).
      exists g'. split; [right; assumption|assumption].
Qed.

Lemma group_append_adds (n : string) (x : A) (gs : list (string * list A)) :
  exists g', In (n, g') (Formatters.group_append n x gs) /\ In x g'.
Proof.
  induction gs as [|[m0 g0] gs IH]; simpl.
  - exists [x]. split; left; reflexivity.
  - destruct (String.eqb_spec m0 n) as [->|Hne].
    + exists (g0 ++ [x]). split; [left; reflexivity|].
      apply in_or_app. right. left. reflexivity.
    + destruct IH as (g' & H1 & H2).
      exists g'. split; [right; assumption|assumption].
Qed.

Lemma group_append_concat (n : string) (x : A) (gs : list (string * list A)) :
  concat (map snd (Formatters.group_append n x gs))
  ≡ₚ x :: concat (map snd gs).
Proof.
  induction gs as [|[m0 g0] gs IH]; simpl; [reflexivity|].
  destruct (String.eqb_spec m0 n) as [->|Hne]; simpl.
  - rewrite <- app_assoc. simpl.
    rewrite <- Permutation_middle. reflexivity.
  - rewrite IH. rewrite <- Permutation_middle. reflexivity.
Qed.

Context `{HasName A}.

Lemma grouped_step (gs : list (string * list A)) (seen : list A) (x : A) :
  grouped gs seen ->
  grouped (Formatters.group_append (name_of x) x gs) (seen ++ [x]).
Proof.
  intros (Hk & Hn & Hs & Hc). repeat split.
  - apply group_append_NoDup, Hk.
  - intros m g y Hin Hy.
    destruct (group_append_members _ _ _ _ _ Hin)
      as [H0 | (-> & [-> | (g0 & H0 & ->)])].
    + eapply Hn; eassumption.
    + destruct Hy as [<-|[]]. reflexivity.
    + apply in_app_or in Hy as [Hy|[<-|[]]]; [|reflexivity].
      eapply Hn; eassumption.
  - intros y Hy. apply in_app_or in Hy as [Hy|[<-|[]]].
    + destruct (Hs y Hy) as (g & H1 & H2).
      eapply group_append_keeps; eassumption.
    + apply group_append_adds.
  - rewrite group_append_concat, Hc. rewrite <- Permutation_cons_append.
    reflexivity.
Qed.

Lemma name_groups_grouped (items : list A) :
  grouped (Formatters.name_groups items) items.
Proof.
  unfold Formatters.name_groups.
  assert (G : forall gs seen, grouped gs seen ->
    grouped (fold_left
               (fun groups item =>
                  Formatters.group_append (name_of item) item groups)
               items gs) (seen ++ items)).
  { induction items as [|x items IH]; intros gs seen Hg; simpl.
    - rewrite app_nil_r. exact Hg.
    - replace (seen ++ x :: items) with ((seen ++ [x]) ++ items)
        by (rewrite <- app_assoc; reflexivity).
      apply IH, grouped_step, Hg. }
  apply (G [] []). repeat split; simpl; try constructor; intros; contradiction.
Qed.

End Groups.

(** ** The dictionary of names *)

Lemma fold_insert_lookup (kvs : list (Path * string)) (m : gmap Path string)
  (k : Path) (v : string) :
  List.NoDup (map fst kvs) ->
  fold_left (fun (r : gmap Path string) (pn : Path * string) =>
               <[pn.1 := pn.2]> r) kvs m !! k = Some v
  <-> In (k, v) kvs \/ (~ In k (map fst kvs) /\ m !! k = Some v).
Proof.
  revert m. induction kvs as [|[k0 v0] kvs IH]; intros m Hnd; simpl.
  - intuition.
  - inversion Hnd as [|? ? Hk0 Hnd']; subst. rewrite (IH _ Hnd'). simpl.
    destruct (decide (k0 = k)) as [->|Hne].
    + rewrite lookup_insert_eq. split.
      * intros [Hin | [_ [= ->]]]; [|auto].
        exfalso. apply Hk0. apply in_map_iff. exists (k, v). auto.
      * intros [[[= ->]|Hin] | [Hnot _]]; [auto| |tauto].
        exfalso. apply Hk0. apply in_map_iff. exists (k, v). auto.
    + rewrite lookup_insert_ne by exact Hne. split.
      * intros [Hin | [Hnot Hm]]; [auto|]. right. split; [|exact Hm].
        intros [E|Hin]; [congruence|contradiction].
      * intros [[[= E _]|Hin] | [Hnot Hm]]; [congruence|auto|].
        right. split; [tauto|exact Hm].
Qed.

Lemma fold_left_concat {X Y} (f : Y -> X -> Y) (ls : list (list X)) (a : Y) :
  fold_left (fun r l => fold_left f l r) ls a = fold_left f (concat ls) a.
Proof.
  revert a. induction ls as [|l ls IH]; intros a; simpl; [reflexivity|].
  rewrite fold_left_app. apply IH.
Qed.

Section Entries.
Context {A : Type} `{HasName A} `{HasPath A}.

Lemma compute_as_entries (items : list A) :
  Formatters.compute_unique_display_names items
  = fold_left (fun (r : gmap Path string) (pn : Path * string) =>
                 <[pn.1 := pn.2]> r)
      (concat (map entries (Formatters.name_groups items))) ∅.
Proof.
  unfold Formatters.compute_unique_display_names.
  rewrite <- fold_left_concat.
  generalize (∅ : gmap Path string).
  induction (Formatters.name_groups items) as [|[n g] gs IH]; intros m;
    simpl; [reflexivity|].
  rewrite <- IH. f_equal. unfold entries. simpl.
  destruct (length g =? 1)%nat; [|reflexivity].
  destruct g; reflexivity.
Qed.

Lemma entries_keys (ng : string * list A) :
  map fst (entries ng) = map path_of ng.2.
Proof.
  unfold entries. destruct ng as [n g]. simpl.
  destruct (Nat.eqb_spec (length g) 1) as [E|_].
  - destruct g as [|x [|y g]]; try discriminate. reflexivity.
  - change (map fst ?l) with (fst <$> l). apply fst_zip.
    rewrite make_paths_unique_length. reflexivity.
Qed.

Lemma entries_concat_keys (gs : list (string * list A)) :
  map fst (concat (map entries gs)) = map path_of (concat (map snd gs)).
Proof.
  induction gs as [|ng gs IH]; simpl; [reflexivity|].
  rewrite !map_app, IH, entries_keys. reflexivity.
Qed.

(** Where a name in the dictionary comes from: the one item of a group of
    one, with the group's name, or the [i]-th item of a larger group, with
    the [i]-th name made for the group's paths. *)
Lemma entry_origin (items : list A) (p : Path) (n : string) :
  List.NoDup (map path_of items) ->
  Formatters.compute_unique_display_names items !! p = Some n <->
  exists m g,
    In (m, g) (Formatters.name_groups items)
    /\ ((exists item, g = [item] /\ path_of item = p /\ n = m)
        \/ (length g <> 1%nat
            /\ exists i, map path_of g !! i = Some p
                         /\ Formatters._make_paths_unique (map path_of g) !! i
                            = Some n)).
Proof.
  intros Hnd. rewrite compute_as_entries.
  destruct (name_groups_grouped items) as (_ & _ & _ & Hc).
  rewrite fold_insert_lookup.
  2:{ rewrite entries_concat_keys. eapply Permutation_NoDup; [|exact Hnd].
      symmetry. apply Permutation_map. exact Hc. }
  rewrite lookup_empty, in_concat. split.
  - intros [(l & Hl & Hin) | [_ E]]; [|discriminate].
    apply in_map_iff in Hl as ([m g] & <- & Hg).
    exists m, g. split; [exact Hg|]. unfold entries in Hin. simpl in Hin.
    destruct (Nat.eqb_spec (length g) 1) as [E|E].
    + destruct g as [|x [|y g]]; try discriminate.
      destruct Hin as [[= <- <-]|[]]. left. eauto.
    + right. split; [exact E|].
      apply list_elem_of_In, list_elem_of_lookup in Hin as [i Hi].
      apply lookup_zip_with_Some in Hi as (x & y & [= <- <-] & Hx & Hy).
      eauto.
  - intros (m & g & Hg & Hcase). left.
    exists (entries (m, g)). split; [apply in_map; exact Hg|].
    unfold entries. simpl.
    destruct Hcase as [(item & -> & <- & ->) | (Hlen & i & Hp & Hn)].
    + simpl. left. reflexivity.
    + destruct (Nat.eqb_spec (length g) 1) as [E|_]; [contradiction|].
      apply list_elem_of_In, list_elem_of_lookup. exists i.
      apply lookup_zip_with_Some. eauto.
Qed.

End Entries.

Lemma NoDup_concat_elem {X} (ls : list (list X)) (l : list X) :
  NoDup (concat ls) -> In l ls -> NoDup l.
Proof.
  induction ls as [|l0 ls IH]; simpl; [intros _ []|].
  intros H [->|Hin].
  - apply NoDup_app in H. tauto.
  - apply IH; [|exact Hin]. apply NoDup_app in H. tauto.
Qed.

Lemma NoDup_keys_unique {X} (gs : list (string * X)) (k : string) (a b : X) :
  List.NoDup (map fst gs) -> In (k, a) gs -> In (k, b) gs -> a = b.
Proof.
  induction gs as [|[k0 x0] gs IH]; simpl; [intros _ []|].
  intros H. inversion H as [|? ? Hk Hgs]; subst.
  intros [Ea|Ha] [Eb|Hb].
  - congruence.
  - exfalso. apply Hk. apply in_map_iff. exists (k, b).
    split; [simpl; congruence|exact Hb].
  - exfalso. apply Hk. apply in_map_iff. exists (k, a).
    split; [simpl; congruence|exact Ha].
  - apply IH; assumption.
Qed.

Lemma concat_map_snd {K X Y} (f : X -> Y) (gs : list (K * list X)) :
  concat (map (fun ng => map f ng.2) gs) = map f (concat (map snd gs)).
Proof.
  induction gs as [|ng gs IH]; simpl; [reflexivity|].
  rewrite map_app, IH. reflexivity.
Qed.

Section DisplayNames.
Context {A : Type} `{HasName A} `{HasPath A} (items : list A).
Hypothesis paths_distinct : NoDup (map path_of items).
Hypothesis items_wf :
  forall item, In item items ->
    wf_path (path_of item) = true
    /\ name_of item = PurePath.name (path_of item)
    /\ PurePath.name (path_of item) <> "".

Lemma group_facts (m : string) (g : list A) :
  In (m, g) (Formatters.name_groups items) ->
  (forall y, In y g -> In y items /\ name_of y = m)
  /\ NoDup (map path_of g)
  /\ Forall (fun p => wf_path p = true) (map path_of g)
  /\ (forall y, In y items -> name_of y = m -> In y g).
Proof.
  intros Hg.
  destruct (name_groups_grouped items) as (Hk & Hn & Hs & Hc).
  assert (Hsub : forall y, In y g -> In y items /\ name_of y = m).
  { intros y Hy. split; [|eapply Hn; eassumption].
    apply list_elem_of_In. rewrite <- Hc. apply list_elem_of_In.
    apply in_concat. exists g. split; [|exact Hy].
    apply in_map_iff. exists (m, g). auto. }
  split; [exact Hsub|]. split; [|split].
  - apply (NoDup_concat_elem (map (fun ng => map path_of ng.2)
                                 (Formatters.name_groups items))).
    + rewrite concat_map_snd, Hc. exact paths_distinct.
    + apply in_map_iff. exists (m, g). auto.
  - apply Forall_forall. intros p Hp.
    apply list_elem_of_In, in_map_iff in Hp as (y & <- & Hy).
    apply items_wf, Hsub, Hy.
  - intros y Hy Hm. destruct (Hs y Hy) as (g' & Hg' & Hin).
    rewrite Hm in Hg'.
    rewrite (NoDup_keys_unique _ _ _ _ Hk Hg Hg'). exact Hin.
Qed.

Lemma path_item (q : Path) :
  q ∈ map path_of items ->
  exists y, In y items /\ path_of y = q /\ name_of y = PurePath.name q
            /\ PurePath.name q <> "".
Proof.
  intros Hq. apply list_elem_of_In, in_map_iff in Hq as (y & <- & Hy).
  destruct (items_wf y Hy) as (_ & Hn & Hne). eauto.
Qed.

(** Within a group, sharing trailing parts with a path of the whole input
    is sharing them with a path of the group. *)
Lemma shared_in_group (m : string) (g : list A) (x : A) (d : nat) :
  In (m, g) (Formatters.name_groups items) -> In x g -> (1 <= d)%nat ->
  shared (map path_of items) (path_of x) d
  <-> shared (map path_of g) (path_of x) d.
Proof.
  intros Hg Hx Hd.
  destruct (group_facts m g Hg) as (Hsub & _ & _ & Hall).
  destruct (Hsub x Hx) as [Hxi Hxm].
  destruct (items_wf x Hxi) as (_ & Hxn & Hxne).
  split; intros (q & Hq & Hne & E); exists q; (split; [|auto]).
  - destruct (path_item q Hq) as (y & Hy & <- & Hyn & Hyne).
    apply list_elem_of_In, in_map, Hall; [exact Hy|].
    rewrite Hyn, (equal_names _ _ d Hxne Hyne Hd E). congruence.
  - apply list_elem_of_In, in_map_iff in Hq as (y & <- & Hy).
    apply list_elem_of_In, in_map, Hsub, Hy.
Qed.

(** The name of a path: which trailing parts it is made of, and why. *)
Lemma display_name_spec (p : Path) (n : string) :
  Formatters.compute_unique_display_names items !! p = Some n ->
  exists x m g d,
    In x items /\ path_of x = p
    /\ In (m, g) (Formatters.name_groups items) /\ In x g
    /\ ((g = [x] /\ n = m /\ d = 1%nat)
        \/ (length g <> 1%nat
            /\ exists i, map path_of g !! i = Some p
                         /\ Formatters._make_paths_unique (map path_of g) !! i
                            = Some n))
    /\ (1 <= d <= length p)%nat
    /\ n = Str.join "/" (last_parts d p)
    /\ (forall d', (1 <= d' < d)%nat -> shared (map path_of items) p d')
    /\ (~ shared (map path_of items) p d
        \/ (d = length p
            /\ forall d', (1 <= d' <= length p)%nat ->
                          shared (map path_of items) p d')).
Proof.
  intros Hn. apply entry_origin in Hn as (m & g & Hg & Hcase);
    [|apply NoDup_ListNoDup, paths_distinct].
  destruct (group_facts m g Hg) as (Hsub & Hnd & Hwf & Hall).
  assert (Hlen : forall x, In x items -> (1 <= length (path_of x))%nat).
  { intros x Hx. destruct (items_wf x Hx) as (_ & _ & Hne).
    apply name_last in Hne. destruct (path_of x); [discriminate|simpl; lia]. }
  destruct Hcase as [(x & -> & <- & ->) | (Hl & i & Hp & Hi)].
  - destruct (Hsub x (or_introl eq_refl)) as [Hx Hm].
    destruct (items_wf x Hx) as (_ & Hxn & Hxne).
    exists x, m, [x], 1%nat.
    split; [exact Hx|]. split; [reflexivity|]. split; [exact Hg|].
    split; [left; reflexivity|]. split; [left; auto|].
    split; [split; [lia|apply Hlen, Hx]|].
    split; [rewrite join_last_part by exact Hxne; congruence|].
    split; [intros d' Hd'; lia|]. left.
    rewrite (shared_in_group m [x] x 1 Hg (or_introl eq_refl)) by lia.
    intros (q & Hq & Hne & _). simpl in Hq.
    apply list_elem_of_singleton in Hq. congruence.
  - assert (Hx : exists x, In x g /\ path_of x = p).
    { apply list_elem_of_lookup_2, list_elem_of_In, in_map_iff in Hp
        as (x & E & Hx). eauto. }
    destruct Hx as (x & Hx & <-).
    destruct (Hsub x Hx) as [Hxi _].
    destruct (make_paths_unique_lookup (map path_of g) Hnd Hwf i (path_of x) Hp)
      as (n' & d & Hi' & Hd & -> & Hmin & Hcase).
    rewrite Hi in Hi'. injection Hi' as ->.
    assert (Hd1 : (1 <= d)%nat).
    { destruct Hcase as [[Hd1 _] | [-> _]]; [exact Hd1|apply Hlen, Hxi]. }
    exists x, m, g, d.
    split; [exact Hxi|]. split; [reflexivity|]. split; [exact Hg|].
    split; [exact Hx|]. split; [right; eauto|].
    split; [lia|]. split; [reflexivity|]. split.
    + intros d' Hd'. apply (shared_in_group m g x d' Hg Hx); [lia|].
      apply Hmin, Hd'.
    + destruct Hcase as [[_ Hu] | [-> Hall']].
      * left. rewrite (shared_in_group m g x d Hg Hx) by exact Hd1. exact Hu.
      * right. split; [reflexivity|]. intros d' Hd'.
        apply (shared_in_group m g x d' Hg Hx); [lia|]. apply Hall', Hd'.
Qed.

Lemma display_names_inj (p1 p2 : Path) (n : string) :
  Formatters.compute_unique_display_names items !! p1 = Some n ->
  Formatters.compute_unique_display_names items !! p2 = Some n ->
  p1 = p2.
Proof.
  intros H1 H2.
  destruct (display_name_spec p1 n H1)
    as (x1 & m1 & g1 & d1 & Hx1 & <- & Hg1 & Hin1 & Hc1 & Hd1 & E1 & _).
  destruct (display_name_spec p2 n H2)
    as (x2 & m2 & g2 & d2 & Hx2 & <- & Hg2 & Hin2 & Hc2 & Hd2 & E2 & _).
  destruct (items_wf x1 Hx1) as (Hw1 & Hn1 & Hne1).
  destruct (items_wf x2 Hx2) as (Hw2 & Hn2 & Hne2).
  rewrite E1 in E2.
  apply join_wf_inj in E2;
    [|apply last_parts_wf; assumption|apply last_parts_wf; assumption].
  assert (Hd : d1 = d2).
  { apply (f_equal (@length _)) in E2. rewrite !last_parts_length in E2. lia. }
  subst d2.
  assert (Hm : m1 = m2).
  { destruct (group_facts m1 g1 Hg1) as (Hs1 & _).
    destruct (group_facts m2 g2 Hg2) as (Hs2 & _).
    destruct (Hs1 x1 Hin1) as [_ <-]. destruct (Hs2 x2 Hin2) as [_ <-].
    rewrite Hn1, Hn2.
    apply (equal_names _ _ d1 Hne2 Hne1); [lia|exact E2]. }
  subst m2.
  destruct (name_groups_grouped items) as (Hk & _).
  assert (g1 = g2) by (eapply NoDup_keys_unique; eassumption). subst g2.
  destruct Hc1 as [(-> & _) | (Hl1 & i1 & Hp1 & Hi1)].
  - destruct Hin2 as [<-|[]]. reflexivity.
  - destruct Hc2 as [(-> & _) | (_ & i2 & Hp2 & Hi2)]; [contradiction Hl1; reflexivity|].
    destruct (group_facts m1 g1 Hg1) as (_ & Hnd & Hwf & _).
    assert (i1 = i2)
      by (eapply (make_paths_unique_inj (map path_of g1)); eassumption).
    subst i2. congruence.
Qed.

Lemma display_names_total (p : Path) :
  p ∈ map path_of items <->
  is_Some (Formatters.compute_unique_display_names items !! p).
Proof.
  split.
  - intros Hp. destruct (path_item p Hp) as (x & Hx & <- & _).
    destruct (name_groups_grouped items) as (_ & _ & Hs & _).
    destruct (Hs x Hx) as (g & Hg & Hin).
    destruct (decide (length g = 1%nat)) as [Hl|Hl].
    + exists (name_of x). apply entry_origin;
        [apply NoDup_ListNoDup, paths_distinct|].
      exists (name_of x), g. split; [exact Hg|]. left. exists x.
      destruct g as [|y [|z g]]; try discriminate.
      destruct Hin as [->|[]]. auto.
    + assert (Hi : exists i, map path_of g !! i = Some (path_of x)).
      { apply list_elem_of_lookup_1, list_elem_of_In, in_map, Hin. }
      destruct Hi as [i Hi].
      destruct (lookup_lt_is_Some_2
                  (Formatters._make_paths_unique (map path_of g)) i)
        as [n Hn].
      { rewrite make_paths_unique_length. eapply lookup_lt_Some, Hi. }
      exists n. apply entry_origin;
        [apply NoDup_ListNoDup, paths_distinct|].
      exists (name_of x), g. split; [exact Hg|]. right. eauto.
  - intros [n Hn].
    destruct (display_name_spec p n Hn) as (x & _ & _ & _ & Hx & <- & _).
    apply list_elem_of_In, in_map, Hx.
Qed.

End DisplayNames.

(** C7. For items with distinct, well-formed paths that carry a leaf name,
    [compute_unique_display_names] names every path, gives no two paths the
    same name, makes each name the [/]-joined run of some [d >= 1] trailing
    parts of its path (so it ends in the leaf name), and takes the least such
    [d]: every smaller depth is shared with another path of the input, and
    [d] itself is shared with none whenever some depth of the path is. *)
Theorem display_names_injective_suffix_minimal
    {A : Type} `{HasName A} `{HasPath A} (items : list A) :
  NoDup (map path_of items) ->
  (forall item, In item items ->
     wf_path (path_of item) = true
     /\ name_of item = PurePath.name (path_of item)
     /\ PurePath.name (path_of item) <> "") ->
  (forall p, p ∈ map path_of items <->
             is_Some (Formatters.compute_unique_display_names items !! p))
  /\ (forall p1 p2 n,
        Formatters.compute_unique_display_names items !! p1 = Some n ->
        Formatters.compute_unique_display_names items !! p2 = Some n ->
        p1 = p2)
  /\ (forall p n,
        Formatters.compute_unique_display_names items !! p = Some n ->
        exists d,
          (1 <= d <= length p)%nat
          /\ n = Str.join "/" (last_parts d p)
          /\ (exists front, p = front ++ last_parts d p)
          /\ (exists pre, last_parts d p = pre ++ [PurePath.name p])
          /\ (forall d', (1 <= d' < d)%nat ->
                         shared (map path_of items) p d')
          /\ ((exists d', (1 <= d' <= length p)%nat
                          /\ ~ shared (map path_of items) p d') ->
              ~ shared (map path_of items) p d)).
Proof.
  intros Hnd Hwf. split; [|split].
  - intros p. apply display_names_total; assumption.
  - intros p1 p2 n. apply display_names_inj; assumption.
  - intros p n Hn.
    destruct (display_name_spec items Hnd Hwf p n Hn)
      as (x & _ & _ & d & Hx & <- & _ & _ & _ & Hd & -> & Hmin & Hcase).
    destruct (Hwf x Hx) as (_ & _ & Hne).
    exists d. split; [exact Hd|]. split; [reflexivity|].
    split; [apply last_parts_suffix|]. split.
    + pose proof (last_parts_last d (path_of x) (proj1 Hd)) as El.
      rewrite (name_last _ Hne) in El.
      apply last_Some in El. exact El.
    + split; [exact Hmin|]. intros (d' & Hd' & Hfree).
      destruct Hcase as [Hu | [_ Hall]]; [exact Hu|].
      contradiction Hfree. apply Hall, Hd'.
Qed.

(** Three repositories, two of them called [x]: the lone name stays as it is,
    the two others take one parent part each. *)
Lemma display_names_injective_suffix_minimal_witness :
  let items := [Demo.repo ["/"; "r"; "a"; "x"]; Demo.repo ["/"; "r"; "b"; "x"];
                Demo.repo ["/"; "r"; "y"]] in
  Formatters.compute_unique_display_names items !! ["/"; "r"; "a"; "x"]
    = Some "a/x"
  /\ Formatters.compute_unique_display_names items !! ["/"; "r"; "b"; "x"]
    = Some "b/x"
  /\ Formatters.compute_unique_display_names items !! ["/"; "r"; "y"]
    = Some "y"
  /\ forall p1 p2 n,
        Formatters.compute_unique_display_names items !! p1 = Some n ->
        Formatters.compute_unique_display_names items !! p2 = Some n ->
        p1 = p2.
Proof.
  intros items.
  split; [vm_compute; reflexivity|].
  split; [vm_compute; reflexivity|].
  split; [vm_compute; reflexivity|].
  refine (proj1 (proj2 (display_names_injective_suffix_minimal items _ _))).
  - apply NoDup_ListNoDup. repeat constructor; simpl; intuition discriminate.
  - intros item [<-|[<-|[<-|[]]]]; vm_compute; intuition discriminate.
Defined.

(** Resolved paths start at an anchor, and an anchor is never an inner part:
    the whole of such a path is shared with no other, so the search always
    ends at a depth that tells the path apart. *)
Lemma absolute_path_told_apart (paths : list Path) (p : Path)
    (a : string) (rest : list string) :
  Forall (fun q => wf_path q = true) paths ->
  p = a :: rest -> PurePath.is_anchor a = true ->
  ~ shared paths p (length p).
Proof.
  intros Hwf -> Ha (q & Hq & Hne & E).
  rewrite (last_parts_all _ (a :: rest)) in E by lia.
  destruct (last_parts_suffix (length (a :: rest)) q) as [front Eq].
  rewrite E in Eq. destruct front as [|b front]; [simpl in Eq; congruence|].
  rewrite Forall_forall in Hwf. specialize (Hwf q Hq). subst q.
  simpl in Hwf. apply andb_true_iff in Hwf as [_ Hparts].
  rewrite forallb_app in Hparts. simpl in Hparts.
  apply andb_true_iff in Hparts as [_ Hparts].
  apply andb_true_iff in Hparts as [Hpart _].
  unfold PurePath.is_anchor in Ha. apply orb_true_iff in Ha as [Ha|Ha];
    apply String.eqb_eq in Ha; subst a; discriminate.
Qed.

(** * Beyond the specification: the rest of the adapter, the summaries and the fleet-wide queries *)

(** ** Fleet summaries *)

Lemma count_of_nil {A} (p : A -> bool) : count_of p [] = 0.
Proof. reflexivity. Qed.

Lemma count_of_cons {A} (p : A -> bool) (x : A) (l : list A) :
  count_of p (x :: l) = b2z (p x) + count_of p l.
Proof.
  unfold count_of, b2z. simpl. destruct (p x); simpl length; lia.
Qed.

Lemma count_of_app {A} (p : A -> bool) (l1 l2 : list A) :
  count_of p (l1 ++ l2) = count_of p l1 + count_of p l2.
Proof.
  unfold count_of. rewrite List.filter_app, length_app. lia.
Qed.

Lemma count_of_nonneg {A} (p : A -> bool) (l : list A) : 0 <= count_of p l.
Proof. unfold count_of. lia. Qed.

(** Tests that exclude one another are counted on different elements. *)
Lemma count_of_disjoint {A} (p q : A -> bool) (l : list A) :
  (forall x, p x && q x = false) ->
  count_of p l + count_of q l <= Builtins.len l.
Proof.
  intros Hpq. unfold Builtins.len.
  induction l as [|x l IH]; [reflexivity|].
  rewrite !count_of_cons. specialize (Hpq x).
  change (length (x :: l)) with (S (length l)).
  destruct (p x), (q x); simpl in *; try discriminate; lia.
Qed.

Lemma count_of_le {A} (p q : A -> bool) (l : list A) :
  (forall x, p x = true -> q x = true) -> count_of p l <= count_of q l.
Proof.
  intros Hpq. induction l as [|x l IH]; [reflexivity|].
  rewrite !count_of_cons. specialize (Hpq x).
  destruct (p x); [rewrite Hpq by reflexivity|destruct (q x)]; simpl; lia.
Qed.

Lemma count_of_le_len {A} (p : A -> bool) (l : list A) :
  count_of p l <= Builtins.len l.
Proof.
  unfold count_of, Builtins.len. pose proof (filter_length_le p l). lia.
Qed.

(** One pass of the loop adds one to every counter whose test the status
    passes; it cannot raise. *)
Lemma tally_run (status : RepositoryStatus.t) (s : FleetSummary.t) :
  FleetManager.tally status s
  = (Return tt,
     FleetSummary.mk
       (FleetSummary.total s)
       (FleetSummary.clean s + b2z (all_clean status))
       (FleetSummary.need_push s + b2z (RepositoryStatus.needs_push status))
       (FleetSummary.need_pull s + b2z (RepositoryStatus.needs_pull status))
       (FleetSummary.diverged s + b2z (RepositoryStatus.is_diverged status))
       (FleetSummary.dirty s + b2z (tree_dirty status))
       (FleetSummary.conflict_risk s
        + b2z (RepositoryStatus.has_conflict_risk status))
       (FleetSummary.errors s + b2z (in_error status)),
     []).
Proof.
  unfold FleetManager.tally, all_clean, tree_dirty, in_error.
  destruct s as [t c pu pl dv dt cr er].
  destruct (RepositoryStatus.sync_status status) eqn:Es;
    unfold RepositoryStatus.needs_push, RepositoryStatus.needs_pull,
      RepositoryStatus.is_diverged, RepositoryStatus.has_conflict_risk,
      RepositoryStatus.is_diverged, RepositoryStatus.needs_pull;
    rewrite Es; simpl SyncStatus.eqb; cbn [orb andb];
    destruct (RepositoryStatus.working_tree_status status);
    cbn; rewrite ?Z.add_0_r; reflexivity.
Qed.

Lemma tally_loop (statuses : list RepositoryStatus.t) (s : FleetSummary.t) :
  locals (for_ statuses FleetManager.tally s)
  = FleetSummary.mk
      (FleetSummary.total s)
      (FleetSummary.clean s + count_of all_clean statuses)
      (FleetSummary.need_push s
       + count_of RepositoryStatus.needs_push statuses)
      (FleetSummary.need_pull s
       + count_of RepositoryStatus.needs_pull statuses)
      (FleetSummary.diverged s
       + count_of RepositoryStatus.is_diverged statuses)
      (FleetSummary.dirty s + count_of tree_dirty statuses)
      (FleetSummary.conflict_risk s
       + count_of RepositoryStatus.has_conflict_risk statuses)
      (FleetSummary.errors s + count_of in_error statuses).
Proof.
  revert s. induction statuses as [|status statuses IH]; intros s.
  - destruct s. simpl. rewrite !count_of_nil, !Z.add_0_r. reflexivity.
  - rewrite (for_cons_Return _ _ _ _ _ _ (tally_run status s)).
    match goal with |- locals (?v, ?l, ?t) = _ => change (locals (v, l, t)) with l end.
    rewrite IH. simpl. rewrite !count_of_cons. f_equal; lia.
Qed.

Lemma summary_fields (statuses : list RepositoryStatus.t) :
  FleetManager.get_summary statuses
  = FleetSummary.mk
      (Builtins.len statuses)
      (count_of all_clean statuses)
      (count_of RepositoryStatus.needs_push statuses)
      (count_of RepositoryStatus.needs_pull statuses)
      (count_of RepositoryStatus.is_diverged statuses)
      (count_of tree_dirty statuses)
      (count_of RepositoryStatus.has_conflict_risk statuses)
      (count_of in_error statuses).
Proof. unfold FleetManager.get_summary. rewrite tally_loop. reflexivity. Qed.

(** X1. The summary of a list of statuses counts, field by field, the
    statuses that pass the field's test: [total] all of them, [errors]
    those in error, [clean] those in sync with a clean working tree, and
    so on; the loop never raises. *)
Theorem get_summary_counts (statuses : list RepositoryStatus.t) :
  value (for_ statuses FleetManager.tally
           (FleetSummary.new (Builtins.len statuses))) = Return tt
  /\ FleetManager.get_summary statuses
     = FleetSummary.mk
         (Z.of_nat (length statuses))
         (count_of all_clean statuses)
         (count_of RepositoryStatus.needs_push statuses)
         (count_of RepositoryStatus.needs_pull statuses)
         (count_of RepositoryStatus.is_diverged statuses)
         (count_of tree_dirty statuses)
         (count_of RepositoryStatus.has_conflict_risk statuses)
         (count_of in_error statuses).
Proof.
  split; [|apply summary_fields].
  generalize (FleetSummary.new (Builtins.len statuses)).
  induction statuses as [|status statuses IH]; intros s; [reflexivity|].
  rewrite (for_cons_Return _ _ _ _ _ _ (tally_run status s)).
  match goal with |- value (?v, ?l, ?t) = _ => change (value (v, l, t)) with v end.
  apply IH.
Qed.

Lemma len_cons {A} (x : A) (l : list A) :
  Builtins.len (x :: l) = 1 + Builtins.len l.
Proof. unfold Builtins.len. simpl length. lia. Qed.

(** X2. The counters of a summary fit together: none is negative; a
    status counts as at most one of error, clean, or needing a push or a
    pull; every diverged status needs both a push and a pull and is at
    conflict risk; every status at conflict risk needs a pull and is
    diverged or has a dirty tree. *)
Theorem summary_counters_consistent (statuses : list RepositoryStatus.t) :
  let s := FleetManager.get_summary statuses in
  (0 <= FleetSummary.clean s /\ 0 <= FleetSummary.need_push s
   /\ 0 <= FleetSummary.need_pull s /\ 0 <= FleetSummary.diverged s
   /\ 0 <= FleetSummary.dirty s /\ 0 <= FleetSummary.conflict_risk s
   /\ 0 <= FleetSummary.errors s)
  /\ FleetSummary.errors s + FleetSummary.clean s
     + (FleetSummary.need_push s + FleetSummary.need_pull s
        - FleetSummary.diverged s)
     <= FleetSummary.total s
  /\ FleetSummary.diverged s <= FleetSummary.need_push s
  /\ FleetSummary.diverged s <= FleetSummary.conflict_risk s
  /\ FleetSummary.conflict_risk s <= FleetSummary.need_pull s
  /\ FleetSummary.conflict_risk s
     <= FleetSummary.diverged s + FleetSummary.dirty s
  /\ FleetSummary.dirty s <= FleetSummary.total s.
Proof.
  intros s. subst s. rewrite summary_fields. cbn [FleetSummary.total
    FleetSummary.clean FleetSummary.need_push FleetSummary.need_pull
    FleetSummary.diverged FleetSummary.dirty FleetSummary.conflict_risk
    FleetSummary.errors].
  split; [repeat split; apply count_of_nonneg|].
  induction statuses as [|x l IH];
    [rewrite !count_of_nil; unfold Builtins.len; simpl; lia|].
  rewrite !count_of_cons, len_cons.
  assert (Hx : b2z (in_error x) + b2z (all_clean x)
               + (b2z (RepositoryStatus.needs_push x)
                  + b2z (RepositoryStatus.needs_pull x)
                  - b2z (RepositoryStatus.is_diverged x)) <= 1
               /\ b2z (RepositoryStatus.is_diverged x)
                  <= b2z (RepositoryStatus.needs_push x)
               /\ b2z (RepositoryStatus.is_diverged x)
                  <= b2z (RepositoryStatus.has_conflict_risk x)
               /\ b2z (RepositoryStatus.has_conflict_risk x)
                  <= b2z (RepositoryStatus.needs_pull x)
               /\ b2z (RepositoryStatus.has_conflict_risk x)
                  <= b2z (RepositoryStatus.is_diverged x) + b2z (tree_dirty x)
               /\ b2z (tree_dirty x) <= 1).
  { unfold in_error, all_clean, tree_dirty, RepositoryStatus.has_conflict_risk,
      RepositoryStatus.needs_push, RepositoryStatus.needs_pull,
      RepositoryStatus.is_diverged.
    destruct (RepositoryStatus.sync_status x),
      (RepositoryStatus.working_tree_status x); cbn; lia. }
  lia.
Qed.

Lemma extend_loop {K A} (all : list (K * list A)) (acc : list A) :
  fold_left (fun acc rs => acc ++ rs.2) all acc = acc ++ concat (map snd all).
Proof.
  revert acc. induction all as [|rs all IH]; intros acc; simpl.
  - rewrite app_nil_r. reflexivity.
  - rewrite IH, <- app_assoc. reflexivity.
Qed.

Lemma summary_app (l1 l2 : list RepositoryStatus.t) :
  FleetManager.get_summary (l1 ++ l2)
  = summary_add (FleetManager.get_summary l1) (FleetManager.get_summary l2).
Proof.
  rewrite !summary_fields. unfold summary_add. simpl.
  rewrite !count_of_app. unfold Builtins.len. rewrite length_app.
  f_equal. lia.
Qed.

(** X3. The combined summary over several roots is the field-by-field sum
    of the summaries of the roots; without roots it is all zero. *)
Theorem multi_root_summary_adds_up
    (all_statuses : list (Path * list RepositoryStatus.t)) :
  MultiRootFleetManager.get_summary all_statuses
  = fold_right summary_add (FleetSummary.new 0)
      (map (fun rs => FleetManager.get_summary rs.2) all_statuses).
Proof.
  unfold MultiRootFleetManager.get_summary. cbv zeta.
  rewrite extend_loop. simpl app.
  change (locals (for_ ?l FleetManager.tally (FleetSummary.new (Builtins.len ?l))))
    with (FleetManager.get_summary l).
  induction all_statuses as [|[root statuses] rest IH]; [reflexivity|].
  simpl. rewrite summary_app, IH. reflexivity.
Qed.

(** ** Sync operation summaries *)

Lemma sum_ones_from {A} (l : list A) (a : Z) :
  fold_left Z.add (map (fun _ => 1) l) a = a + Builtins.len l.
Proof.
  unfold Builtins.len. revert a.
  induction l as [|x l IH]; intros a; simpl fold_left; [simpl; lia|].
  rewrite IH. simpl length. lia.
Qed.

Lemma sum_ones {A} (p : A -> bool) (l : list A) :
  Builtins.sum (map (fun _ => 1) (List.filter p l)) = count_of p l.
Proof. unfold Builtins.sum. rewrite sum_ones_from. reflexivity. Qed.

Lemma count_of_split {A} (p : A -> bool) (l : list A) :
  count_of p l + count_of (fun x => negb (p x)) l = Builtins.len l.
Proof.
  induction l as [|x l IH]; [reflexivity|].
  rewrite !count_of_cons, len_cons. destruct (p x); simpl; lia.
Qed.

Lemma len_flatten {K A} (per_root : list (K * list A)) :
  Builtins.len (SyncOperationSummary.flatten per_root)
  = Builtins.sum (map (fun kr => Builtins.len kr.2) per_root).
Proof.
  unfold Builtins.sum.
  assert (H : forall a,
             fold_left Z.add (map (fun kr : K * list A => Builtins.len kr.2)
                                per_root) a
             = a + Builtins.len (SyncOperationSummary.flatten per_root)).
  { induction per_root as [|kr per_root IH]; intros a; simpl.
    - unfold Builtins.len. simpl. lia.
    - rewrite IH. unfold Builtins.len. rewrite length_app. lia. }
  rewrite H. lia.
Qed.

(** X4. A sync summary loses no result and counts none twice: for each
    of fetch, pull and push, the succeeded and the failed counts are the
    numbers of results with and without [success], and together they are
    the number of results, over one root and over several. *)
Theorem sync_summary_partitions_results :
  (forall fetch_results pull_results push_results,
     let s := SyncOperationSummary.from_results fetch_results pull_results
                push_results in
     SyncOperationSummary.fetched s
       = count_of OperationResult.success fetch_results
     /\ SyncOperationSummary.pulled s
        = count_of OperationResult.success pull_results
     /\ SyncOperationSummary.pushed s
        = count_of OperationResult.success push_results
     /\ SyncOperationSummary.fetched s + SyncOperationSummary.fetched_failed s
        = Builtins.len fetch_results
     /\ SyncOperationSummary.pulled s + SyncOperationSummary.pulled_failed s
        = Builtins.len pull_results
     /\ SyncOperationSummary.pushed s + SyncOperationSummary.pushed_failed s
        = Builtins.len push_results)
  /\ (forall fetch_results pull_results push_results,
        let s := SyncOperationSummary.from_multi_root_results fetch_results
                   pull_results push_results in
        SyncOperationSummary.fetched s + SyncOperationSummary.fetched_failed s
          = Builtins.sum (map (fun kr => Builtins.len kr.2) fetch_results)
        /\ SyncOperationSummary.pulled s + SyncOperationSummary.pulled_failed s
           = Builtins.sum (map (fun kr => Builtins.len kr.2) pull_results)
        /\ SyncOperationSummary.pushed s + SyncOperationSummary.pushed_failed s
           = Builtins.sum (map (fun kr => Builtins.len kr.2) push_results)).
Proof.
  assert (Hone : forall f p u,
             let s := SyncOperationSummary.from_results f p u in
             SyncOperationSummary.fetched s = count_of OperationResult.success f
             /\ SyncOperationSummary.pulled s
                = count_of OperationResult.success p
             /\ SyncOperationSummary.pushed s
                = count_of OperationResult.success u
             /\ SyncOperationSummary.fetched s
                + SyncOperationSummary.fetched_failed s = Builtins.len f
             /\ SyncOperationSummary.pulled s
                + SyncOperationSummary.pulled_failed s = Builtins.len p
             /\ SyncOperationSummary.pushed s
                + SyncOperationSummary.pushed_failed s = Builtins.len u).
  { intros f p u. unfold SyncOperationSummary.from_results. simpl.
    rewrite !sum_ones.
    repeat split; try reflexivity;
      apply (count_of_split OperationResult.success). }
  split; [exact Hone|].
  intros F P U. unfold SyncOperationSummary.from_multi_root_results.
  cbv zeta. rewrite <- !len_flatten.
  destruct (Hone (SyncOperationSummary.flatten F)
              (SyncOperationSummary.flatten P)
              (SyncOperationSummary.flatten U)) as (_ & _ & _ & H1 & H2 & H3).
  auto.
Qed.

(** ** Protocols of remote URLs *)

Ltac by_prefix E :=
  apply startswith_app in E as [? ->]; cbn;
  intuition (try discriminate; try congruence).

(** X5. Every protocol [_detect_protocol] can return has an entry in the
    colour table of the formatter: the fallback colour is never used for a
    detected protocol. *)
Theorem detected_protocol_has_color (url : string) :
  In (GitOperations._detect_protocol url)
     ["unknown"; "https"; "http"; "git"; "file"; "ssh"]
  /\ In (GitOperations._detect_protocol url,
         Formatters._get_protocol_color (GitOperations._detect_protocol url))
        Formatters.colors
  /\ Formatters._get_protocol_color (GitOperations._detect_protocol url)
     <> "white".
Proof.
  unfold GitOperations._detect_protocol.
  repeat match goal with
         | |- context [if ?b then _ else _] => destruct b
         end;
    cbn; intuition discriminate.
Qed.

(** X6. The protocol is decided by the start of the URL, and the order of
    the tests matters only for the last one: a URL that contains [@] is
    taken for ssh only when it starts with none of the other schemes and
    not with a slash. The empty URL is unknown. *)
Theorem detect_protocol_by_prefix (url : string) :
  let proto := GitOperations._detect_protocol url in
  let starts p := Str.startswith url p = true in
  (proto = "https" <-> starts "https://")
  /\ (proto = "http" <-> starts "http://")
  /\ (proto = "git" <-> starts "git://")
  /\ (proto = "file" <-> starts "file://" \/ starts "/")
  /\ (proto = "ssh" <->
      starts "ssh://"
      \/ (Str.contains "@" url = true
          /\ ~ starts "https://" /\ ~ starts "http://" /\ ~ starts "git://"
          /\ ~ starts "file://" /\ ~ starts "/"))
  /\ (proto = "unknown" <->
      Str.contains "@" url = false
      /\ ~ starts "https://" /\ ~ starts "http://" /\ ~ starts "git://"
      /\ ~ starts "file://" /\ ~ starts "/" /\ ~ starts "ssh://").
Proof.
  intros proto starts. subst proto starts. cbv beta.
  unfold GitOperations._detect_protocol.
  destruct (Str.startswith url "https://") eqn:E1; [by_prefix E1|].
  destruct (Str.startswith url "http://") eqn:E2; [by_prefix E2|].
  destruct (Str.startswith url "git://") eqn:E3; [by_prefix E3|].
  destruct (Str.startswith url "file://") eqn:E4; [by_prefix E4|].
  destruct (Str.startswith url "/") eqn:E5; [by_prefix E5|].
  destruct (Str.startswith url "ssh://") eqn:E6; [by_prefix E6|].
  destruct url as [|c url]; [cbn; intuition discriminate|].
  destruct (Str.contains "@" (String c url)) eqn:E7;
    cbn; intuition discriminate.
Qed.

(** ** What a status can be *)

Lemma fetch_result_ok (world : World) (p : Path) :
  (fetch_result world p).1 = true
  <-> exists out, git world p ["fetch"; "--all"; "--prune"] = Return out
                  /\ CompletedProcess.returncode out = 0.
Proof.
  unfold fetch_result, result_of, GitOperations.fetch_all, try_, bind,
    GitOperations._run, value. simpl.
  destruct (git world p ["fetch"; "--all"; "--prune"]) as [out|e]; simpl.
  - destruct (CompletedProcess.returncode out =? 0) eqn:E; simpl.
    + apply Z.eqb_eq in E. split; [eauto|reflexivity].
    + apply Z.eqb_neq in E. split; [discriminate|].
      intros (out' & [= <-] & H). contradiction.
  - split; [discriminate|]. intros (out' & [=] & _).
Qed.

Section StatusRange.
Context (world : World) (repo : GitRepository.t) (fetch_first : bool).

Lemma status_of_shape :
  let p := GitRepository.path repo in
  let st := status_of world repo fetch_first in
  (fetch_first = true /\ (fetch_result world p).1 = false
   /\ RepositoryStatus.sync_status st = SyncStatus.ERROR
   /\ RepositoryStatus.error_message st
      = "Fetch failed: " +:+ (fetch_result world p).2
   /\ RepositoryStatus.ahead_count st = 0
   /\ RepositoryStatus.behind_count st = 0)
  \/ ((fetch_first = false \/ (fetch_result world p).1 = true)
      /\ In (RepositoryStatus.sync_status st)
            [SyncStatus.CLEAN; SyncStatus.DETACHED; SyncStatus.NO_UPSTREAM;
             SyncStatus.NO_REMOTE]
      /\ RepositoryStatus.error_message st = ""
      /\ RepositoryStatus.ahead_count st = 0
      /\ RepositoryStatus.behind_count st = 0).
Proof.
  intros p st. subst p st. unfold status_of, result_of.
  destruct (status_of_cases world repo fetch_first)
    as [(Hf & Hfail & ->) | (Hok & d & ->)].
  - left. repeat split; assumption || reflexivity.
  - right. split; [exact Hok|].
    destruct (probe_ahead_behind_zero world (GitRepository.path repo))
      as [Ha Hb].
    cbn [RepositoryStatus.sync_status RepositoryStatus.error_message
         RepositoryStatus.ahead_count RepositoryStatus.behind_count].
    rewrite Ha, Hb. cbn [Z.ltb Z.compare andb].
    split; [|auto].
    repeat match goal with
           | |- context [if ?b then _ else _] => destruct b
           end; simpl; auto.
Qed.

End StatusRange.

(** X7. [get_status] never raises and never reports a repository as ahead,
    behind or diverged: the status probe leaves both counts at zero, since
    the line [# branch.ab +N -M] has four whitespace-separated parts where
    the parser asks for three. A repository with an upstream branch is
    therefore always reported as clean, and no status it returns needs a
    push, needs a pull or is at conflict risk. *)
Theorem get_status_never_out_of_sync (world : World)
    (repo : GitRepository.t) (fetch_first : bool) :
  exists st,
    value (GitRepository.get_status world repo fetch_first tt) = Return st
    /\ RepositoryStatus.ahead_count st = 0
    /\ RepositoryStatus.behind_count st = 0
    /\ In (RepositoryStatus.sync_status st)
          [SyncStatus.CLEAN; SyncStatus.DETACHED; SyncStatus.NO_UPSTREAM;
           SyncStatus.NO_REMOTE; SyncStatus.ERROR]
    /\ RepositoryStatus.needs_push st = false
    /\ RepositoryStatus.needs_pull st = false
    /\ RepositoryStatus.has_conflict_risk st = false.
Proof.
  exists (status_of world repo fetch_first).
  split; [rewrite get_status_run; reflexivity|].
  unfold RepositoryStatus.has_conflict_risk, RepositoryStatus.is_diverged,
    RepositoryStatus.needs_push, RepositoryStatus.needs_pull.
  destruct (status_of_shape world repo fetch_first)
    as [(_ & _ & Hs & _ & Ha & Hb) | (_ & Hs & _ & Ha & Hb)].
  - rewrite Hs. simpl. auto 10.
  - simpl in Hs. destruct Hs as [<-|[<-|[<-|[<-|[]]]]]; simpl; auto 10.
Qed.

(** X8. [get_status] reports an error exactly when a fetch was asked for
    and did not succeed (the tool could not be started or returned a
    non-zero code); the message then starts with [Fetch failed: ] and
    nothing but the fetch was run. In every other case, also when no
    command can be run at all, the error message is empty. *)
Theorem get_status_error_iff_fetch_failed (world : World)
    (repo : GitRepository.t) (fetch_first : bool) :
  let p := GitRepository.path repo in
  let st := status_of world repo fetch_first in
  let fetched :=
    exists out, git world p ["fetch"; "--all"; "--prune"] = Return out
                /\ CompletedProcess.returncode out = 0 in
  (RepositoryStatus.sync_status st = SyncStatus.ERROR
   <-> fetch_first = true /\ ~ fetched)
  /\ (RepositoryStatus.sync_status st = SyncStatus.ERROR ->
      Str.startswith (RepositoryStatus.error_message st) "Fetch failed: "
      = true
      /\ trace_of (GitRepository.get_status world repo fetch_first)
         = [Run p ["fetch"; "--all"; "--prune"]])
  /\ (RepositoryStatus.sync_status st <> SyncStatus.ERROR ->
      RepositoryStatus.error_message st = "").
Proof.
  intros p st fetched. subst fetched.
  rewrite <- (fetch_result_ok world p).
  destruct (status_of_shape world repo fetch_first)
    as [(Hf & Hfail & Hs & Hm & _) | (Hok & Hs & Hm & _)];
    fold p in Hfail || fold p in Hok; fold st in Hs, Hm.
  - split; [|split].
    + split; [intros _; split; [exact Hf|congruence]|intros _; exact Hs].
    + intros _. split.
      * rewrite Hm. destruct (fetch_result world (GitRepository.path repo)).2;
          reflexivity.
      * subst fetch_first. unfold trace_of, GitRepository.get_status.
        rewrite call_trace. unfold try_, bind.
        rewrite fetch_all_run. fold p.
        destruct (fetch_result world p) as [ok err]. simpl in Hfail.
        subst ok. simpl. unfold trace_of, GitOperations.fetch_all, try_,
          bind, GitOperations._run, trace. simpl.
        destruct (git world p ["fetch"; "--all"; "--prune"]) as [out|e];
          simpl; [destruct (CompletedProcess.returncode out =? 0)|];
          reflexivity.
    + congruence.
  - assert (Hne : RepositoryStatus.sync_status st <> SyncStatus.ERROR).
    { simpl in Hs. intuition congruence. }
    split; [|split].
    + split; [contradiction|]. intros [Hf Hnot].
      destruct Hok as [Hok|Hok]; congruence.
    + contradiction.
    + intros _. exact Hm.
Qed.

(** ** A bulk pull or push that scans the statuses itself *)

Lemma runs_quietly_intro {S A} (m : Py S A) (s : S) (a : A) (s' : S) :
  returns m s a s' -> emits_only quiet m -> runs_quietly m s a s'.
Proof.
  intros [t E] Hq. exists t. split; [exact E|].
  specialize (Hq s). rewrite E in Hq. exact Hq.
Qed.

Lemma runs_quietly_ret {S A} (a : A) (s : S) : runs_quietly (ret a) s a s.
Proof. exists []. split; [reflexivity|constructor]. Qed.

Lemma runs_quietly_bind {S A B} (m : Py S A) (k : A -> Py S B) s a s1 b s2 :
  runs_quietly m s a s1 -> runs_quietly (k a) s1 b s2 ->
  runs_quietly (bind m k) s b s2.
Proof.
  intros (t1 & E1 & H1) (t2 & E2 & H2). exists (t1 ++ t2).
  unfold bind. rewrite E1, E2. split; [reflexivity|].
  apply Forall_app. split; assumption.
Qed.

Lemma filter_none {A} (p : A -> bool) (l : list A) :
  Forall (fun x => p x = false) l -> List.filter p l = [].
Proof.
  induction 1 as [|x l Hx _ IH]; [reflexivity|].
  simpl. rewrite Hx. exact IH.
Qed.

Lemma Forall_zip_snd {A B} (P : B -> Prop) (l1 : list A) (l2 : list B) :
  Forall P l2 -> Forall (fun p => P p.2) (zip l1 l2).
Proof.
  intros H. revert l1. induction H as [|y l2 Hy _ IH]; intros [|x l1];
    simpl; constructor; auto.
Qed.

(** No status of a scan asks for a pull or a push. *)
Lemma all_status_in_sync (world : World) (fm : FleetManager.t)
    (sched : Schedule) (fetch_first sequential : bool) :
  Forall (fun st => RepositoryStatus.needs_pull st = false
                    /\ RepositoryStatus.needs_push st = false)
    (all_status world fm sched fetch_first sequential).
Proof.
  unfold all_status. rewrite list_sort_Permutation.
  apply Forall_forall. intros st Hst.
  apply list_elem_of_In, in_map_iff in Hst as (repo & <- & _).
  unfold RepositoryStatus.needs_pull, RepositoryStatus.needs_push.
  destruct (status_of_shape world repo fetch_first)
    as [(_ & _ & -> & _) | (_ & Hs & _)]; [split; reflexivity|].
  simpl in Hs. destruct Hs as [<-|[<-|[<-|[<-|[]]]]]; split; reflexivity.
Qed.

Lemma partition_smart_none
    (pairs : list (GitRepository.t * RepositoryStatus.t)) :
  Forall (fun p => RepositoryStatus.needs_pull p.2 = false) pairs ->
  FleetManager.partition_smart pairs = ([], []).
Proof.
  induction 1 as [|[repo st] pairs Hx _ IH]; [reflexivity|].
  simpl in *. rewrite IH, Hx. reflexivity.
Qed.

Lemma repos_to_pull_none (world : World) (fm : FleetManager.t)
    (sched : Schedule) (sequential : bool) (mode : PullMode.t)
    (repos : list GitRepository.t) (statuses : list RepositoryStatus.t) :
  Forall (fun st => RepositoryStatus.needs_pull st = false) statuses ->
  FleetManager.repos_to_pull world sched sequential mode repos statuses fm
  = (Return [], fm, []).
Proof.
  intros H. apply (Forall_zip_snd _ repos) in H.
  destruct mode; simpl.
  - unfold FleetManager.select_smart. rewrite partition_smart_none by exact H.
    reflexivity.
  - rewrite filter_none; [reflexivity|].
    eapply Forall_impl; [exact H|]. intros p Hp. simpl in Hp.
    rewrite Hp. reflexivity.
  - rewrite filter_none; [reflexivity|exact H].
Qed.

Lemma execute_parallel_nothing (world : World) {R} `{HasPath R}
    (sched : Schedule) (operation : GitRepository.t -> Py unit R)
    (sequential : bool) (fm : FleetManager.t) :
  FleetManager._execute_parallel world sched operation (Some []) sequential fm
  = (Return [], fm, []).
Proof.
  unfold FleetManager._execute_parallel, bind, ret. simpl.
  rewrite orb_true_r. reflexivity.
Qed.

(** X9. A bulk pull or push that is left to scan the statuses itself
    ([only_behind], respectively [only_ahead], with no statuses handed in)
    selects no repository: it returns the empty list, for every pull mode,
    in a dry run or not, and starts neither a pull nor a push. The scan's
    statuses never need a pull or a push. *)
Theorem own_scan_selects_nothing (world : World) (fm : FleetManager.t)
    (scheds : FleetManager.Schedules) (sequential dry_run : bool)
    (mode : PullMode.t) :
  sequential = true \/ 0 < FleetManager.max_workers fm ->
  runs_quietly
    (FleetManager.pull_all world scheds true sequential dry_run mode None)
    fm [] (after_discovery world fm)
  /\ runs_quietly
       (FleetManager.push_all world scheds true sequential dry_run None)
       fm [] (after_discovery world fm).
Proof.
  intros Hpool.
  set (fm1 := after_discovery world fm).
  assert (Hpool1 : sequential = true \/ 0 < FleetManager.max_workers fm1)
    by (apply can_pool_after_discovery; exact Hpool).
  assert (Hdisc : runs_quietly (FleetManager.discover_repositories world) fm
                    (discovered world fm) fm1).
  { apply runs_quietly_intro; [apply discover_repositories_returns|].
    apply discover_repositories_emits. intros p args Hq. exact Hq. }
  assert (Hscan : runs_quietly
                    (FleetManager.get_all_status world
                       (FleetManager.status_order scheds) true sequential)
                    fm1
                    (all_status world fm (FleetManager.status_order scheds)
                       true sequential)
                    fm1).
  { apply runs_quietly_intro; [|apply get_all_status_quiet].
    pose proof (get_all_status_returns world fm1 sequential Hpool1
                  (FleetManager.status_order scheds) true) as Hst.
    unfold fm1 in Hst at 2 3.
    rewrite all_status_after_discovery, after_discovery_idem in Hst.
    exact Hst. }
  pose proof (all_status_in_sync world fm (FleetManager.status_order scheds)
                true sequential) as Hsync.
  split.
  - unfold FleetManager.pull_all.
    eapply runs_quietly_bind; [exact Hdisc|].
    eapply runs_quietly_bind with (a := []) (s1 := fm1).
    + eapply runs_quietly_bind; [exact Hscan|].
      exists []. split; [|constructor].
      apply repos_to_pull_none.
      eapply Forall_impl; [exact Hsync|]. intros st [Hp _]. exact Hp.
    + destruct dry_run; [apply runs_quietly_ret|].
      exists []. split; [apply execute_parallel_nothing|constructor].
  - unfold FleetManager.push_all.
    eapply runs_quietly_bind; [exact Hdisc|].
    eapply runs_quietly_bind with (a := []) (s1 := fm1).
    + eapply runs_quietly_bind; [exact Hscan|].
      unfold FleetManager.repos_to_push. rewrite filter_none.
      * apply runs_quietly_ret.
      * apply (Forall_zip_snd
                 (fun st => RepositoryStatus.needs_push st = false)).
        eapply Forall_impl; [exact Hsync|]. intros st [_ Hp]. exact Hp.
    + destruct dry_run; [apply runs_quietly_ret|].
      exists []. split; [apply execute_parallel_nothing|constructor].
Qed.

Lemma own_scan_selects_nothing_witness :
  runs_quietly
    (FleetManager.pull_all Demo.world (Demo.scheds [2; 0]%nat) true false false
       PullMode.FORCE None)
    (Demo.fleet ["/"; "r"]) [] (after_discovery Demo.world (Demo.fleet ["/"; "r"]))
  /\ runs_quietly
       (FleetManager.push_all Demo.world (Demo.scheds [2; 0]%nat) true false false
          None)
       (Demo.fleet ["/"; "r"]) []
       (after_discovery Demo.world (Demo.fleet ["/"; "r"])).
Proof.
  apply (own_scan_selects_nothing Demo.world (Demo.fleet ["/"; "r"])
           (Demo.scheds [2; 0]%nat) false false PullMode.FORCE).
  right. reflexivity.
Defined.

(** ** Results of single operations *)

Ltac run_operation :=
  unfold reports, GitRepository.fetch, GitRepository.pull, GitRepository.push,
    GitOperations.fetch_all, GitOperations.pull, GitOperations.push,
    try_, bind, ret, GitOperations._run, value; simpl;
  match goal with
  | |- context [git ?w ?p ?a] => destruct (git w p a) eqn:Egit; simpl
  end;
  [ match goal with
    | |- context [CompletedProcess.returncode ?o =? 0] =>
        destruct (CompletedProcess.returncode o =? 0) eqn:Erc; simpl;
        [ apply Z.eqb_eq in Erc | apply Z.eqb_neq in Erc ]
    end
  | ];
  (eexists; split; [reflexivity|]); simpl;
  repeat split; try reflexivity; try discriminate; try congruence;
  try (intros (? & [= <-] & ?); contradiction);
  try (intros (? & [=] & _)); eauto.

(** X10. Fetching, pulling or pushing one repository never raises. The
    result names the repository and the operation; it succeeded exactly
    when the command could be run and returned zero; a success carries no
    error and a failure no message; when the command could not be started
    the error is the text of the exception. *)
Theorem operation_results_well_formed (world : World)
    (repo : GitRepository.t) :
  (exists r, value (GitRepository.fetch world repo tt) = Return r
             /\ reports world repo "fetch" ["fetch"; "--all"; "--prune"] r)
  /\ (exists r, value (GitRepository.pull world repo tt) = Return r
                /\ reports world repo "pull" ["pull"] r)
  /\ (exists r, value (GitRepository.push world repo tt) = Return r
                /\ reports world repo "push" ["push"] r).
Proof.
  split; [|split]; run_operation.
Qed.

(** ** Configuration values and their origin *)

Lemma prefix_empty (s : string) : String.prefix "" s = true.
Proof. destruct s; reflexivity. Qed.

Lemma contains_char_cons (sep c : ascii) (s : string) :
  Str.contains (String sep "") (String c s)
  = Ascii.eqb c sep || Str.contains (String sep "") s.
Proof.
  simpl. destruct (ascii_dec sep c) as [->|Hne].
  - rewrite prefix_empty, Ascii.eqb_refl. reflexivity.
  - destruct (Ascii.eqb c sep) eqn:E; [|reflexivity].
    apply Ascii.eqb_eq in E. congruence.
Qed.

(** The first separator cuts the text in two; without one it stays
    whole. *)
Lemma split_once_spec (sep : ascii) (s : string) :
  if Str.contains (String sep "") s
  then exists a b, Str.split_once sep s = [a; b]
                   /\ s = a +:+ String sep b
                   /\ Str.contains (String sep "") a = false
  else Str.split_once sep s = [s].
Proof.
  induction s as [|c s IH]; [reflexivity|].
  rewrite contains_char_cons. simpl Str.split_once.
  destruct (Ascii.eqb c sep) eqn:E; simpl orb.
  - apply Ascii.eqb_eq in E. subst c. exists "", s. auto.
  - destruct (Str.contains (String sep "") s).
    + destruct IH as (a & b & -> & -> & Ha). exists (String c a), b.
      split; [reflexivity|]. split; [reflexivity|].
      rewrite contains_char_cons, E, Ha. reflexivity.
    + rewrite IH. reflexivity.
Qed.

Lemma replace_first_eq (old new s : string) :
  Str.replace_first old new s
  = if String.prefix old s
    then new +:+ Str.slice_from (String.length old) s
    else match s with
         | EmptyString => EmptyString
         | String c s' => String c (Str.replace_first old new s')
         end.
Proof. destruct s; reflexivity. Qed.

Lemma replace_first_prefix (old new rest : string) :
  Str.replace_first old new (old +:+ rest) = new +:+ rest.
Proof.
  assert (Hp : String.prefix old (old +:+ rest) = true).
  { induction old as [|a old IH]; simpl; [apply prefix_empty|].
    destruct (ascii_dec a a); [exact IH|congruence]. }
  assert (Hs : Str.slice_from (String.length old) (old +:+ rest) = rest).
  { induction old as [|a old IH]; simpl; [reflexivity|].
    apply IH. clear -Hp. simpl in Hp.
    destruct (ascii_dec a a); [exact Hp|congruence]. }
  rewrite replace_first_eq, Hp, Hs. reflexivity.
Qed.

Lemma source_type_range (source_file : string) :
  In (GitOperations.source_type_of source_file)
     ["local"; "system"; "global"; "included"].
Proof.
  unfold GitOperations.source_type_of.
  repeat match goal with
         | |- context [if ?b then _ else _] => destruct b
         end; simpl; auto.
Qed.

Lemma get_config_source_completes (world : World) (repo_path : Path)
    (key : string) {S : Type} (s : S) :
  exists r t,
    GitOperations.get_config_source world repo_path key s = (Return r, s, t).
Proof.
  unfold GitOperations.get_config_source, try_, bind, GitOperations._run.
  destruct (git world repo_path _) as [out|e]; simpl; [|eauto].
  destruct (CompletedProcess.returncode out =? 0); simpl; [|eauto].
  pose proof (split_once_spec Str.TAB
                (Str.strip (CompletedProcess.stdout out))) as Hsplit.
  destruct (Str.contains (String Str.TAB "")
              (Str.strip (CompletedProcess.stdout out))); simpl; [|eauto].
  destruct Hsplit as (origin & value & -> & _). simpl. eauto.
Qed.

(** X11. [get_config_source] never raises and runs one command. When the
    command succeeds and its stripped output contains a tab, the value is
    everything after the first tab (later tabs included), the source file
    is the text before it with its first [file:] removed, and the source
    type is one of local, system, global and included. In every other case
    the answer is the fallback with source type unknown. *)
Theorem config_source_shape (world : World) (repo_path : Path) (key : string)
    {S : Type} (s : S) :
  let args := ["config"; "--show-origin"; key] in
  let tab := String Str.TAB "" in
  exists r,
    GitOperations.get_config_source world repo_path key s
    = (Return r, s, [Run repo_path args])
    /\ ((exists out origin value,
           git world repo_path args = Return out
           /\ CompletedProcess.returncode out = 0
           /\ Str.strip (CompletedProcess.stdout out)
              = origin +:+ String Str.TAB value
           /\ Str.contains tab origin = false
           /\ r = (value,
                   GitOperations.source_type_of
                     (Str.replace_first "file:" "" origin),
                   Str.replace_first "file:" "" origin)
           /\ In r.1.2 ["local"; "system"; "global"; "included"]
           /\ (forall file, origin = "file:" +:+ file -> r.2 = file))
        \/ (r = ("", "unknown", "")
            /\ forall out,
                 git world repo_path args = Return out ->
                 CompletedProcess.returncode out = 0 ->
                 Str.contains tab (Str.strip (CompletedProcess.stdout out))
                 = false)).
Proof.
  intros args tab. subst tab.
  unfold GitOperations.get_config_source, try_, bind, GitOperations._run.
  fold args. destruct (git world repo_path args) as [out|e] eqn:Egit; simpl.
  - destruct (CompletedProcess.returncode out =? 0) eqn:Erc.
    + apply Z.eqb_eq in Erc.
      pose proof (split_once_spec Str.TAB
                    (Str.strip (CompletedProcess.stdout out))) as Hsplit.
      destruct (Str.contains (String Str.TAB "")
                  (Str.strip (CompletedProcess.stdout out))) eqn:Etab.
      * destruct Hsplit as (origin & value & -> & Hout & Horigin).
        simpl. eexists. split; [reflexivity|]. left.
        exists out, origin, value.
        split; [reflexivity|]. split; [exact Erc|]. split; [exact Hout|].
        split; [exact Horigin|]. split; [reflexivity|].
        split; [apply source_type_range|].
        intros file ->. simpl. apply (replace_first_prefix "file:" "" file).
      * simpl. eexists. split; [reflexivity|]. right.
        split; [reflexivity|]. intros out' [= <-] _. exact Etab.
    + apply Z.eqb_neq in Erc. simpl. eexists. split; [reflexivity|]. right.
      split; [reflexivity|]. intros out' [= <-] Hz. contradiction.
  - eexists. split; [reflexivity|]. right.
    split; [reflexivity|]. intros out' [=].
Qed.

(** ** Stripped answers *)

Lemma lstrip_idem (s : string) : Str.lstrip (Str.lstrip s) = Str.lstrip s.
Proof.
  induction s as [|c s IH]; [reflexivity|]. simpl.
  destruct (Str.isspace c) eqn:E; [exact IH|]. simpl. rewrite E. reflexivity.
Qed.

Lemma rstrip_cons (c : ascii) (s : string) :
  Str.rstrip (String c s)
  = match Str.rstrip s with
    | EmptyString => if Str.isspace c then EmptyString else String c EmptyString
    | r => String c r
    end.
Proof. reflexivity. Qed.

Lemma rstrip_idem (s : string) : Str.rstrip (Str.rstrip s) = Str.rstrip s.
Proof.
  induction s as [|c s IH]; [reflexivity|].
  rewrite rstrip_cons. destruct (Str.rstrip s) as [|c' r] eqn:E.
  - destruct (Str.isspace c) eqn:Ec; [reflexivity|].
    rewrite rstrip_cons. simpl Str.rstrip. rewrite Ec. reflexivity.
  - rewrite rstrip_cons, IH. reflexivity.
Qed.

(** Stripping the left end of a text without trailing white space leaves
    no trailing white space. *)
Lemma rstrip_lstrip_fixed (t : string) :
  Str.rstrip t = t -> Str.rstrip (Str.lstrip t) = Str.lstrip t.
Proof.
  induction t as [|c t IH]; [reflexivity|]. intros H. simpl Str.lstrip.
  destruct (Str.isspace c) eqn:Ec; [|exact H].
  apply IH. rewrite rstrip_cons in H.
  destruct (Str.rstrip t) as [|c' r] eqn:E.
  - rewrite Ec in H. discriminate.
  - congruence.
Qed.

Lemma strip_idem (s : string) : Str.strip (Str.strip s) = Str.strip s.
Proof.
  unfold Str.strip.
  rewrite (rstrip_lstrip_fixed (Str.rstrip s)) by apply rstrip_idem.
  apply lstrip_idem.
Qed.

Ltac run_getter :=
  unfold answers_stripped, try_, bind, ret, GitOperations._run; simpl;
  match goal with
  | |- context [git ?w ?p ?a] => destruct (git w p a) eqn:Egit; simpl
  end;
  [ match goal with
    | |- context [CompletedProcess.returncode ?o =? 0] =>
        destruct (CompletedProcess.returncode o =? 0) eqn:Erc; simpl;
        [ apply Z.eqb_eq in Erc | ]
    end
  | ];
  (eexists; split; [reflexivity|]);
  (split; [first [apply strip_idem | reflexivity]|]);
  intros Hr; try congruence; eauto.

Ltac run_to_end :=
  unfold try_, bind, ret, GitOperations._run; simpl;
  match goal with
  | |- context [git ?w ?p ?a] => destruct (git w p a); simpl
  end;
  repeat match goal with
         | |- context [if ?b then _ else _] => destruct b; simpl
         end;
  eauto.

Lemma text_getters_complete (world : World) (repo_path : Path)
    (local_only : bool) {S : Type} (s : S) :
  (exists r t, GitOperations.get_current_branch world repo_path s
               = (Return r, s, t))
  /\ (exists r t, GitOperations.get_remote_branch world repo_path s
                  = (Return r, s, t))
  /\ (exists r t, GitOperations.get_user_name world repo_path local_only s
                  = (Return r, s, t))
  /\ (exists r t, GitOperations.get_user_email world repo_path local_only s
                  = (Return r, s, t)).
Proof.
  split; [|split; [|split]].
  - unfold GitOperations.get_current_branch. run_to_end.
  - unfold GitOperations.get_remote_branch. run_to_end.
  - unfold GitOperations.get_user_name. destruct local_only; run_to_end.
  - unfold GitOperations.get_user_email. destruct local_only; run_to_end.
Qed.

(** X12. The getters of the branch, of the upstream branch and of the
    configured user name and e-mail never raise and run one command each;
    what they return has no white space at either end, and is empty unless
    the command ran and returned zero, in which case it is the stripped
    output. *)
Theorem text_getters_are_stripped (world : World) (repo_path : Path)
    (local_only : bool) {S : Type} (s : S) :
  let config key :=
    (if local_only then ["config"; "--local"] else ["config"]) ++ [key] in
  answers_stripped world repo_path ["rev-parse"; "--abbrev-ref"; "HEAD"]
    (GitOperations.get_current_branch world repo_path) s
  /\ answers_stripped world repo_path
       ["rev-parse"; "--abbrev-ref"; "--symbolic-full-name"; "@{u}"]
       (GitOperations.get_remote_branch world repo_path) s
  /\ answers_stripped world repo_path (config "user.name")
       (GitOperations.get_user_name world repo_path local_only) s
  /\ answers_stripped world repo_path (config "user.email")
       (GitOperations.get_user_email world repo_path local_only) s.
Proof.
  intros config. subst config. cbv beta.
  split; [|split; [|split]].
  - unfold GitOperations.get_current_branch. run_getter.
  - unfold GitOperations.get_remote_branch. run_getter.
  - unfold GitOperations.get_user_name. destruct local_only; run_getter.
  - unfold GitOperations.get_user_email. destruct local_only; run_getter.
Qed.

(** ** File listings *)

Lemma name_status_entry_spec (files : list (string * string)) (line : string) :
  if has_tab line
  then exists st f, GitOperations.name_status_entry files line
                    = files ++ [(st, f)]
                    /\ line = rejoin (st, f) /\ has_tab st = false
  else GitOperations.name_status_entry files line = files.
Proof.
  unfold GitOperations.name_status_entry, has_tab.
  pose proof (split_once_spec Str.TAB line) as H.
  destruct (Str.contains (String Str.TAB "") line).
  - destruct H as (a & b & -> & -> & Ha). exists a, b. auto.
  - rewrite H. reflexivity.
Qed.

Lemma name_status_loop (lines : list string) (acc : list (string * string)) :
  exists files,
    fold_left GitOperations.name_status_entry lines acc = acc ++ files
    /\ map rejoin files = List.filter has_tab lines
    /\ Forall (fun entry => has_tab entry.1 = false) files.
Proof.
  revert acc. induction lines as [|line lines IH]; intros acc.
  - exists []. rewrite app_nil_r. repeat split. constructor.
  - simpl. pose proof (name_status_entry_spec acc line) as H.
    destruct (has_tab line).
    + destruct H as (st & f & -> & Hl & Hst).
      destruct (IH (acc ++ [(st, f)])) as (files & -> & Hm & Hf).
      exists ((st, f) :: files). rewrite <- app_assoc.
      split; [reflexivity|]. split; [simpl; congruence|].
      constructor; assumption.
    + rewrite H. apply IH.
Qed.

Lemma splitlines_strip_empty (out : string) :
  Str.truthy (Str.strip out) = false -> Str.splitlines (Str.strip out) = [].
Proof. destruct (Str.strip out); [reflexivity|discriminate]. Qed.

Section Listings.
Context (world : World) (repo_path : Path).

Lemma name_status_run {S} (args : list string) (s : S) :
  exists files,
    try_
      (result <- GitOperations._run world repo_path args ;;
       if (CompletedProcess.returncode result =? 0)
          && Str.truthy (Str.strip (CompletedProcess.stdout result))
       then ret (fold_left GitOperations.name_status_entry
                   (Str.splitlines (Str.strip (CompletedProcess.stdout result)))
                   [])
       else ret [])
      (fun _ => ret []) s
    = (Return files, s, [Run repo_path args])
    /\ map rejoin files = List.filter has_tab (listing world repo_path args)
    /\ Forall (fun entry => has_tab entry.1 = false) files.
Proof.
  unfold listing, try_, bind, ret, GitOperations._run. simpl.
  destruct (git world repo_path args) as [out|e]; simpl.
  - destruct (CompletedProcess.returncode out =? 0); simpl.
    + destruct (Str.truthy (Str.strip (CompletedProcess.stdout out))) eqn:E.
      * destruct (name_status_loop
                    (Str.splitlines (Str.strip (CompletedProcess.stdout out)))
                    []) as (files & -> & Hm & Hf).
        exists files. auto.
      * rewrite (splitlines_strip_empty _ E). exists []. repeat split.
        constructor.
    + exists []. repeat split. constructor.
  - exists []. repeat split. constructor.
Qed.

End Listings.

Lemma get_untracked_files_run (world : World) (repo_path : Path)
    {S : Type} (s : S) :
  GitOperations.get_untracked_files world repo_path s
  = (Return (listing world repo_path
               ["ls-files"; "--others"; "--exclude-standard"]),
     s, [Run repo_path ["ls-files"; "--others"; "--exclude-standard"]]).
Proof.
  unfold GitOperations.get_untracked_files, listing, try_, bind, ret,
    GitOperations._run. simpl.
  destruct (git world repo_path _) as [out|e]; simpl; [|reflexivity].
  destruct (CompletedProcess.returncode out =? 0); simpl; [|reflexivity].
  destruct (Str.truthy (Str.strip (CompletedProcess.stdout out))) eqn:E;
    [reflexivity|].
  rewrite (splitlines_strip_empty _ E). reflexivity.
Qed.

(** X13. The listings of staged and of unstaged files never raise and run
    one command each. Every line of the output that contains a tab yields
    one pair, in the order of the lines: the status is the text before the
    first tab and the file name all that follows it; joining a pair with a
    tab gives the line back. Lines without a tab are left out. The listing
    of untracked files returns the lines as they are. *)
Theorem file_listings_cut_at_first_tab (world : World) (repo_path : Path)
    {S : Type} (s : S) :
  (exists files,
     GitOperations.get_staged_files world repo_path s
     = (Return files, s, [Run repo_path ["diff"; "--cached"; "--name-status"]])
     /\ map rejoin files
        = List.filter has_tab
            (listing world repo_path ["diff"; "--cached"; "--name-status"])
     /\ Forall (fun entry => has_tab entry.1 = false) files)
  /\ (exists files,
        GitOperations.get_unstaged_files world repo_path s
        = (Return files, s, [Run repo_path ["diff"; "--name-status"]])
        /\ map rejoin files
           = List.filter has_tab
               (listing world repo_path ["diff"; "--name-status"])
        /\ Forall (fun entry => has_tab entry.1 = false) files)
  /\ GitOperations.get_untracked_files world repo_path s
     = (Return (listing world repo_path
                  ["ls-files"; "--others"; "--exclude-standard"]),
        s, [Run repo_path ["ls-files"; "--others"; "--exclude-standard"]]).
Proof.
  split; [apply name_status_run|]. split; [apply name_status_run|].
  apply get_untracked_files_run.
Qed.

(** ** Remotes *)

Section Remotes.
Context (world : World) (repo_path : Path).

Lemma query_remote_run (name : string) (acc : list RemoteInfo.t) :
  (exists r t, GitOperations.query_remote world repo_path name acc
               = (Return tt, acc ++ [r], t)
               /\ RemoteInfo.name r = name /\ describes world repo_path r)
  \/ (exists e t, GitOperations.query_remote world repo_path name acc
                  = (Raise e, acc, t)
                  /\ query_breaks world repo_path name).
Proof.
  unfold GitOperations.query_remote, bind, modify, GitOperations._run,
    query_breaks, describes.
  destruct (git world repo_path ["remote"; "get-url"; name])
    as [fetched|e] eqn:Ef; [|right; eauto 6].
  destruct (git world repo_path ["remote"; "get-url"; "--push"; name])
    as [pushed|e] eqn:Ep; [|right; eauto 6].
  left. eexists. eexists. split; [reflexivity|].
  split; [reflexivity|]. simpl. rewrite Ef, Ep.
  exists fetched, pushed. auto.
Qed.

(** The loop stops at the first remote whose query cannot be started and
    keeps the entries made until then. *)
Lemma query_loop (names : list string) (acc : list RemoteInfo.t) :
  exists v remotes rest t,
    for_ names (GitOperations.query_remote world repo_path) acc
    = (v, acc ++ remotes, t)
    /\ names = map RemoteInfo.name remotes ++ rest
    /\ Forall (describes world repo_path) remotes
    /\ match rest with
       | [] => v = Return tt
       | name :: _ => (exists e, v = Raise e)
                      /\ query_breaks world repo_path name
       end.
Proof.
  revert acc. induction names as [|name names IH]; intros acc.
  - exists (Return tt), [], [], []. rewrite app_nil_r.
    repeat split. constructor.
  - destruct (query_remote_run name acc)
      as [(r & t & E & Hn & Hd) | (e & t & E & Hb)].
    + rewrite (for_cons_Return _ _ _ _ _ _ E).
      destruct (IH (acc ++ [r])) as (v & remotes & rest & t' & E' & Hs & Hf & Hr).
      rewrite E'. exists v, (r :: remotes), rest, (t ++ t').
      rewrite <- app_assoc. split; [reflexivity|].
      split; [simpl; congruence|]. split; [constructor; assumption|exact Hr].
    + rewrite (for_cons_Raise _ _ _ _ _ _ _ E).
      exists (Raise e), [], (name :: names), t. rewrite app_nil_r.
      repeat split; eauto.
Qed.

Lemma remote_names_stripped (out : string) :
  Forall (fun n => n <> "" /\ Str.strip n = n)
    (GitOperations.remote_names out).
Proof.
  unfold GitOperations.remote_names. apply Forall_forall. intros n Hn.
  apply list_elem_of_In, in_map_iff in Hn as (raw & <- & Hraw).
  apply filter_In in Hraw as [_ Ht].
  split; [|apply strip_idem].
  destruct (Str.strip raw); [discriminate|discriminate].
Qed.

Lemma remotes_listed_stripped :
  Forall (fun n => n <> "" /\ Str.strip n = n)
    (remotes_listed world repo_path).
Proof.
  unfold remotes_listed.
  destruct (git world repo_path ["remote"]) as [out|e]; [|constructor].
  destruct (CompletedProcess.returncode out =? 0); [|constructor].
  apply remote_names_stripped.
Qed.

End Remotes.

Lemma get_remotes_completes (world : World) (repo_path : Path)
    {S : Type} (s : S) :
  exists remotes t,
    GitOperations.get_remotes world repo_path s = (Return remotes, s, t).
Proof.
  unfold GitOperations.get_remotes, call, try_, bind, get,
    GitOperations._run.
  destruct (git world repo_path ["remote"]) as [out|e]; simpl; [|eauto].
  destruct (CompletedProcess.returncode out =? 0); simpl; [|eauto].
  destruct (query_loop world repo_path
              (GitOperations.remote_names (CompletedProcess.stdout out)) [])
    as (v & remotes & rest & t & -> & _).
  destruct v as [[]|e]; simpl; eauto.
Qed.

(** X14. [get_remotes] never raises. It returns one entry for each remote
    name the listing prints, in that order, up to the first remote whose
    URL query cannot be started: the entries made before it are kept.
    Names are not empty and carry no white space at their ends; an entry's
    fetch URL is the stripped answer of its query, or empty when the query
    fails; its push URL falls back to the fetch URL; its protocol is the
    one detected from the fetch URL. When the listing itself fails there
    is no entry. *)
Theorem get_remotes_keeps_what_it_found (world : World) (repo_path : Path)
    {S : Type} (s : S) :
  exists remotes rest t,
    GitOperations.get_remotes world repo_path s = (Return remotes, s, t)
    /\ remotes_listed world repo_path = map RemoteInfo.name remotes ++ rest
    /\ Forall (fun r => describes world repo_path r
                        /\ RemoteInfo.name r <> ""
                        /\ Str.strip (RemoteInfo.name r) = RemoteInfo.name r)
         remotes
    /\ match rest with
       | [] => True
       | name :: _ => query_breaks world repo_path name
       end.
Proof.
  assert (Hgood : forall remotes rest,
             remotes_listed world repo_path
             = map RemoteInfo.name remotes ++ rest ->
             Forall (describes world repo_path) remotes ->
             Forall (fun r => describes world repo_path r
                              /\ RemoteInfo.name r <> ""
                              /\ Str.strip (RemoteInfo.name r)
                                 = RemoteInfo.name r) remotes).
  { intros remotes rest Hs Hd.
    pose proof (remotes_listed_stripped world repo_path) as Hn.
    rewrite Hs in Hn. apply Forall_app in Hn as [Hn _].
    apply Forall_fmap in Hn.
    rewrite Forall_forall in Hd, Hn. apply Forall_forall.
    intros r Hr. split; [apply Hd, Hr|apply (Hn r Hr)]. }
  unfold GitOperations.get_remotes, call, try_, bind, get,
    GitOperations._run.
  unfold remotes_listed in *.
  destruct (git world repo_path ["remote"]) as [out|e]; simpl.
  - destruct (CompletedProcess.returncode out =? 0); simpl.
    + destruct (query_loop world repo_path
                  (GitOperations.remote_names (CompletedProcess.stdout out))
                  []) as (v & remotes & rest & t & E & Hs & Hf & Hr).
      rewrite E. simpl.
      destruct v as [[]|e]; simpl; exists remotes, rest; eexists;
        (split; [reflexivity|]); (split; [exact Hs|]);
        (split; [eapply Hgood; eassumption|]);
        destruct rest; auto; apply Hr.
    + exists [], []. eexists. split; [reflexivity|]. repeat split; constructor.
  - exists [], []. eexists. split; [reflexivity|]. repeat split; constructor.
Qed.

(** ** Fleet-wide queries *)

Lemma value_result_of {A} (d : A) (m : Py unit A) :
  (exists a, value (m tt) = Return a) -> value (m tt) = Return (result_of d m).
Proof. intros [a E]. unfold result_of. rewrite E. reflexivity. Qed.

Section RepositoryQueries.
Context (world : World) (repo : GitRepository.t).

Lemma get_identity_value :
  value (GitRepository.get_identity world repo tt)
  = Return (identity_of world repo)
  /\ RepositoryIdentity.path (identity_of world repo) = GitRepository.path repo.
Proof.
  assert (H : exists r, value (GitRepository.get_identity world repo tt)
                        = Return r
                        /\ RepositoryIdentity.path r = GitRepository.path repo).
  { unfold GitRepository.get_identity, bind, value.
    destruct (get_config_source_completes world (GitRepository.path repo)
                "user.email" tt) as ([[email ty] file] & t1 & ->).
    destruct (get_config_source_completes world (GitRepository.path repo)
                "user.name" tt) as ([[uname ty'] file'] & t2 & ->).
    destruct (text_getters_complete world (GitRepository.path repo) true tt)
      as (_ & _ & (n & t3 & ->) & (e & t4 & ->)).
    simpl. eauto. }
  destruct H as (r & E & Hp). unfold identity_of, result_of.
  rewrite E. auto.
Qed.

Lemma get_remotes_value :
  value (GitRepository.get_remotes world repo tt)
  = Return (remotes_of world repo)
  /\ RepositoryRemotes.path (remotes_of world repo) = GitRepository.path repo.
Proof.
  assert (H : exists r, value (GitRepository.get_remotes world repo tt)
                        = Return r
                        /\ RepositoryRemotes.path r = GitRepository.path repo).
  { unfold GitRepository.get_remotes, bind, value.
    destruct (get_remotes_completes world (GitRepository.path repo) tt)
      as (remotes & t & ->).
    simpl. eauto. }
  destruct H as (r & E & Hp). unfold remotes_of, result_of.
  rewrite E. auto.
Qed.

Lemma get_diff_value :
  value (GitRepository.get_diff world repo tt) = Return (diff_of world repo)
  /\ RepositoryDiff.path (diff_of world repo) = GitRepository.path repo.
Proof.
  assert (H : exists r, value (GitRepository.get_diff world repo tt)
                        = Return r
                        /\ RepositoryDiff.path r = GitRepository.path repo).
  { unfold GitRepository.get_diff, bind, value.
    destruct (text_getters_complete world (GitRepository.path repo) true tt)
      as ((b & t0 & ->) & _).
    unfold GitOperations.get_staged_files, GitOperations.get_unstaged_files.
    destruct (name_status_run world (GitRepository.path repo)
                ["diff"; "--cached"; "--name-status"] tt) as (st & -> & _).
    destruct (name_status_run world (GitRepository.path repo)
                ["diff"; "--name-status"] tt) as (un & -> & _).
    rewrite get_untracked_files_run. simpl. eauto. }
  destruct H as (r & E & Hp). unfold diff_of, result_of.
  rewrite E. auto.
Qed.

End RepositoryQueries.

Lemma Forall2_paths_sorted {R} `{HasPath R} (f : GitRepository.t -> R)
    (l : list GitRepository.t) :
  (forall repo, path_of (f repo) = GitRepository.path repo) ->
  map path_of (list_sort path_of (map f l))
  = list_sort id (map GitRepository.path l).
Proof.
  intros Hp.
  apply (StronglySorted_unique_strong PurePath.le).
  - intros a b _ _ Hab Hba. apply (anti_symm PurePath.le); assumption.
  - pose proof (list_sort_StronglySorted path_of (map f l)) as Hs.
    induction Hs as [|x xs Hxs IH Hall]; simpl; constructor.
    + exact IH.
    + apply Forall_fmap. exact Hall.
  - pose proof (list_sort_StronglySorted id (map GitRepository.path l)) as Hs.
    exact Hs.
  - rewrite !list_sort_Permutation, map_map.
    erewrite map_ext; [reflexivity|]. intros repo. apply Hp.
Qed.

Section FleetQueries.
Context (world : World) (fm : FleetManager.t).
Hypothesis can_pool : 0 < FleetManager.max_workers fm.

Lemma engine_order_independent {R} `{HasPath R}
    (operation : GitRepository.t -> Py unit R) (f : GitRepository.t -> R) :
  (forall repo, value (operation repo tt) = Return (f repo)) ->
  (forall repo, path_of (f repo) = GitRepository.path repo) ->
  order_independent world fm
    (fun sched sequential =>
       FleetManager._execute_parallel world sched operation None sequential)
    f.
Proof.
  intros Hop Hpath.
  exists (list_sort path_of (map f (discovered world fm))).
  assert (Hties : forall a b, a ∈ map f (discovered world fm) ->
                              b ∈ map f (discovered world fm) ->
                              path_of a = path_of b -> a = b).
  { intros a b Ha Hb Hab.
    apply list_elem_of_In, in_map_iff in Ha as (ra & <- & _).
    apply list_elem_of_In, in_map_iff in Hb as (rb & <- & _).
    rewrite !Hpath in Hab. apply GitRepository_path_inj in Hab. congruence. }
  split; [|split; [|split; [|split]]].
  - intros sched.
    pose proof (execute_parallel_discovered world fm false (or_intror can_pool)
                  operation f sched Hop) as Hrun.
    erewrite list_sort_unique; [exact Hrun|exact Hties|].
    apply Permutation_map. symmetry. apply collected_Permutation.
  - exact (execute_parallel_discovered world fm true (or_introl eq_refl)
             operation f [] Hop).
  - apply list_sort_Permutation.
  - apply list_sort_Sorted.
  - rewrite <- (Forall2_paths_sorted f _ Hpath).
    apply Forall2_fmap_r, Forall_Forall2_diag, Forall_forall. auto.
Qed.

End FleetQueries.

(** X15. The fleet-wide queries for the statuses, the identities and the
    remotes do not depend on the order in which the workers finish: with a
    pool of any positive width they return what the sequential run
    returns, one entry per repository of the manager, in ascending path
    order. *)
Theorem fleet_queries_order_independent (world : World) (fm : FleetManager.t)
    (fetch_first : bool) :
  0 < FleetManager.max_workers fm ->
  order_independent world fm
    (fun sched sequential =>
       FleetManager.get_all_status world sched fetch_first sequential)
    (fun repo => status_of world repo fetch_first)
  /\ order_independent world fm (FleetManager.get_all_identities world)
       (identity_of world)
  /\ order_independent world fm (FleetManager.get_all_remotes world)
       (remotes_of world)
  /\ order_independent world fm (FleetManager.fetch_all world)
       (fetch_report world).
Proof.
  intros Hw. split; [|split; [|split]].
  - apply (engine_order_independent world fm Hw
             (fun repo => GitRepository.get_status world repo fetch_first)).
    + intros repo. rewrite get_status_run. reflexivity.
    + intros repo. apply status_of_path.
  - apply (engine_order_independent world fm Hw
             (fun repo => GitRepository.get_identity world repo)).
    + intros repo. apply get_identity_value.
    + intros repo. apply get_identity_value.
  - apply (engine_order_independent world fm Hw
             (fun repo => GitRepository.get_remotes world repo)).
    + intros repo. apply get_remotes_value.
    + intros repo. apply get_remotes_value.
  - apply (engine_order_independent world fm Hw
             (fun repo => GitRepository.fetch world repo)).
    + intros repo. apply fetch_value.
    + intros repo.
      unfold fetch_report, result_of, GitRepository.fetch, bind, value.
      rewrite fetch_all_run. destruct (fetch_result world _) as [ok msg].
      reflexivity.
Qed.

Lemma fleet_queries_order_independent_witness :
  order_independent Demo.world (Demo.fleet ["/"; "r"])
    (fun sched sequential =>
       FleetManager.get_all_status Demo.world sched true sequential)
    (fun repo => status_of Demo.world repo true)
  /\ order_independent Demo.world (Demo.fleet ["/"; "r"])
       (FleetManager.get_all_identities Demo.world) (identity_of Demo.world)
  /\ order_independent Demo.world (Demo.fleet ["/"; "r"])
       (FleetManager.get_all_remotes Demo.world) (remotes_of Demo.world)
  /\ order_independent Demo.world (Demo.fleet ["/"; "r"])
       (FleetManager.fetch_all Demo.world) (fetch_report Demo.world).
Proof.
  apply (fleet_queries_order_independent Demo.world (Demo.fleet ["/"; "r"]) true).
  reflexivity.
Defined.

(** The engine's answer does not mention the schedule. *)
Lemma engine_sorted_results (world : World) (fm : FleetManager.t)
    {R} `{HasPath R} (operation : GitRepository.t -> Py unit R)
    (f : GitRepository.t -> R) (sched : Schedule) (sequential : bool) :
  sequential = true \/ 0 < FleetManager.max_workers fm ->
  (forall repo, value (operation repo tt) = Return (f repo)) ->
  (forall repo, path_of (f repo) = GitRepository.path repo) ->
  returns (FleetManager._execute_parallel world sched operation None sequential)
    fm (list_sort path_of (map f (discovered world fm)))
    (after_discovery world fm).
Proof.
  intros Hpool Hop Hpath.
  pose proof (execute_parallel_discovered world fm sequential Hpool
                operation f sched Hop) as Hrun.
  erewrite list_sort_unique; [exact Hrun| |].
  - intros a b Ha Hb Hab.
    apply list_elem_of_In, in_map_iff in Ha as (ra & <- & _).
    apply list_elem_of_In, in_map_iff in Hb as (rb & <- & _).
    rewrite !Hpath in Hab. apply GitRepository_path_inj in Hab. congruence.
  - apply Permutation_map. symmetry. apply collected_Permutation.
Qed.

Lemma nonempty_iff {A} (l : list A) :
  RepositoryDiff.nonempty l = true <-> l <> [].
Proof. destruct l; simpl; split; congruence. Qed.

(** X16. [get_all_diff] returns the diffs in ascending path order, the
    same for every completion order and in sequential mode. With
    [dirty_only] it returns exactly those of them that list a staged, an
    unstaged or an untracked file, still in ascending order; a repository
    whose three listings are empty is left out. *)
Theorem get_all_diff_keeps_the_dirty (world : World) (fm : FleetManager.t) :
  0 < FleetManager.max_workers fm ->
  let all := list_sort path_of (map (diff_of world) (discovered world fm)) in
  let dirty := List.filter RepositoryDiff.is_dirty all in
  (forall sched sequential,
     returns (FleetManager.get_all_diff world sched sequential false) fm all
       (after_discovery world fm)
     /\ returns (FleetManager.get_all_diff world sched sequential true) fm
          dirty (after_discovery world fm))
  /\ ascending all /\ ascending dirty
  /\ (forall d, In d dirty <->
                In d all
                /\ (RepositoryDiff.staged_files d <> []
                    \/ RepositoryDiff.unstaged_files d <> []
                    \/ RepositoryDiff.untracked_files d <> [])).
Proof.
  intros Hw all dirty.
  split; [|split; [|split]].
  - intros sched sequential.
    assert (Hrun : returns
                     (FleetManager._execute_parallel world sched
                        (fun repo => GitRepository.get_diff world repo) None
                        sequential)
                     fm all (after_discovery world fm)).
    { apply engine_sorted_results; [auto| |];
        intros repo; apply get_diff_value. }
    unfold FleetManager.get_all_diff.
    split; (eapply returns_bind; [exact Hrun|apply returns_ret]).
  - apply list_sort_Sorted.
  - apply Sorted_filter, list_sort_Sorted.
  - intros d. unfold dirty. rewrite filter_In.
    unfold RepositoryDiff.is_dirty. rewrite !orb_true_iff, !nonempty_iff.
    tauto.
Qed.

Lemma get_all_diff_keeps_the_dirty_witness :
  let fm := Demo.fleet ["/"; "r"] in
  0 < FleetManager.max_workers fm
  /\ ascending
       (List.filter RepositoryDiff.is_dirty
          (list_sort path_of
             (map (diff_of Demo.world) (discovered Demo.world fm)))).
Proof.
  intros fm. split; [reflexivity|].
  exact (proj1 (proj2 (proj2
           (get_all_diff_keeps_the_dirty Demo.world fm eq_refl)))).
Defined.

(** ** Names of roots *)

Lemma fold_left_ext {A B} (f g : A -> B -> A) (l : list B) (a : A) :
  (forall a x, f a x = g a x) -> fold_left f l a = fold_left g l a.
Proof.
  intros H. revert a. induction l as [|x l IH]; intros a; simpl;
    [reflexivity|]. rewrite H. apply IH.
Qed.

(** Roots are named as items are whose name is the last part of their
    path. *)
Lemma root_names_as_display_names (roots : list Path) :
  Formatters.compute_unique_root_names roots
  = @Formatters.compute_unique_display_names Path PurePath.name id roots.
Proof.
  unfold Formatters.compute_unique_root_names.
  destruct (length roots <=? 1)%nat eqn:E.
  - destruct roots as [|root [|root' roots]]; [reflexivity|reflexivity|].
    discriminate.
  - unfold Formatters.compute_unique_display_names, Formatters.name_groups.
    apply fold_left_ext. intros result [name group].
    unfold path_of, id. rewrite map_id. reflexivity.
Qed.

(** X17. [compute_unique_root_names] names roots as
    [compute_unique_display_names] names items that carry the last part
    of their path as name, also for no root and for a single one. For
    distinct, well-formed roots with a leaf name every root gets a name,
    no two roots get the same, and a single root is called by its leaf
    name. *)
Theorem root_names_unique (roots : list Path) :
  NoDup roots ->
  (forall root, In root roots ->
                wf_path root = true /\ PurePath.name root <> "") ->
  let names := Formatters.compute_unique_root_names roots in
  names = @Formatters.compute_unique_display_names Path PurePath.name id roots
  /\ (forall root, root ∈ roots <-> is_Some (names !! root))
  /\ (forall root1 root2 n,
        names !! root1 = Some n -> names !! root2 = Some n -> root1 = root2)
  /\ (forall root, roots = [root] ->
                   names !! root = Some (PurePath.name root)).
Proof.
  intros Hnd Hwf names. subst names.
  assert (Hd : NoDup (map (@path_of Path id) roots))
    by (unfold path_of, id; rewrite map_id; exact Hnd).
  assert (Hi : forall item, In item roots ->
                 wf_path (@path_of Path id item) = true
                 /\ @name_of Path PurePath.name item
                    = PurePath.name (@path_of Path id item)
                 /\ PurePath.name (@path_of Path id item) <> "").
  { intros item Hin. destruct (Hwf item Hin) as [Hw Hn].
    unfold path_of, name_of, id. auto. }
  split; [apply root_names_as_display_names|].
  rewrite root_names_as_display_names.
  split; [|split].
  - intros root.
    rewrite <- (@display_names_total Path PurePath.name id roots Hd Hi root).
    unfold path_of, id. rewrite map_id. reflexivity.
  - intros root1 root2 n.
    apply (@display_names_inj Path PurePath.name id roots Hd Hi).
  - intros root ->. unfold Formatters.compute_unique_display_names,
      Formatters.name_groups. simpl. unfold path_of, name_of, id.
    apply lookup_insert_eq.
Qed.

Lemma root_names_unique_witness :
  let roots := [["/"; "home"; "u"; "work"]; ["/"; "srv"; "work"];
                ["/"; "opt"; "src"]] in
  Formatters.compute_unique_root_names roots !! ["/"; "srv"; "work"]
    = Some "srv/work"
  /\ forall root1 root2 n,
       Formatters.compute_unique_root_names roots !! root1 = Some n ->
       Formatters.compute_unique_root_names roots !! root2 = Some n ->
       root1 = root2.
Proof.
  intros roots. split; [vm_compute; reflexivity|].
  refine (proj1 (proj2 (proj2 (root_names_unique roots _ _)))).
  - apply NoDup_ListNoDup. repeat constructor; simpl; intuition discriminate.
  - intros root [<-|[<-|[<-|[]]]]; vm_compute; intuition discriminate.
Defined.

(** ** Discovery *)

Lemma discover_cached (world : World) (fm : FleetManager.t)
    (repos : list GitRepository.t) :
  FleetManager._repositories fm = Some repos ->
  FleetManager.discover_repositories world fm = (Return repos, fm, []).
Proof.
  intros E. unfold FleetManager.discover_repositories, bind, get.
  rewrite E. reflexivity.
Qed.

(** X18. [discover_repositories] never raises, starts neither a pull, a
    push nor a worker pool, and remembers its answer: a second call
    returns the same list without starting any command. A first discovery
    yields repositories found below the root, in ascending path order,
    without those that have no remote or a detached HEAD when the manager
    excludes them; when it excludes neither it runs no command at all. *)
Theorem discovery_is_cached_and_filtered (world : World)
    (fm : FleetManager.t) :
  let repos := discovered world fm in
  let fm' := after_discovery world fm in
  (exists t,
     FleetManager.discover_repositories world fm = (Return repos, fm', t)
     /\ Forall (fun ev => is_pull_or_push ev = false /\ is_pool ev = false) t
     /\ (FleetManager._repositories fm = None ->
         FleetManager.include_no_remote fm = true ->
         FleetManager.include_detached fm = true -> t = []))
  /\ FleetManager.discover_repositories world fm' = (Return repos, fm', [])
  /\ (FleetManager._repositories fm = None ->
      ascending repos
      /\ (forall repo, In repo repos ->
            In (GitRepository.path repo)
               (rglob world (FleetManager.root_path fm)))
      /\ (FleetManager.include_no_remote fm = false ->
          forall repo, In repo repos ->
            remotes_configured world (GitRepository.path repo) = true)
      /\ (FleetManager.include_detached fm = false ->
          forall repo, In repo repos ->
            head_detached world (GitRepository.path repo) = false)
      /\ (FleetManager.include_no_remote fm = true ->
          FleetManager.include_detached fm = true ->
          repos
          = list_sort GitRepository.path
              (map GitRepository.mk
                 (rglob world (FleetManager.root_path fm))))).
Proof.
  intros repos fm'. split; [|split].
  - destruct (discover_repositories_returns world fm) as [t E].
    exists t. split; [exact E|]. split.
    + pose proof (discover_repositories_emits
                    (fun ev => is_pull_or_push ev = false
                               /\ is_pool ev = false)
                    (fun p args H => conj H eq_refl) world fm) as Hq.
      rewrite E in Hq. exact Hq.
    + intros Hnone Hr Hd. revert E.
      unfold FleetManager.discover_repositories, bind, get.
      rewrite Hnone, Hr, Hd. simpl. intros [= _ _ <-]. reflexivity.
  - apply discover_cached, after_discovery_cached.
  - intros Hnone. split; [apply discovered_Sorted, Hnone|].
    unfold repos, discovered. rewrite Hnone.
    set (sorted := list_sort GitRepository.path _).
    assert (Hsorted : forall repo, In repo sorted ->
              In (GitRepository.path repo)
                 (rglob world (FleetManager.root_path fm))).
    { intros repo Hin. apply list_elem_of_In in Hin.
      unfold sorted in Hin. rewrite list_sort_Permutation in Hin.
      apply list_elem_of_In, in_map_iff in Hin as (p & <- & Hp). exact Hp. }
    split; [|split; [|split]].
    + intros repo Hin. apply Hsorted.
      destruct (negb (FleetManager.include_detached fm)),
        (negb (FleetManager.include_no_remote fm));
        repeat (apply filter_In in Hin as [Hin _]); exact Hin.
    + intros -> repo Hin. simpl in Hin.
      destruct (negb (FleetManager.include_detached fm));
        [apply filter_In in Hin as [Hin _]|];
        apply filter_In in Hin as [_ Hin]; exact Hin.
    + intros -> repo Hin. simpl in Hin.
      apply filter_In in Hin as [_ Hin]. apply negb_true_iff in Hin.
      exact Hin.
    + intros -> ->. reflexivity.
Qed.

(** ** Several roots *)

Section Dict.
Context {V : Type}.

Lemma dict_set_keys (k : Path) (v : V) (d : list (Path * V)) :
  map fst (MultiRootFleetManager.dict_set k v d)
  = if bool_decide (k ∈ map fst d) then map fst d else map fst d ++ [k].
Proof.
  induction d as [|[k' v'] d IH]; simpl; [reflexivity|].
  destruct (decide (k' = k)) as [->|Hne]; simpl.
  - rewrite bool_decide_true by (apply list_elem_of_here). reflexivity.
  - rewrite IH. destruct (bool_decide (k ∈ map fst d)) eqn:E.
    + apply bool_decide_eq_true in E.
      rewrite bool_decide_true by (apply list_elem_of_further, E). reflexivity.
    + apply bool_decide_eq_false in E.
      rewrite bool_decide_false; [reflexivity|].
      intros Hin. apply elem_of_cons in Hin as [->|Hin]; auto.
Qed.

Lemma dict_get_app (k : Path) (d1 d2 : list (Path * V)) :
  MultiRootFleetManager.dict_get k (d1 ++ d2)
  = match MultiRootFleetManager.dict_get k d1 with
    | Some v => Some v
    | None => MultiRootFleetManager.dict_get k d2
    end.
Proof.
  induction d1 as [|[k' v'] d1 IH]; simpl; [reflexivity|].
  destruct (decide (k' = k)); [reflexivity|exact IH].
Qed.

Lemma dict_get_set (k k' : Path) (v : V) (d : list (Path * V)) :
  MultiRootFleetManager.dict_get k' (MultiRootFleetManager.dict_set k v d)
  = if decide (k = k') then Some v else MultiRootFleetManager.dict_get k' d.
Proof.
  induction d as [|[k0 v0] d IH]; simpl.
  - destruct (decide (k = k')); reflexivity.
  - destruct (decide (k0 = k)) as [->|Hne]; simpl.
    + destruct (decide (k = k')); reflexivity.
    + destruct (decide (k0 = k')) as [->|Hne'].
      * destruct (decide (k = k')); [congruence|reflexivity].
      * exact IH.
Qed.

(** Of several assignments to a key the last one counts. *)
Lemma dict_fold_get (k : Path) (l d : list (Path * V)) :
  MultiRootFleetManager.dict_get k
    (fold_left (fun d rs => MultiRootFleetManager.dict_set rs.1 rs.2 d) l d)
  = match MultiRootFleetManager.dict_get k (rev l) with
    | Some v => Some v
    | None => MultiRootFleetManager.dict_get k d
    end.
Proof.
  revert d. induction l as [|[k0 v0] l IH]; intros d; simpl; [reflexivity|].
  rewrite IH, dict_get_app, dict_get_set. simpl.
  destruct (MultiRootFleetManager.dict_get k (rev l)); [reflexivity|].
  destruct (decide (k0 = k)); reflexivity.
Qed.

Lemma dict_fold_keys (f : Path -> V) (l : list Path) (d : list (Path * V)) :
  map fst (fold_left (fun d k => MultiRootFleetManager.dict_set k (f k) d) l d)
  = map fst d
    ++ List.filter (fun y => negb (bool_decide (y ∈ map fst d)))
         (first_occurrences l).
Proof.
  revert d. induction l as [|x l IH]; intros d; simpl.
  - rewrite app_nil_r. reflexivity.
  - rewrite IH, dict_set_keys.
    destruct (bool_decide (x ∈ map fst d)) eqn:E; simpl.
    + f_equal. rewrite filter_and. apply List.filter_ext. intros y.
      apply bool_decide_eq_true in E.
      destruct (bool_decide (y = x)) eqn:Ey; simpl; [|reflexivity].
      apply bool_decide_eq_true in Ey. subst y.
      rewrite bool_decide_true by exact E. reflexivity.
    + rewrite <- app_assoc. simpl. f_equal. f_equal.
      rewrite filter_and. apply List.filter_ext. intros y.
      apply bool_decide_eq_false in E.
      destruct (bool_decide (y = x)) eqn:Ey; simpl.
      * apply bool_decide_eq_true in Ey. subst y.
        rewrite bool_decide_true; [reflexivity|].
        apply elem_of_app. right. apply list_elem_of_here.
      * apply bool_decide_eq_false in Ey.
        destruct (bool_decide (y ∈ map fst d)) eqn:Ed.
        -- apply bool_decide_eq_true in Ed.
           rewrite bool_decide_true; [reflexivity|].
           apply elem_of_app. left. exact Ed.
        -- apply bool_decide_eq_false in Ed.
           rewrite bool_decide_false; [reflexivity|].
           intros Hin. apply elem_of_app in Hin as [Hin|Hin]; [auto|].
           apply list_elem_of_singleton in Hin. auto.
Qed.

Lemma dict_fold_values (f : Path -> V) (l : list Path) (d : list (Path * V)) :
  Forall (fun kv => kv.2 = f kv.1) d ->
  Forall (fun kv => kv.2 = f kv.1)
    (fold_left (fun d k => MultiRootFleetManager.dict_set k (f k) d) l d).
Proof.
  revert d. induction l as [|x l IH]; intros d Hd; simpl; [exact Hd|].
  apply IH. clear IH. induction Hd as [|[k v] d Hk Hd IHd]; simpl.
  - constructor; [reflexivity|constructor].
  - destruct (decide (k = x)) as [->|Hne]; constructor;
      simpl; auto.
Qed.

End Dict.

Lemma filter_all {A} (p : A -> bool) (l : list A) :
  (forall y, p y = true) -> List.filter p l = l.
Proof.
  intros H. induction l as [|x l IH]; simpl; [reflexivity|].
  rewrite H, IH. reflexivity.
Qed.

Lemma first_occurrences_NoDup (l : list Path) : NoDup (first_occurrences l).
Proof.
  induction l as [|x l IH]; simpl; [constructor|].
  constructor.
  - intros Hin. apply list_elem_of_In, filter_In in Hin as [_ Hx].
    rewrite bool_decide_true in Hx by reflexivity. discriminate.
  - apply NoDup_ListNoDup, List.NoDup_filter, NoDup_ListNoDup, IH.
Qed.

Lemma first_occurrences_elem (l : list Path) (x : Path) :
  x ∈ first_occurrences l <-> x ∈ l.
Proof.
  induction l as [|y l IH]; simpl; [reflexivity|].
  rewrite !elem_of_cons, <- IH.
  split.
  - intros [->|Hin]; [auto|]. right.
    apply list_elem_of_In, filter_In in Hin as [Hin _].
    apply list_elem_of_In, Hin.
  - intros [->|Hin]; [auto|].
    destruct (decide (x = y)) as [->|Hne]; [auto|]. right.
    apply list_elem_of_In, filter_In. split; [apply list_elem_of_In, Hin|].
    rewrite bool_decide_false by exact Hne. reflexivity.
Qed.

(** X19. A multi-root manager holds one fleet manager per distinct
    resolved root, in the order in which the roots first occur, each
    built for its root with the manager's settings and an empty cache;
    a root given twice is managed once. Of several status lists handed in
    for one root the last one is used. *)
Theorem multi_root_one_manager_per_root (resolve : Path -> Path)
    (roots : list Path) (max_workers : Z)
    (include_no_remote include_detached : bool) :
  let self := MultiRootFleetManager.new resolve roots max_workers
                include_no_remote include_detached in
  let fleets := MultiRootFleetManager._fleet_managers self in
  map fst fleets = first_occurrences (map resolve roots)
  /\ NoDup (map fst fleets)
  /\ (forall root, root ∈ map fst fleets <-> root ∈ map resolve roots)
  /\ Forall (fun rf => rf.2 = FleetManager.mk (resolve rf.1) max_workers
                              include_no_remote include_detached None)
       fleets
  /\ (forall all_statuses root,
        MultiRootFleetManager.dict_get root
          (MultiRootFleetManager.statuses_by_root (Some all_statuses))
        = MultiRootFleetManager.dict_get root (rev all_statuses)).
Proof.
  intros self fleets.
  assert (Hkeys : map fst fleets = first_occurrences (map resolve roots)).
  { unfold fleets, self, MultiRootFleetManager.new. simpl.
    rewrite (dict_fold_keys
               (fun root => FleetManager.new resolve root max_workers
                              include_no_remote include_detached)).
    simpl. apply filter_all. intros y.
    first [ reflexivity
          | rewrite bool_decide_false;
            [reflexivity|apply not_elem_of_nil] ]. }
  split; [exact Hkeys|]. rewrite Hkeys.
  split; [apply first_occurrences_NoDup|].
  split; [intros root; apply first_occurrences_elem|].
  split.
  - unfold fleets, self, MultiRootFleetManager.new. simpl.
    apply (dict_fold_values
             (fun root => FleetManager.new resolve root max_workers
                            include_no_remote include_detached)).
    constructor.
  - intros all_statuses root. unfold MultiRootFleetManager.statuses_by_root.
    rewrite dict_fold_get.
    destruct (MultiRootFleetManager.dict_get root (rev all_statuses));
      reflexivity.
Qed.

(** The loop over the managers, when the call returns quietly on each of
    them: one entry per manager, in their order, each the answer of that
    manager. *)
Lemma each_fleet_quietly {A} (body : Path -> Py FleetManager.t A)
    (fleets : list (Path * FleetManager.t)) :
  Forall (fun rf => exists a fm', runs_quietly (body rf.1) rf.2 a fm') fleets ->
  exists results fleets' t,
    MultiRootFleetManager.each_fleet body fleets
    = (Return results, fleets', t)
    /\ Forall quiet t
    /\ map fst results = map fst fleets
    /\ map fst fleets' = map fst fleets
    /\ Forall2 (fun rf rr => exists fm', returns (body rf.1) rf.2 rr.2 fm')
         fleets results.
Proof.
  induction 1 as [|[root fleet] fleets (a & fm' & t1 & E & Hq) _ IH]; simpl.
  - exists [], [], []. repeat split; constructor.
  - destruct IH as (results & fleets' & t2 & E2 & Hq2 & Hk & Hk' & Hall).
    simpl in E. rewrite E, E2.
    exists ((root, a) :: results), ((root, fm') :: fleets'), (t1 ++ t2).
    split; [reflexivity|]. split; [apply Forall_app; auto|].
    split; [simpl; congruence|]. split; [simpl; congruence|].
    constructor; [|exact Hall]. exists fm', t1. exact E.
Qed.

Section MultiRootDryRun.
Context (world : World) (resolve : Path -> Path) (roots : list Path)
  (max_workers : Z) (include_no_remote include_detached : bool)
  (scheds : Path -> FleetManager.Schedules) (sequential : bool).
Hypothesis can_pool : sequential = true \/ 0 < max_workers.

Lemma managers_can_pool :
  Forall (fun rf : Path * FleetManager.t =>
            sequential = true \/ 0 < FleetManager.max_workers rf.2)
    (MultiRootFleetManager._fleet_managers
       (MultiRootFleetManager.new resolve roots max_workers
       include_no_remote include_detached)).
Proof.
  pose proof (dict_fold_values
                (fun root => FleetManager.new resolve root max_workers
                               include_no_remote include_detached)
                (map resolve roots) [] (Forall_nil_2 _)) as H.
  eapply Forall_impl; [exact H|]. intros [root fm] E. simpl in *.
  subst fm. exact can_pool.
Qed.

Lemma over_fleets_quietly {A} (body : Path -> Py FleetManager.t A) :
  (forall root fm, sequential = true \/ 0 < FleetManager.max_workers fm ->
                   exists a fm', runs_quietly (body root) fm a fm') ->
  exists results self',
    runs_quietly (MultiRootFleetManager.over_fleets body)
      (MultiRootFleetManager.new resolve roots max_workers
       include_no_remote include_detached)
      results self'
    /\ map fst results = first_occurrences (map resolve roots)
    /\ Forall2 (fun rf rr => exists fm', returns (body rf.1) rf.2 rr.2 fm')
         (MultiRootFleetManager._fleet_managers
       (MultiRootFleetManager.new resolve roots max_workers
       include_no_remote include_detached)) results.
Proof.
  intros Hbody.
  destruct (each_fleet_quietly body (MultiRootFleetManager._fleet_managers
       (MultiRootFleetManager.new resolve roots max_workers
       include_no_remote include_detached)))
    as (results & fleets' & t & E & Hq & Hk & _ & Hall).
  { eapply Forall_impl; [apply managers_can_pool|].
    intros [root fm] Hp. apply Hbody, Hp. }
  exists results, (MultiRootFleetManager.set__fleet_managers fleets'
            (MultiRootFleetManager.new resolve roots max_workers
       include_no_remote include_detached)).
  split; [|split; [|exact Hall]].
  - exists t. split; [|exact Hq].
    unfold MultiRootFleetManager.over_fleets. rewrite E. reflexivity.
  - rewrite Hk. unfold MultiRootFleetManager.new. simpl.
    rewrite (dict_fold_keys
               (fun root => FleetManager.new resolve root max_workers
                              include_no_remote include_detached)).
    simpl. apply filter_all. intros y.
    first [ reflexivity
          | rewrite bool_decide_false;
            [reflexivity|apply not_elem_of_nil] ].
Qed.

End MultiRootDryRun.

Lemma pull_all_dry_run_runs (world : World) (fm : FleetManager.t)
    (scheds : FleetManager.Schedules) (only_behind sequential : bool)
    (mode : PullMode.t) (statuses : option (list RepositoryStatus.t)) :
  sequential = true \/ 0 < FleetManager.max_workers fm ->
  exists results fm',
    runs_quietly
      (FleetManager.pull_all world scheds only_behind sequential true mode
         statuses) fm results fm'.
Proof.
  intros Hpool.
  destruct (pull_all_eligible world fm scheds only_behind sequential mode
              statuses Hpool) as (eligible & _ & Hrun).
  eexists. eexists. apply runs_quietly_intro.
  - apply (Hrun true). apply returns_ret.
  - apply pull_all_dry_run_quiet.
Qed.

Lemma push_all_dry_run_runs (world : World) (fm : FleetManager.t)
    (scheds : FleetManager.Schedules) (only_ahead sequential : bool)
    (statuses : option (list RepositoryStatus.t)) :
  sequential = true \/ 0 < FleetManager.max_workers fm ->
  exists results fm',
    runs_quietly
      (FleetManager.push_all world scheds only_ahead sequential true statuses)
      fm results fm'.
Proof.
  intros Hpool. eexists. eexists. apply runs_quietly_intro.
  - apply (push_all_eligible world fm scheds only_ahead sequential statuses
             Hpool true). apply returns_ret.
  - apply push_all_dry_run_quiet.
Qed.

(** X20. A dry run over several roots starts neither a pull nor a push.
    [pull_all] and [push_all] of the multi-root manager return one entry
    per distinct resolved root, in the order in which the roots first
    occur, and the entry of a root is what the dry run of that root's own
    manager returns, given the statuses handed in for the root (none when
    the root has no entry among them). *)
Theorem multi_root_dry_run_is_inert (world : World) (resolve : Path -> Path)
    (roots : list Path) (max_workers : Z)
    (include_no_remote include_detached : bool)
    (scheds : Path -> FleetManager.Schedules)
    (only_selected sequential : bool) (mode : PullMode.t)
    (all_statuses : option (list (Path * list RepositoryStatus.t))) :
  sequential = true \/ 0 < max_workers ->
  let self := MultiRootFleetManager.new resolve roots max_workers
                include_no_remote include_detached in
  let statuses_for root :=
    MultiRootFleetManager.dict_get root
      (MultiRootFleetManager.statuses_by_root all_statuses) in
  (exists results self',
     runs_quietly
       (MultiRootFleetManager.pull_all world scheds only_selected sequential
          true mode all_statuses) self results self'
     /\ map fst results = first_occurrences (map resolve roots)
     /\ Forall2
          (fun rf rr =>
             exists fm',
               returns
                 (FleetManager.pull_all world (scheds rf.1) only_selected
                    sequential true mode (statuses_for rf.1))
                 rf.2 rr.2 fm')
          (MultiRootFleetManager._fleet_managers self) results)
  /\ (exists results self',
        runs_quietly
          (MultiRootFleetManager.push_all world scheds only_selected
             sequential true all_statuses) self results self'
        /\ map fst results = first_occurrences (map resolve roots)
        /\ Forall2
             (fun rf rr =>
                exists fm',
                  returns
                    (FleetManager.push_all world (scheds rf.1) only_selected
                       sequential true (statuses_for rf.1))
                    rf.2 rr.2 fm')
             (MultiRootFleetManager._fleet_managers self) results).
Proof.
  intros Hpool self statuses_for. split.
  - apply (over_fleets_quietly resolve roots max_workers include_no_remote
             include_detached sequential Hpool
             (fun root =>
                FleetManager.pull_all world (scheds root) only_selected
                  sequential true mode (statuses_for root))).
    intros root fm Hfm. apply pull_all_dry_run_runs, Hfm.
  - apply (over_fleets_quietly resolve roots max_workers include_no_remote
             include_detached sequential Hpool
             (fun root =>
                FleetManager.push_all world (scheds root) only_selected
                  sequential true (statuses_for root))).
    intros root fm Hfm. apply push_all_dry_run_runs, Hfm.
Qed.

Lemma multi_root_dry_run_is_inert_witness :
  let roots := [["/"; "r"]; ["/"; "q"]; ["/"; "r"]] in
  let self := MultiRootFleetManager.new id roots 8 true true in
  exists results self',
    runs_quietly
      (MultiRootFleetManager.pull_all Demo.world (fun _ => Demo.scheds [1]%nat)
         true false true PullMode.SMART None) self results self'
    /\ map fst results = first_occurrences (map id roots).
Proof.
  intros roots self.
  destruct (proj1 (multi_root_dry_run_is_inert Demo.world id roots 8 true true
                     (fun _ => Demo.scheds [1]%nat) true false PullMode.SMART
                     None (or_intror eq_refl)))
    as (results & self' & Hrun & Hkeys & _).
  exists results, self'. split; assumption.
Defined.

(** ** Counting commits ahead and behind *)

Lemma digit_char_facts (d : nat) :
  (d < 10)%nat ->
  Str.isdigit (digit_char d) = true
  /\ Str.isspace (digit_char d) = false
  /\ (Str.code (digit_char d) - 48)%nat = d
  /\ digit_char d <> "+"%char /\ digit_char d <> "-"%char.
Proof.
  intros H.
  do 10 (destruct d as [|d]; [vm_compute; repeat split; congruence|]).
  lia.
Qed.

Lemma numeral_cons (d : nat) (ds : list nat) :
  numeral (d :: ds) = String (digit_char d) (numeral ds).
Proof. reflexivity. Qed.

Lemma numeral_app (ds1 ds2 : list nat) :
  numeral (ds1 ++ ds2) = numeral ds1 +:+ numeral ds2.
Proof.
  induction ds1 as [|d ds1 IH]; [reflexivity|].
  rewrite <- app_comm_cons, !numeral_cons, IH. reflexivity.
Qed.

Lemma digits_cons (acc : Z) (seen : bool) (c : ascii) (s : string) :
  Str.digits acc seen (String c s)
  = if Str.isdigit c
    then Str.digits (10 * acc + Z.of_nat (Str.code c - 48)) true s
    else if Ascii.eqb c "_" && seen then Str.digits acc false s
    else None.
Proof. reflexivity. Qed.

Lemma digits_numeral (ds : list nat) (acc : Z) (seen : bool) :
  Forall (fun d => (d < 10)%nat) ds -> ds <> [] ->
  Str.digits acc seen (numeral ds)
  = Some (fold_left (fun acc d => 10 * acc + Z.of_nat d) ds acc).
Proof.
  intros Hall. revert acc seen.
  induction Hall as [|d ds Hd Hds IH]; intros acc seen Hne; [congruence|].
  rewrite numeral_cons, digits_cons.
  destruct (digit_char_facts d Hd) as (-> & _ & -> & _).
  destruct ds as [|d' ds']; [reflexivity|].
  apply IH. discriminate.
Qed.

Lemma count_digits_cons (c : ascii) (s : string) :
  Str.count_digits (String c s)
  = ((if Str.isdigit c then 1 else 0) + Str.count_digits s)%nat.
Proof. reflexivity. Qed.

Lemma count_digits_numeral (ds : list nat) :
  Forall (fun d => (d < 10)%nat) ds ->
  Str.count_digits (numeral ds) = length ds.
Proof.
  induction 1 as [|d ds Hd _ IH]; [reflexivity|].
  rewrite numeral_cons, count_digits_cons.
  destruct (digit_char_facts d Hd) as (-> & _). rewrite IH. reflexivity.
Qed.

Lemma append_assoc (a b c : string) : (a +:+ b) +:+ c = a +:+ (b +:+ c).
Proof.
  induction a as [|x a IH]; [reflexivity|].
  change (String x ((a +:+ b) +:+ c) = String x (a +:+ (b +:+ c))).
  rewrite IH. reflexivity.
Qed.

Lemma append_nil_r (a : string) : a +:+ "" = a.
Proof.
  induction a as [|x a IH]; [reflexivity|].
  change (String x (a +:+ "") = String x a). rewrite IH. reflexivity.
Qed.

Lemma rstrip_snoc_space (s : string) (c : ascii) :
  Str.isspace c = true -> Str.rstrip (s +:+ String c "") = Str.rstrip s.
Proof.
  intros Hc. induction s as [|a s IH].
  - change (Str.rstrip (String c "") = ""). rewrite rstrip_cons.
    simpl Str.rstrip. rewrite Hc. reflexivity.
  - change (Str.rstrip (String a (s +:+ String c "")) = Str.rstrip (String a s)).
    rewrite !rstrip_cons, IH. reflexivity.
Qed.

Lemma rstrip_snoc_other (s : string) (c : ascii) :
  Str.isspace c = false ->
  Str.rstrip (s +:+ String c "") = s +:+ String c "".
Proof.
  intros Hc. induction s as [|a s IH].
  - change (Str.rstrip (String c "") = String c ""). rewrite rstrip_cons.
    simpl Str.rstrip. rewrite Hc. reflexivity.
  - change (Str.rstrip (String a (s +:+ String c ""))
            = String a (s +:+ String c "")).
    rewrite rstrip_cons, IH.
    destruct (s +:+ String c "") eqn:E; [|reflexivity].
    destruct s; discriminate.
Qed.

(** A text that ends in a numeral has no white space at its end. *)
Lemma rstrip_numeral_end (s : string) (ds : list nat) :
  Forall (fun d => (d < 10)%nat) ds -> ds <> [] ->
  Str.rstrip (s +:+ numeral ds) = s +:+ numeral ds.
Proof.
  intros Hall Hne.
  destruct (exists_last Hne) as (ds' & d & ->).
  apply Forall_app in Hall as [_ Hd]. apply Forall_inv in Hd.
  rewrite numeral_app, <- append_assoc, numeral_cons.
  change (numeral []) with "".
  apply rstrip_snoc_other. apply (digit_char_facts d Hd).
Qed.

Lemma lstrip_cons (c : ascii) (s : string) :
  Str.lstrip (String c s) = if Str.isspace c then Str.lstrip s else String c s.
Proof. reflexivity. Qed.

Lemma lstrip_numeral_start (ds : list nat) (rest : string) :
  Forall (fun d => (d < 10)%nat) ds -> ds <> [] ->
  Str.lstrip (numeral ds +:+ rest) = numeral ds +:+ rest.
Proof.
  intros Hall Hne. destruct Hall as [|d ds Hd _]; [congruence|].
  rewrite numeral_cons.
  change (String (digit_char d) (numeral ds) +:+ rest)
    with (String (digit_char d) (numeral ds +:+ rest)).
  rewrite lstrip_cons.
  destruct (digit_char_facts d Hd) as (_ & -> & _). reflexivity.
Qed.

Lemma strip_numeral (ds : list nat) :
  Forall (fun d => (d < 10)%nat) ds -> ds <> [] ->
  Str.strip (numeral ds) = numeral ds.
Proof.
  intros Hall Hne. unfold Str.strip.
  pose proof (rstrip_numeral_end "" ds Hall Hne) as Hr.
  change ("" +:+ numeral ds) with (numeral ds) in Hr. rewrite Hr.
  pose proof (lstrip_numeral_start ds "" Hall Hne) as Hl.
  rewrite append_nil_r in Hl. exact Hl.
Qed.

(** A decimal literal without sign. *)
Lemma int_unsigned (c : ascii) (s : string) (z : Z) :
  Str.strip (String c s) = String c s ->
  (Str.count_digits (String c s) <= Str.max_str_digits)%nat ->
  c <> "+"%char -> c <> "-"%char ->
  Str.digits 0 false (String c s) = Some z ->
  Str.int (String c s) = Some z.
Proof.
  intros Hs Hlen Hplus Hminus Hd. unfold Str.int. rewrite Hs. cbv zeta.
  destruct (Str.max_str_digits <? Str.count_digits (String c s))%nat eqn:E.
  { apply Nat.ltb_lt in E. exfalso. revert E Hlen.
    generalize (Str.count_digits (String c s)), Str.max_str_digits.
    intros. lia. }
  destruct c as [b0 b1 b2 b3 b4 b5 b6 b7].
  destruct b0, b1, b2, b3, b4, b5, b6, b7; try exact Hd; congruence.
Qed.

Lemma int_numeral (ds : list nat) :
  is_numeral ds -> Str.int (numeral ds) = Some (numeral_value ds).
Proof.
  intros (Hne & Hall & Hlen).
  pose proof (strip_numeral ds Hall Hne) as Hs.
  pose proof (count_digits_numeral ds Hall) as Hc.
  pose proof (digits_numeral ds 0 false Hall Hne) as Hd.
  destruct ds as [|d ds']; [congruence|].
  apply Forall_inv in Hall.
  destruct (digit_char_facts d Hall) as (_ & _ & _ & Hplus & Hminus).
  rewrite numeral_cons in *.
  apply int_unsigned; try assumption.
  rewrite Hc. exact Hlen.
Qed.

Lemma split_cons (c : ascii) (s : string) :
  Str.split (String c s)
  = if Str.isspace c then Str.split s
    else match s with
         | EmptyString => [String c EmptyString]
         | String c' _ =>
             if Str.isspace c' then String c EmptyString :: Str.split s
             else match Str.split s with
                  | [] => [String c EmptyString]
                  | w :: ws => String c w :: ws
                  end
         end.
Proof. reflexivity. Qed.

(** Words of digits are the words [split] finds. *)
Lemma split_numeral (ds : list nat) (rest : string) :
  Forall (fun d => (d < 10)%nat) ds -> ds <> [] ->
  match rest with
  | EmptyString => True
  | String c _ => Str.isspace c = true
  end ->
  Str.split (numeral ds +:+ rest) = numeral ds :: Str.split rest.
Proof.
  intros Hall. induction Hall as [|d ds Hd Hds IH]; intros Hne Hrest;
    [congruence|].
  destruct (digit_char_facts d Hd) as (_ & Hsp & _).
  rewrite numeral_cons.
  change (String (digit_char d) (numeral ds) +:+ rest)
    with (String (digit_char d) (numeral ds +:+ rest)).
  rewrite split_cons, Hsp.
  destruct ds as [|d' ds'].
  - change (numeral [] +:+ rest) with rest.
    destruct rest as [|c rest]; [reflexivity|]. rewrite Hrest. reflexivity.
  - specialize (IH ltac:(discriminate) Hrest).
    apply Forall_inv in Hds.
    destruct (digit_char_facts d' Hds) as (_ & Hsp' & _).
    assert (Etail : numeral (d' :: ds') +:+ rest
                    = String (digit_char d') (numeral ds' +:+ rest))
      by reflexivity.
    rewrite Etail in *. cbv beta iota. rewrite Hsp', IH. reflexivity.
Qed.

(** X21. [get_ahead_behind] reads the two counts the tool prints: when the
    command returns zero and prints two decimal numerals separated by a
    tab and ended by a line feed, the method returns the second as ahead
    and the first as behind, runs that one command and leaves the locals
    alone. Numerals of more than 4300 digits are outside this. *)
Theorem ahead_behind_reads_the_counts (world : World) (repo_path : Path)
    {S : Type} (s : S) (out : CompletedProcess.t) (behind ahead : list nat) :
  let args := ["rev-list"; "--left-right"; "--count"; "@{u}...HEAD"] in
  git world repo_path args = Return out ->
  CompletedProcess.returncode out = 0 ->
  CompletedProcess.stdout out
  = numeral behind +:+ String Str.TAB (numeral ahead +:+ String Str.LF "") ->
  is_numeral behind -> is_numeral ahead ->
  GitOperations.get_ahead_behind world repo_path s
  = (Return (numeral_value ahead, numeral_value behind), s,
     [Run repo_path args]).
Proof.
  intros args Hgit Hrc Hout Hb Ha.
  pose proof Hb as (Hbne & Hball & _). pose proof Ha as (Hane & Haall & _).
  assert (Hstrip : Str.strip (CompletedProcess.stdout out)
                   = numeral behind +:+ String Str.TAB (numeral ahead)).
  { rewrite Hout. unfold Str.strip.
    replace (numeral behind
             +:+ String Str.TAB (numeral ahead +:+ String Str.LF ""))
      with ((numeral behind +:+ String Str.TAB (numeral ahead))
            +:+ String Str.LF "")
      by (rewrite append_assoc; reflexivity).
    rewrite rstrip_snoc_space by reflexivity.
    replace (numeral behind +:+ String Str.TAB (numeral ahead))
      with ((numeral behind +:+ String Str.TAB "") +:+ numeral ahead)
      by (rewrite append_assoc; reflexivity).
    rewrite rstrip_numeral_end by assumption.
    rewrite append_assoc. apply lstrip_numeral_start; assumption. }
  assert (Hsplit : Str.split (Str.strip (CompletedProcess.stdout out))
                   = [numeral behind; numeral ahead]).
  { rewrite Hstrip, split_numeral by (assumption || reflexivity).
    f_equal. rewrite split_cons. change (Str.isspace Str.TAB) with true.
    cbv beta iota.
    rewrite <- (append_nil_r (numeral ahead)) at 1.
    rewrite split_numeral by (assumption || exact I). reflexivity. }
  unfold GitOperations.get_ahead_behind, try_, bind, GitOperations._run.
  fold args. rewrite Hgit. cbv beta iota zeta. rewrite Hrc, Hsplit.
  change (0 =? 0) with true. change (length [_; _] =? 2)%nat with true.
  cbv beta iota.
  change (nth 1 [numeral behind; numeral ahead] "") with (numeral ahead).
  change (nth 0 [numeral behind; numeral ahead] "") with (numeral behind).
  unfold GitOperations.int_.
  rewrite (int_numeral ahead Ha), (int_numeral behind Hb).
  reflexivity.
Qed.

Lemma ahead_behind_reads_the_counts_witness :
  let out := CompletedProcess.mk 0
               (numeral [3%nat]
                +:+ String Str.TAB (numeral [1%nat; 2%nat] +:+ String Str.LF ""))
               "" in
  let world := {| git := fun _ _ => Return out;
                  rglob := fun _ => [];
                  fromisoformat := fun _ => None |} in
  GitOperations.get_ahead_behind world ["/"; "r"; "a"] tt
  = (Return (numeral_value [1%nat; 2%nat], numeral_value [3%nat]), tt,
     [Run ["/"; "r"; "a"]
        ["rev-list"; "--left-right"; "--count"; "@{u}...HEAD"]]).
Proof.
  intros out world.
  assert (Hn : forall ds, ds <> [] -> Forall (fun d => (d < 10)%nat) ds ->
                          (length ds <=? 4300)%nat = true -> is_numeral ds).
  { intros ds H1 H2 H3. split; [exact H1|]. split; [exact H2|].
    apply Nat.leb_le. exact H3. }
  apply (ahead_behind_reads_the_counts world ["/"; "r"; "a"] tt out
           [3%nat] [1%nat; 2%nat]).
  - reflexivity.
  - reflexivity.
  - reflexivity.
  - apply Hn; [discriminate|repeat constructor|reflexivity].
  - apply Hn; [discriminate|repeat constructor|reflexivity].
Defined.
